(** * @egomobile/queue: the in-memory task engine and its dispatcher

    A shallow embedding of [MemoryQueueStorage], [QueueStorageBase] and
    [Queue] (src/classes/memoryQueueStorage.ts, src/classes/queueStorageBase.ts)
    together with the part of the Node.js run time they rely on: the JS heap
    (objects have identity and are shared by reference), the [setImmediate]
    queue and the settlement of pending promises.

    User supplied code (observers, task actions, the main program) is not
    part of the repository: every call of a user function takes its behaviour
    from a script chosen by the environment, and every theorem quantifies over
    all scripts. *)

From Stdlib Require Import ZArith.
From stdpp Require Import base tactics option list gmap strings pretty.

Open Scope Z_scope.
Open Scope string_scope.
Open Scope nat_scope.
Open Scope list_scope.

(** ** JavaScript values *)

(** A heap address. Objects are allocated at the end of a heap, so the address
    of a new object is the length of the heap. *)
Abbreviation loc := nat.

Inductive JsValue :=
| VUndefined
| VNull
| VBool (b : bool)
| VNum (n : Z)
| VStr (s : string)
| VObj (l : loc)                               (* reference to a plain object *)
| VFun (f : nat)                               (* a user function *)
| VError (name : string) (message : string)    (* new Error(..) / new TypeError(..) *)
| VErrorContext (error : JsValue).             (* the object literal { error } *)

(** Abrupt or normal completion of a call; for an [async] method [Throw] is
    the rejection of the promise it returns. *)
Inductive Completion (A : Type) :=
| Normal (a : A)
| Throw (e : JsValue).
Arguments Normal {A} a.
Arguments Throw {A} e.

(** [typeof v === "function"] *)
Definition is_function (v : JsValue) : bool :=
  match v with VFun _ => true | _ => false end.

(** [QueueTaskData = Record<string, any>]: the own properties of a plain object. *)
Abbreviation Obj := (gmap string JsValue).

(** ** Data model (src/types/index.ts, memoryQueueStorage.ts) *)

Inductive TaskInQueueStatus := Queued | Running | Succeded | Failed | Stopped.

Global Instance TaskInQueueStatus_eq_dec : EqDecision TaskInQueueStatus.
Proof. solve_decision. Defined.

Record IQueueTaskInStorageOptions := {
  data : loc;       (* reference to the data object the caller passed *)
  key : string
}.

Record ITaskInQueue := {
  id : string;
  options : IQueueTaskInStorageOptions;
  status : TaskInQueueStatus
}.

Record IQueueTaskContext := { ctx_id : string }.

(** The observers a storage holds: functions of the user, or the two closures
    [Queue.init] subscribes. *)
Inductive QueueExecutionHandler :=
| UserExecutionHandler (f : nat)
| ExecuteBridge.

Inductive QueueErrorHandler :=
| UserErrorHandler (f : nat)
| ErrorBridge.

(** ** Run-time structures *)

(** What [Promise.resolve(v)] eventually does, for a value [v] a user function
    returned. *)
Inductive Fate :=
| Fulfils
| Rejects (e : JsValue)
| Hangs.

(** A callback handed to [setImmediate] by [executeTask]: the closure captures
    the record, the snapshot of the execute observers and [data], [key]. *)
Record Immediate := {
  i_task : loc;
  i_handlers : list QueueExecutionHandler;
  i_data : loc;
  i_key : string
}.

(** A pending [Promise.all(...)] of one execution attempt. *)
Record Attempt := {
  a_task : loc;
  a_results : list Fate
}.

(** The observation log, newest entry first. It is not part of the program; it
    records what the program does to its environment. *)
Inductive Event :=
| EvExecute (t : loc) (ctx : loc) (taskKey : string)          (* an "execute" event is emitted *)
| EvExecuteCall (h : QueueExecutionHandler) (t : loc) (ctx : loc)  (* ... and delivered to one observer *)
| EvErrorCall (h : QueueErrorHandler) (error : JsValue)       (* the storage calls h({ error }) *)
| EvTaskCall (f : nat) (taskKey : string) (ctx : loc)         (* the dispatcher runs a task action *)
| EvQueueErrorCall (h : JsValue) (error : JsValue)            (* the dispatcher calls h({ error }) *)
| EvConsoleError (place : string) (error : JsValue)
| EvStop (ts : list loc).                                     (* stopAllEnqueuedTasks was called on list ts *)

Module QueueObject.
(** The fields of a [Queue] instance. *)
Record t := mk {
  _errorHandlers : list JsValue;
  _isRunning : bool;
  _tasks : Obj
}.
End QueueObject.

Record State := mkState {
  objs : list Obj;                                   (* heap of data objects *)
  recs : list ITaskInQueue;                          (* heap of task records *)
  _errorHandlers : list QueueErrorHandler;           (* QueueStorageBase *)
  _executionHandlers : list QueueExecutionHandler;   (* QueueStorageBase *)
  _nextId : Z;                                       (* MemoryQueueStorage *)
  _tasksInQueue : list loc;                          (* MemoryQueueStorage *)
  immediates : list Immediate;                       (* setImmediate queue, oldest first *)
  inflight : list Attempt;                           (* pending Promise.all(...) *)
  queue : QueueObject.t;
  trace : list Event
}.

Definition with_objs (x : list Obj) (s : State) : State :=
  mkState x (recs s) (_errorHandlers s) (_executionHandlers s) (_nextId s)
          (_tasksInQueue s) (immediates s) (inflight s) (queue s) (trace s).
Definition with_recs (x : list ITaskInQueue) (s : State) : State :=
  mkState (objs s) x (_errorHandlers s) (_executionHandlers s) (_nextId s)
          (_tasksInQueue s) (immediates s) (inflight s) (queue s) (trace s).
Definition with_errorHandlers (x : list QueueErrorHandler) (s : State) : State :=
  mkState (objs s) (recs s) x (_executionHandlers s) (_nextId s)
          (_tasksInQueue s) (immediates s) (inflight s) (queue s) (trace s).
Definition with_executionHandlers (x : list QueueExecutionHandler) (s : State) : State :=
  mkState (objs s) (recs s) (_errorHandlers s) x (_nextId s)
          (_tasksInQueue s) (immediates s) (inflight s) (queue s) (trace s).
Definition with_nextId (x : Z) (s : State) : State :=
  mkState (objs s) (recs s) (_errorHandlers s) (_executionHandlers s) x
          (_tasksInQueue s) (immediates s) (inflight s) (queue s) (trace s).
Definition with_tasksInQueue (x : list loc) (s : State) : State :=
  mkState (objs s) (recs s) (_errorHandlers s) (_executionHandlers s) (_nextId s)
          x (immediates s) (inflight s) (queue s) (trace s).
Definition with_immediates (x : list Immediate) (s : State) : State :=
  mkState (objs s) (recs s) (_errorHandlers s) (_executionHandlers s) (_nextId s)
          (_tasksInQueue s) x (inflight s) (queue s) (trace s).
Definition with_inflight (x : list Attempt) (s : State) : State :=
  mkState (objs s) (recs s) (_errorHandlers s) (_executionHandlers s) (_nextId s)
          (_tasksInQueue s) (immediates s) x (queue s) (trace s).
Definition with_queue (x : QueueObject.t) (s : State) : State :=
  mkState (objs s) (recs s) (_errorHandlers s) (_executionHandlers s) (_nextId s)
          (_tasksInQueue s) (immediates s) (inflight s) x (trace s).

(** Append an entry to the observation log. *)
Definition log (e : Event) (s : State) : State :=
  mkState (objs s) (recs s) (_errorHandlers s) (_executionHandlers s) (_nextId s)
          (_tasksInQueue s) (immediates s) (inflight s) (queue s) (e :: trace s).

(** [taskInQueue.status] and [taskInQueue.status = st] *)
Definition status_of (s : State) (t : loc) : option TaskInQueueStatus :=
  status <$> recs s !! t.

Definition set_record_status (st : TaskInQueueStatus) (r : ITaskInQueue) : ITaskInQueue :=
  {| id := id r; options := options r; status := st |}.

Definition set_status (t : loc) (st : TaskInQueueStatus) (s : State) : State :=
  with_recs (alter (set_record_status st) t (recs s)) s.

(** The records that have a scheduled callback or a pending attempt. *)
Definition activities (s : State) : list loc :=
  (i_task <$> immediates s) ++ (a_task <$> inflight s).

(** ** Numbers

    [_nextId] is a JS number (an IEEE-754 double). The counter starts at
    [Number.MIN_SAFE_INTEGER] and only ever has 1 added to it, so it takes
    integer values between [-(2^53 - 1)] and [2^53]. On those, [n + 1] is exact
    below [2^53]; [2^53 + 1] is not representable and rounds (ties to even)
    back to [2^53]. *)
Definition MIN_SAFE_INTEGER : Z := (- (2 ^ 53 - 1))%Z.

Definition js_incr (n : Z) : Z :=
  if (n <? 2 ^ 53)%Z then (n + 1)%Z else n.

(** [String(n)] for an integer valued number of that range: its decimal digits. *)
Definition String (n : Z) : string := pretty n.

(** ** QueueStorageBase (src/classes/queueStorageBase.ts) *)

Module QueueStorageBase.

Definition getErrorHandlers (s : State) : list QueueErrorHandler :=
  _errorHandlers s.

Definition getExecutionHandlers (s : State) : list QueueExecutionHandler :=
  _executionHandlers s.

Definition on (event : string) (handler : JsValue) (s : State)
  : Completion unit * State :=
  match handler with
  | VFun f =>
      if decide (event = "error") then
        (Normal (), with_errorHandlers (_errorHandlers s ++ [UserErrorHandler f]) s)
      else if decide (event = "execute") then
        (Normal (), with_executionHandlers (_executionHandlers s ++ [UserExecutionHandler f]) s)
      else
        (Throw (VError "TypeError" (event +:+ " is no valid value for event argument")), s)
  | _ => (Throw (VError "TypeError" "handler must be of type function"), s)
  end.

End QueueStorageBase.

(** ** MemoryQueueStorage (src/classes/memoryQueueStorage.ts)

    The synchronous parts. What runs later (the [setImmediate] callback and the
    reactions to the settled [Promise.all]) follows below, after the model of
    user code. *)

Module MemoryQueueStorage.
Import QueueStorageBase.

Definition isStopped (t : loc) (s : State) : bool :=
  bool_decide (status_of s t = Some Stopped).

Definition cleanupTasksInQueue (s : State) : State :=
  with_tasksInQueue
    (filter (λ t, status_of s t ≠ Some Succeded) (_tasksInQueue s)) s.

(** The synchronous part of [executeTask]: snapshot the execute observers,
    give up when there is none, otherwise read [options] and hand the
    callback to [setImmediate]. *)
Definition executeTask (t : loc) (s : State) : State :=
  let executionHandlers := getExecutionHandlers s in
  match executionHandlers with
  | [] => s
  | _ :: _ =>
      match recs s !! t with
      | Some taskInQueue =>
          let options := options taskInQueue in
          with_immediates
            (immediates s ++
               [{| i_task := t; i_handlers := executionHandlers;
                   i_data := data options; i_key := key options |}]) s
      | None => s
      end
  end.

(** [enqueueRemainingTasks]: every stored record whose status is [Queued] is
    copied into a new object literal, and [executeTask] runs on the copy.
    [result] is returned as it was created. *)
Definition enqueueRemainingTasks (s : State) : list IQueueTaskContext * State :=
  let result : list IQueueTaskContext := [] in
  let tasksWithQueuedStatus :=
    filter (λ t, status_of s t = Some Queued) (_tasksInQueue s) in
  (result,
   foldl (λ s' t,
            match recs s' !! t with
            | Some r =>
                let copy := length (recs s') in
                executeTask copy
                  (with_recs (recs s' ++
                     [{| id := id r; options := options r; status := status r |}]) s')
            | None => s'
            end) s tasksWithQueuedStatus).

Definition enqueueTask (options : IQueueTaskInStorageOptions) (s : State)
  : IQueueTaskContext * State :=
  let id := String (_nextId s) in
  let s1 := with_nextId (js_incr (_nextId s)) s in
  let taskInQueue := length (recs s1) in
  let s2 := with_recs (recs s1 ++ [{| id := id; options := options; status := Queued |}]) s1 in
  let s3 := with_tasksInQueue (_tasksInQueue s2 ++ [taskInQueue]) s2 in
  ({| ctx_id := id |}, executeTask taskInQueue s3).

Definition stopAllEnqueuedTasks (s : State) : State :=
  let tasksToStop :=
    filter (λ t, status_of s t = Some Queued ∨
                 status_of s t = Some Running ∨
                 status_of s t = Some Failed) (_tasksInQueue s) in
  foldl (λ s' t, set_status t Stopped s') (log (EvStop (_tasksInQueue s)) s) tasksToStop.

End MemoryQueueStorage.

(** ** Queue (the dispatcher) *)

(** What a method of the storage returns. *)
Inductive JsResult :=
| RContext (c : IQueueTaskContext)
| RContexts (cs : list IQueueTaskContext)
| RUndefined.

(** The methods [IQueueStorage] declares and [MemoryQueueStorage] implements. *)
Inductive StorageMethod :=
| M_on
| M_enqueueRemainingTasks
| M_enqueueTask
| M_stopAllEnqueuedTasks.

(** [storage[name]]: the property of the storage instance with that name. *)
Definition storage_member (name : string) : option StorageMethod :=
  if decide (name = "on") then Some M_on
  else if decide (name = "enqueueRemainingTasks") then Some M_enqueueRemainingTasks
  else if decide (name = "enqueueTask") then Some M_enqueueTask
  else if decide (name = "stopAllEnqueuedTasks") then Some M_stopAllEnqueuedTasks
  else None.

(** [storage.m(arg)] with one argument, an options object. *)
Definition call_method (m : StorageMethod) (arg : IQueueTaskInStorageOptions) (s : State)
  : Completion JsResult * State :=
  match m with
  | M_on =>
      (* on(event, handler) with handler missing *)
      (Throw (VError "TypeError" "handler must be of type function"), s)
  | M_enqueueRemainingTasks =>
      let '(cs, s') := MemoryQueueStorage.enqueueRemainingTasks s in (Normal (RContexts cs), s')
  | M_enqueueTask =>
      let '(c, s') := MemoryQueueStorage.enqueueTask arg s in (Normal (RContext c), s')
  | M_stopAllEnqueuedTasks =>
      (Normal RUndefined, MemoryQueueStorage.stopAllEnqueuedTasks s)
  end.

(** The first argument of [register]: one [key, action] pair, a dictionary
    (given by its [Object.entries], in their order), [null] (for which
    [typeof] is "object" too), or anything else. *)
Inductive RegisterArg :=
| ArgPair (task : string * JsValue)
| ArgDict (entries : list (string * JsValue))
| ArgNull
| ArgOther.

(** *** The registry object and [Object.prototype]

    [this._tasks] is created by the literal [{}]: a plain object whose
    prototype is [Object.prototype]. A read [this._tasks[key]] finds the own
    property [key] or else the member of [Object.prototype] of that name.
    These are the string-keyed members of an untouched [Object.prototype] in
    Node.js 14 and later (package.json, "engines"); all are functions but
    [__proto__], which is an accessor. *)
Inductive ObjectPrototypeMember :=
| OP_constructor
| OP_toString
| OP_toLocaleString
| OP_valueOf
| OP_hasOwnProperty
| OP_isPrototypeOf
| OP_propertyIsEnumerable
| OP_defineGetter
| OP_defineSetter
| OP_lookupGetter
| OP_lookupSetter
| OP_proto.

Definition Object_prototype (key : string) : option ObjectPrototypeMember :=
  if decide (key = "constructor") then Some OP_constructor
  else if decide (key = "toString") then Some OP_toString
  else if decide (key = "toLocaleString") then Some OP_toLocaleString
  else if decide (key = "valueOf") then Some OP_valueOf
  else if decide (key = "hasOwnProperty") then Some OP_hasOwnProperty
  else if decide (key = "isPrototypeOf") then Some OP_isPrototypeOf
  else if decide (key = "propertyIsEnumerable") then Some OP_propertyIsEnumerable
  else if decide (key = "__defineGetter__") then Some OP_defineGetter
  else if decide (key = "__defineSetter__") then Some OP_defineSetter
  else if decide (key = "__lookupGetter__") then Some OP_lookupGetter
  else if decide (key = "__lookupSetter__") then Some OP_lookupSetter
  else if decide (key = "__proto__") then Some OP_proto
  else None.

(** What the read of a property of the registry finds. *)
Inductive Property :=
| Own (v : JsValue)
| Inherited (m : ObjectPrototypeMember)
| Missing.

(** [typeof p === "function"]. The getter of [__proto__] returns the
    prototype, which is an object. *)
Definition property_is_function (p : Property) : bool :=
  match p with
  | Own v => is_function v
  | Inherited OP_proto => false
  | Inherited _ => true
  | Missing => false
  end.

(** The values that the setter of [__proto__] ignores. *)
Definition proto_setter_ignores (v : JsValue) : bool :=
  match v with
  | VUndefined | VBool _ | VNum _ | VStr _ => true
  | _ => false
  end.

Module Queue.
(** The own property [key] of the registry object, [undefined] when it has
    none. (What the source reads, [this._tasks[key]], looks at the prototype
    too: [read_task].) *)
Definition get_task (tasks : Obj) (key : string) : JsValue :=
  default VUndefined (tasks !! key).

(** [this._tasks[key]]. In the map of the registry the entry at "__proto__"
    stands for the prototype slot, which is what the accessor reads and
    writes; [None] there is the initial prototype, [Object.prototype]. Once a
    value has been written there, what the other keys inherit depends on that
    value and is not followed by this model: see [prototype_intact]. *)
Definition read_task (tasks : Obj) (key : string) : Property :=
  match tasks !! key with
  | Some v => Own v
  | None =>
      match Object_prototype key with
      | Some m => Inherited m
      | None => Missing
      end
  end.

(** [this._tasks[key] = action]. For "__proto__" the assignment runs the
    setter of the accessor, which replaces the prototype when [action] is an
    object, a function or [null] and does nothing otherwise. Every other key
    gets (or overwrites) an own property: the check before the assignment has
    excluded the keys that name a function of [Object.prototype]. *)
Definition write_task (key : string) (action : JsValue) (tasks : Obj) : Obj :=
  if decide (key = "__proto__") then
    if proto_setter_ignores action then tasks else <[key := action]> tasks
  else <[key := action]> tasks.

(** The registry still has the prototype it was created with. *)
Definition prototype_intact (tasks : Obj) : Prop :=
  tasks !! "__proto__" = None.

Definition with_tasks (x : Obj) (q : QueueObject.t) : QueueObject.t :=
  QueueObject.mk (QueueObject._errorHandlers q) (QueueObject._isRunning q) x.

(** [init]: subscribe the two bridges to the storage. *)
Definition init (s : State) : State :=
  with_executionHandlers (_executionHandlers s ++ [ExecuteBridge])
    (with_errorHandlers (_errorHandlers s ++ [ErrorBridge]) s).

Definition on (event : string) (handler : JsValue) (s : State) : Completion unit * State :=
  if decide (event = "error") then
    (Normal (),
     with_queue (QueueObject.mk (QueueObject._errorHandlers (queue s) ++ [handler])
                    (QueueObject._isRunning (queue s)) (QueueObject._tasks (queue s))) s)
  else (Throw (VError "TypeError" (event +:+ " is no valid value for event argument")), s).

(** [enqueue(key, options)]; [options] is [Some d] when [options?.data] is
    an object [d], and [None] when it is nil. The callee is looked up before
    the argument is built, and called after. *)
Definition enqueue (key : string) (options : option loc) (s : State)
  : Completion JsResult * State :=
  let task := read_task (QueueObject._tasks (queue s)) key in
  if negb (property_is_function task) then
    (Throw (VError "Error" ("No task found for key " +:+ key)), s)
  else
    let queueTask := storage_member "queueTask" in
    let '(d, s1) := match options with
                    | Some d => (d, s)
                    | None => (length (objs s), with_objs (objs s ++ [∅]) s)
                    end in
    match queueTask with
    | Some m => call_method m {| data := d; key := key |} s1
    | None => (Throw (VError "TypeError" "storage.queueTask is not a function"), s1)
    end.

(** The [map] over [Object.entries(arg1)]: the first entry whose value is not
    a function throws. *)
Fixpoint check_entries (index : nat) (entries : list (string * JsValue))
  : Completion unit :=
  match entries with
  | [] => Normal ()
  | entry :: rest =>
      if is_function (entry.2) then check_entries (S index) rest
      else Throw (VError "TypeError"
                    ("Entry #" +:+ pretty index +:+ " (" +:+ entry.1 +:+
                     ") of taskDict must be of type function"))
  end.

(** The [forEach] over [tasksToAdd]: entries are written one by one; an
    entry whose key already reads as a function throws. *)
Fixpoint add_tasks (tasksToAdd : list (string * JsValue)) (tasks : Obj)
  : Completion unit * Obj :=
  match tasksToAdd with
  | [] => (Normal (), tasks)
  | (key, action) :: rest =>
      if property_is_function (read_task tasks key) then
        (Throw (VError "Error" ("Task cannot be reset for key " +:+ key)), tasks)
      else add_tasks rest (write_task key action tasks)
  end.

Definition register (arg1 : RegisterArg) (moreTasks : list (string * JsValue)) (q : QueueObject.t)
  : Completion unit * QueueObject.t :=
  let tasksToAdd := moreTasks in
  match arg1 with
  | ArgPair task =>
      let '(r, tasks) := add_tasks (task :: tasksToAdd) (QueueObject._tasks q) in
      (r, with_tasks tasks q)
  | ArgDict entries =>
      match check_entries 0 entries with
      | Throw e => (Throw e, q)
      | Normal _ =>
          let '(r, tasks) := add_tasks (entries ++ tasksToAdd) (QueueObject._tasks q) in
          (r, with_tasks tasks q)
      end
  | ArgNull =>
      (* Object.entries(null) *)
      (Throw (VError "TypeError" "Cannot convert undefined or null to object"), q)
  | ArgOther => (Throw (VError "TypeError" "arg1 must be of type object or array"), q)
  end.

Definition start (q : QueueObject.t) : bool * QueueObject.t :=
  if QueueObject._isRunning q then (false, q)
  else (true, QueueObject.mk (QueueObject._errorHandlers q) true (QueueObject._tasks q)).

Definition stop (q : QueueObject.t) : bool * QueueObject.t :=
  if negb (QueueObject._isRunning q) then (false, q)
  else (true, QueueObject.mk (QueueObject._errorHandlers q) false (QueueObject._tasks q)).

End Queue.

(** ** User code

    Code of the user runs in three places: outside the engine (the main
    program), inside an observer the engine calls, and inside a task action
    the dispatcher calls. What it can do to the program is call its public
    methods and write to objects it holds a reference to. *)

Inductive Effect :=
| ENewObject (o : Obj)                                   (* an object literal *)
| ESetProperty (l : loc) (k : string) (v : JsValue)      (* obj[k] = v *)
| EDeleteProperty (l : loc) (k : string)                 (* delete obj[k] *)
| EStorageOn (event : string) (handler : JsValue)
| EEnqueueTask (options : IQueueTaskInStorageOptions)
| EEnqueueRemainingTasks
| EStopAllEnqueuedTasks
| EQueueOn (event : string) (handler : JsValue)
| EQueueEnqueue (key : string) (options : option loc)
| EQueueRegister (arg1 : RegisterArg) (moreTasks : list (string * JsValue))
| EQueueStart
| EQueueStop.

Definition apply_effect (e : Effect) (s : State) : State :=
  match e with
  | ENewObject o => with_objs (objs s ++ [o]) s
  | ESetProperty l k v => with_objs (alter (λ o : Obj, <[k := v]> o) l (objs s)) s
  | EDeleteProperty l k => with_objs (alter (λ o : Obj, delete k o) l (objs s)) s
  | EStorageOn event handler => (QueueStorageBase.on event handler s).2
  | EEnqueueTask options => (MemoryQueueStorage.enqueueTask options s).2
  | EEnqueueRemainingTasks => (MemoryQueueStorage.enqueueRemainingTasks s).2
  | EStopAllEnqueuedTasks => MemoryQueueStorage.stopAllEnqueuedTasks s
  | EQueueOn event handler => (Queue.on event handler s).2
  | EQueueEnqueue key options => (Queue.enqueue key options s).2
  | EQueueRegister arg1 moreTasks => with_queue (Queue.register arg1 moreTasks (queue s)).2 s
  | EQueueStart => with_queue (Queue.start (queue s)).2 s
  | EQueueStop => with_queue (Queue.stop (queue s)).2 s
  end.

Definition apply_effects (es : list Effect) (s : State) : State :=
  foldl (λ s' e, apply_effect e s') s es.

(** How one call of a user function ends: it throws, or it returns a value
    [v], of which only the fate of [Promise.resolve(v)] matters. *)
Inductive Outcome :=
| Throws (e : JsValue)
| Returns (f : Fate).

(** One call of a user function: what it does while it runs, and how it ends. *)
Record Invocation := {
  effects : list Effect;
  outcome : Outcome
}.

(** The behaviour of the user functions called during one turn of the event
    loop, in the order of the calls. A call beyond the end of the script does
    nothing and returns [undefined]. *)
Definition Script := list Invocation.

Definition call_user (sc : Script) (s : State) : Outcome * Script * State :=
  match sc with
  | [] => (Returns Fulfils, [], s)
  | inv :: sc' => (outcome inv, sc', apply_effects (effects inv) s)
  end.

(** *** The two bridges of [Queue.init] *)

(** The call [task({ data, key })] of a function found on [Object.prototype].
    It is a plain call, so [this] is [undefined]. [Object(o)] returns its
    argument and [toString] returns "[object Undefined]"; every other member
    converts [this] to an object before anything else that can fail, and that
    throws a [TypeError]. (The message of the error is the engine's; the text
    that V8 has for [valueOf] stands for all of them.) None of them runs code
    of the user or touches the program. *)
Definition call_inherited (m : ObjectPrototypeMember) : Outcome :=
  match m with
  | OP_constructor | OP_toString => Returns Fulfils
  | _ => Throws (VError "TypeError" "Cannot convert undefined or null to object")
  end.

(** [storage.on("execute", ({ data, taskKey }) => ...)] *)
Definition execute_bridge (ctx : loc) (taskKey : string) (sc : Script) (s : State)
  : Outcome * Script * State :=
  let task := Queue.read_task (QueueObject._tasks (queue s)) taskKey in
  if negb (property_is_function task) then (Returns Fulfils, sc, s)
  else
    match task with
    | Own (VFun f) => call_user sc (log (EvTaskCall f taskKey ctx) s)
    | Inherited m => (call_inherited m, sc, s)
    | _ => (Returns Fulfils, sc, s)
    end.

(** [storage.on("error", (error) => this.getErrorHandlers().forEach(...))]:
    every observer of the dispatcher is called with [{ error }], where [error]
    is the parameter of the bridge; a failure of an observer, thrown or
    rejected, goes to [console.error]. *)
Fixpoint error_bridge (handlers : list JsValue) (error : JsValue) (sc : Script) (s : State)
  : Script * State :=
  match handlers with
  | [] => (sc, s)
  | handler :: rest =>
      let s0 := log (EvQueueErrorCall handler error) s in
      match handler with
      | VFun _ =>
          let '(o, sc1, s1) := call_user sc s0 in
          let s2 := match o with
                    | Throws error2 | Returns (Rejects error2) =>
                        log (EvConsoleError "Queue.init(storage.on(error))" error2) s1
                    | Returns _ => s1
                    end in
          error_bridge rest error sc1 s2
      | _ =>
          error_bridge rest error sc
            (log (EvConsoleError "Queue.init(storage.on(error))"
                    (VError "TypeError" "handler is not a function")) s0)
      end
  end.

(** ** MemoryQueueStorage.executeTask: what runs after [setImmediate] *)

Import QueueStorageBase MemoryQueueStorage.

(** One execute observer is called with the context. *)
Definition call_executionHandler (h : QueueExecutionHandler) (t ctx : loc) (taskKey : string)
    (sc : Script) (s : State) : Outcome * Script * State :=
  let s0 := log (EvExecuteCall h t ctx) s in
  match h with
  | UserExecutionHandler _ => call_user sc s0
  | ExecuteBridge => execute_bridge ctx taskKey sc s0
  end.

(** [executionHandlers.map((handler) => Promise.resolve(handler(context)))]:
    the observers are called in order; the first one that throws ends the map. *)
Fixpoint map_executionHandlers (hs : list QueueExecutionHandler) (t ctx : loc)
    (taskKey : string) (sc : Script) (s : State) : Completion (list Fate) * Script * State :=
  match hs with
  | [] => (Normal [], sc, s)
  | h :: hs' =>
      let '(o, sc1, s1) := call_executionHandler h t ctx taskKey sc s in
      match o with
      | Throws e => (Throw e, sc1, s1)
      | Returns f =>
          let '(r, sc2, s2) := map_executionHandlers hs' t ctx taskKey sc1 s1 in
          (match r with Normal fs => Normal (f :: fs) | Throw e => Throw e end, sc2, s2)
      end
  end.

(** One error observer is called with [{ error }], inside [try]/[catch].
    The bridge of the dispatcher is an observer like the others: the object
    [{ error }] is what its parameter (named [error] too) is bound to. *)
Definition call_errorHandler (h : QueueErrorHandler) (error : JsValue)
    (sc : Script) (s : State) : Script * State :=
  let s0 := log (EvErrorCall h error) s in
  match h with
  | UserErrorHandler _ =>
      let '(o, sc1, s1) := call_user sc s0 in
      match o with
      | Throws error2 =>
          (sc1, log (EvConsoleError "MemoryQueueStorage.executeTask(handleError)" error2) s1)
      | Returns _ => (sc1, s1)
      end
  | ErrorBridge =>
      error_bridge (QueueObject._errorHandlers (queue s0)) (VErrorContext error) sc s0
  end.

Fixpoint forEach_errorHandlers (hs : list QueueErrorHandler) (error : JsValue)
    (sc : Script) (s : State) : Script * State :=
  match hs with
  | [] => (sc, s)
  | h :: hs' =>
      let '(sc1, s1) := call_errorHandler h error sc s in
      forEach_errorHandlers hs' error sc1 s1
  end.

(** [handleError]; the retry is the synchronous part of [executeTask]. *)
Definition handleError (t : loc) (error : JsValue) (sc : Script) (s : State)
  : Script * State :=
  let shouldRetry := negb (isStopped t s) in
  let s1 := set_status t Failed s in
  let '(sc1, s2) := forEach_errorHandlers (getErrorHandlers s1) error sc s1 in
  if shouldRetry then (sc1, executeTask t s2) else (sc1, s2).

(** The callback given to [setImmediate]. [{ ...data }] allocates a new object
    with the own properties of [data]. *)
Definition setImmediate_callback (imm : Immediate) (sc : Script) (s : State)
  : Script * State :=
  let t := i_task imm in
  if isStopped t s then (sc, s)
  else
    let s1 := set_status t Queued s in
    let ctx := length (objs s1) in
    let s2 := with_objs (objs s1 ++ [default ∅ (objs s1 !! i_data imm)]) s1 in
    let s3 := set_status t Running s2 in
    let s4 := log (EvExecute t ctx (i_key imm)) s3 in
    match map_executionHandlers (i_handlers imm) t ctx (i_key imm) sc s4 with
    | (Normal fates, sc1, s5) =>
        (sc1, with_inflight (inflight s5 ++ [{| a_task := t; a_results := fates |}]) s5)
    | (Throw error, sc1, s5) => handleError t error sc1 s5
    end.

(** The callback given to [.then]. *)
Definition then_callback (t : loc) (s : State) : State :=
  cleanupTasksInQueue (set_status t Succeded s).

(** ** The event loop *)

Global Instance JsValue_eq_dec : EqDecision JsValue.
Proof.
  intros x y. unfold Decision. decide equality; apply (decide _).
Defined.
Global Instance Fate_eq_dec : EqDecision Fate.
Proof. solve_decision. Defined.

(** How a pending [Promise.all] settles: all its promises fulfilled, or the
    promise at index [j] was the first to reject. *)
Inductive Settlement :=
| AllFulfilled
| FirstRejected (j : nat).

Definition settle (i : nat) (how : Settlement) (sc : Script) (s : State)
  : option (Script * State) :=
  match inflight s !! i with
  | None => None
  | Some a =>
      let s0 := with_inflight (delete i (inflight s)) s in
      match how with
      | AllFulfilled =>
          if decide (Forall (λ f, f = Fulfils) (a_results a))
          then Some (sc, then_callback (a_task a) s0) else None
      | FirstRejected j =>
          match a_results a !! j with
          | Some (Rejects error) => Some (handleError (a_task a) error sc s0)
          | _ => None
          end
      end
  end.

(** One turn of the event loop. *)
Inductive Label :=
| LUser (es : list Effect)                        (* code of the user, outside of observers *)
| LImmediate (sc : Script)                        (* the oldest setImmediate callback runs *)
| LSettle (i : nat) (how : Settlement) (sc : Script).   (* attempt number i settles *)

Definition step (l : Label) (s : State) : option State :=
  match l with
  | LUser es => Some (apply_effects es s)
  | LImmediate sc =>
      match immediates s with
      | [] => None
      | imm :: rest => Some (setImmediate_callback imm sc (with_immediates rest s)).2
      end
  | LSettle i how sc => snd <$> settle i how sc s
  end.

Fixpoint run (ls : list Label) (s : State) : option State :=
  match ls with
  | [] => Some s
  | l :: ls' => match step l s with Some s' => run ls' s' | None => None end
  end.

(** [new MemoryQueueStorage()] and [new Queue()]. *)
Definition new_MemoryQueueStorage : State :=
  mkState [] [] [] [] MIN_SAFE_INTEGER [] [] [] (QueueObject.mk [] false ∅) [].

Definition new_Queue : State := Queue.init new_MemoryQueueStorage.

Inductive reachable : State → Prop :=
| reachable_storage : reachable new_MemoryQueueStorage
| reachable_queue : reachable new_Queue
| reachable_step l s s' : reachable s → step l s = Some s' → reachable s'.

(** * What a piece of the program may change

    [Ext cur s s']: the changes from [s] to [s'] that code running on behalf
    of the record [cur] (or of no record) can make. Another record only
    changes by being stopped; it gets no new callback or attempt; no "execute"
    event is emitted for it; and it stays in the backing list unless it has
    succeeded. *)

Definition stop_rel (a b : option TaskInQueueStatus) : Prop :=
  b = a ∨ (b = Some Stopped ∧ (a = Some Queued ∨ a = Some Running ∨ a = Some Failed)).

(** Every id in the heap was drawn from the counter. *)
Definition ids_issued (s : State) : Prop :=
  ∀ r, r ∈ recs s →
    ∃ n : Z, id r = String n ∧ (n < _nextId s ∨ 2 ^ 53 ≤ _nextId s)%Z.

(** The events code running on behalf of [cur] may add to the log: an
    "execute" event for [cur] only, and deliveries to observers only when
    there is a running record. *)
Definition event_allowed (cur : option loc) (e : Event) : Prop :=
  match e with
  | EvExecute t _ _ => cur = Some t
  | EvExecuteCall _ _ _ | EvErrorCall _ _ => cur ≠ None
  | _ => True
  end.

Record Ext (cur : option loc) (s s' : State) : Prop := {
  ext_trace : ∃ new, trace s' = new ++ trace s ∧ ∀ e, e ∈ new → event_allowed cur e;
  ext_recs : ∀ t r, recs s !! t = Some r →
                ∃ r', recs s' !! t = Some r' ∧ id r' = id r ∧ options r' = options r;
  ext_status : ∀ t, t < length (recs s) → cur ≠ Some t →
                stop_rel (status_of s t) (status_of s' t);
  ext_act : ∀ t, t < length (recs s) → cur ≠ Some t →
                t ∈ activities s' → t ∈ activities s;
  ext_stored : ∀ t, t < length (recs s) → cur ≠ Some t → t ∈ _tasksInQueue s →
                status_of s t ≠ Some Succeded → t ∈ _tasksInQueue s';
  ext_executionHandlers : _executionHandlers s `prefix_of` _executionHandlers s';
  ext_errorHandlers : _errorHandlers s `prefix_of` _errorHandlers s';
  ext_objs : length (objs s) ≤ length (objs s');
  ext_nextId : (_nextId s ≤ _nextId s')%Z;
  ext_ids : ids_issued s → ids_issued s'
}.

(** The record on whose behalf a turn of the event loop runs. *)
Definition step_task (l : Label) (s : State) : option loc :=
  match l with
  | LUser _ => None
  | LImmediate _ => i_task <$> head (immediates s)
  | LSettle i _ _ => a_task <$> inflight s !! i
  end.

(** * The invariant of the engine *)

(** [t] was in the backing list at some call of [stopAllEnqueuedTasks]. *)
Definition stopped_in (tr : list Event) (t : loc) : Prop :=
  ∃ ts, EvStop ts ∈ tr ∧ t ∈ ts.

(** The log is newest first: [tr2] is what happened after the stop. *)
Definition no_execute_after_stop (tr : list Event) : Prop :=
  ∀ tr2 ts tr1 t ctx k,
    tr = tr2 ++ EvStop ts :: tr1 → t ∈ ts → EvExecute t ctx k ∉ tr2.

(** A record that was stopped is [Stopped], or the attempt that was pending
    at the stop has settled and nothing is scheduled for it. *)
Definition halted (s : State) (t : loc) : Prop :=
  status_of s t = Some Stopped ∨
  ((t ∉ activities s) ∧ (status_of s t = Some Failed ∨ status_of s t = Some Succeded)).

Record WF (s : State) : Prop := {
  wf_act_valid : ∀ t, t ∈ activities s → t < length (recs s);
  wf_act_nodup : NoDup (activities s);
  wf_stored : ∀ t, t ∈ _tasksInQueue s →
                t < length (recs s) ∧ status_of s t ≠ Some Succeded;
  wf_stopped : ∀ t, stopped_in (trace s) t → halted s t;
  wf_stopped_src : ∀ t, status_of s t = Some Stopped → stopped_in (trace s) t;
  wf_succeeded : ∀ t, status_of s t = Some Succeded → t ∉ activities s;
  wf_trace : no_execute_after_stop (trace s)
}.

(** The record whose callback or settlement is running. *)
Definition Cur (t : loc) (s : State) : Prop :=
  t < length (recs s) ∧ (t ∉ activities s) ∧ status_of s t ≠ Some Succeded ∧
  (stopped_in (trace s) t → status_of s t = Some Stopped).

Definition Inv (cur : option loc) (s : State) : Prop :=
  WF s ∧ match cur with Some t => Cur t s | None => True end.

(** Events that neither stop nor start anything. *)
Definition quiet_event (e : Event) : Prop :=
  match e with EvStop _ | EvExecute _ _ _ => False | _ => True end.

Definition stoppable (s : State) (t : loc) : Prop :=
  status_of s t = Some Queued ∨ status_of s t = Some Running ∨
  status_of s t = Some Failed.

Global Instance stoppable_dec s t : Decision (stoppable s t).
Proof. unfold stoppable. apply _. Defined.

(** ** A sample run

    An observer is subscribed, a task "t1" with data [{ x: 1 }] is submitted,
    and its first attempt is started; the observer returns a promise that will
    be rejected. *)
Definition sample_run : list Label :=
  [ LUser [ EStorageOn "execute" (VFun 1);
            ENewObject {[ "x" := VNum 1 ]};
            EEnqueueTask {| data := 0; key := "t1" |} ];
    LImmediate [ {| effects := []; outcome := Returns (Rejects (VStr "boom")) |} ] ].

Definition sample_state : State :=
  default new_MemoryQueueStorage (run sample_run new_MemoryQueueStorage).

(** The status of record [t] after the run [ls] of a new storage. *)
Definition status_after (ls : list Label) (t : loc) : option TaskInQueueStatus :=
  match run ls new_MemoryQueueStorage with
  | Some s => status_of s t
  | None => None
  end.

(** A task is submitted to a storage that has no execute observer yet, and an
    observer is subscribed afterwards: the stored record 0 is [Queued] and
    nothing is scheduled for it. *)
Definition idle_run : list Label :=
  [ LUser [ ENewObject {[ "x" := VNum 1 ]};
            EEnqueueTask {| data := 0; key := "t1" |};
            EStorageOn "execute" (VFun 1) ] ].

Definition idle_state : State :=
  default new_MemoryQueueStorage (run idle_run new_MemoryQueueStorage).

(** The sample run, stopped, with the pending attempt rejected afterwards: the
    stored record 0 is [Failed] and nothing is scheduled for it. *)
Definition failed_state : State :=
  default new_MemoryQueueStorage
    (run (sample_run ++ [LUser [EStopAllEnqueuedTasks]; LSettle 0 (FirstRejected 0) []])
       new_MemoryQueueStorage).

(** The options of a task "t". *)
Definition sample_options : IQueueTaskInStorageOptions := {| data := 0; key := "t" |}.

(** A dispatcher with one registered task, "t". *)
Definition registered_state : State :=
  apply_effects [EQueueRegister (ArgDict [("t", VFun 3)]) []] new_Queue.

(** A dispatcher object with one registered task, "b". *)
Definition one_task_queue : QueueObject.t :=
  QueueObject.mk [] false {[ "b" := VFun 1 ]}.

(** The deliveries of "error" events in a log, newest first: the observer and
    the failure it was given. *)
Definition error_calls (tr : list Event) : list (QueueErrorHandler * JsValue) :=
  omap (λ e, match e with EvErrorCall h error => Some (h, error) | _ => None end) tr.


(** Both error observers throw. *)
Definition throwing_script : Script :=
  [ {| effects := []; outcome := Throws (VStr "observer 7 is broken") |};
    {| effects := []; outcome := Throws (VStr "observer 8 is broken") |} ].

(** ** Writes of user code to objects *)

(** The effect writes properties only of objects that satisfy [P]. *)
Definition writes_within (P : loc → Prop) (e : Effect) : Prop :=
  match e with
  | ESetProperty l _ _ | EDeleteProperty l _ => P l
  | _ => True
  end.

Definition script_writes_within (P : loc → Prop) (sc : Script) : Prop :=
  Forall (λ inv, Forall (writes_within P) (effects inv)) sc.

(** The objects of [s] that do not satisfy [P] are the same in [s']. *)
Definition objs_kept (P : loc → Prop) (s s' : State) : Prop :=
  length (objs s) ≤ length (objs s') ∧
  ∀ l, l < length (objs s) → ¬ P l → objs s' !! l = objs s !! l.

(** An observer that adds, overwrites and removes properties of the context
    data it is given (the object at [ctx]), and then fulfils. *)
Definition mutating_script (ctx : loc) : Script :=
  [ {| effects := [ ESetProperty ctx "x" (VNum 2);
                    ESetProperty ctx "y" (VStr "new");
                    EDeleteProperty ctx "x" ];
       outcome := Returns Fulfils |} ].



(** A dispatcher whose storage was given a task under a key that is not
    registered, "ghost". *)
Definition ghost_state : State :=
  apply_effects [ENewObject ∅; EEnqueueTask {| data := 0; key := "ghost" |}] new_Queue.

(** ** Further observations of the log *)

(** The deliveries of "execute" events, newest first: the observer, the
    record and the context object. *)
Definition execute_calls (tr : list Event) : list (QueueExecutionHandler * loc * loc) :=
  omap (λ e, match e with EvExecuteCall h t ctx => Some (h, t, ctx) | _ => None end) tr.

(** The notifications of the dispatcher's error observers, newest first. *)
Definition queue_error_calls (tr : list Event) : list (JsValue * JsValue) :=
  omap (λ e, match e with EvQueueErrorCall h error => Some (h, error) | _ => None end) tr.

(** The calls of task actions by the dispatcher, newest first. *)
Definition task_calls (tr : list Event) : list (nat * string * loc) :=
  omap (λ e, match e with EvTaskCall f k ctx => Some (f, k, ctx) | _ => None end) tr.

(** The "execute" events emitted for record [t], newest first. *)
Definition executes_of (t : loc) (tr : list Event) : list (loc * string) :=
  omap (λ e, match e with
             | EvExecute t' ctx k => if decide (t' = t) then Some (ctx, k) else None
             | _ => None
             end) tr.

(** No call of a user function in the script throws. *)
Definition script_returns (sc : Script) : Prop :=
  Forall (λ inv, ∃ f, outcome inv = Returns f) sc.

(** A task is submitted, its observer fulfils, and the attempt has settled:
    record 0 has succeeded. *)
Definition done_run : list Label :=
  [ LUser [ EStorageOn "execute" (VFun 1);
            ENewObject {[ "x" := VNum 1 ]};
            EEnqueueTask {| data := 0; key := "t1" |} ];
    LImmediate [];
    LSettle 0 AllFulfilled [] ].

Definition done_state : State :=
  default new_MemoryQueueStorage (run done_run new_MemoryQueueStorage).

(** ** What a piece of the program adds to the log *)

(** A mark left by [stopAllEnqueuedTasks]. *)
Definition is_stop (e : Event) : Prop :=
  match e with EvStop _ => True | _ => False end.

(** What the call of a task action by the dispatcher may log. *)
Definition action_side (e : Event) : Prop :=
  match e with EvStop _ | EvTaskCall _ _ _ => True | _ => False end.

(** What the calls of the execute observers may log. *)
Definition execute_side (e : Event) : Prop :=
  match e with EvStop _ | EvExecuteCall _ _ _ | EvTaskCall _ _ _ => True | _ => False end.

(** What the handling of a failure may log. *)
Definition error_side (e : Event) : Prop :=
  match e with
  | EvStop _ | EvErrorCall _ _ | EvQueueErrorCall _ _ | EvConsoleError _ _ => True
  | _ => False
  end.

(** Everything but the start of an attempt. *)
Definition no_execute (e : Event) : Prop :=
  match e with EvExecute _ _ _ => False | _ => True end.

(** [s'] has the log of [s] and, on top, entries that satisfy [P]. *)
Definition adds (P : Event → Prop) (s s' : State) : Prop :=
  ∃ new, trace s' = new ++ trace s ∧ Forall P new.

(** The "execute" events of a log, newest first: record, context object, key. *)
Definition executes (tr : list Event) : list (loc * loc * string) :=
  omap (λ e, match e with EvExecute t ctx k => Some (t, ctx, k) | _ => None end) tr.

(** The context objects handed out so far. *)
Definition contexts (tr : list Event) : list loc :=
  (λ x, x.1.2) <$> executes tr.

Definition with_trace (x : list Event) (s : State) : State :=
  mkState (objs s) (recs s) (_errorHandlers s) (_executionHandlers s) (_nextId s)
          (_tasksInQueue s) (immediates s) (inflight s) (queue s) x.

(** The user code of one turn of the event loop writes properties only of
    objects that satisfy [P]. *)
Definition label_writes_within (P : loc → Prop) (l : Label) : Prop :=
  match l with
  | LUser es => Forall (writes_within P) es
  | LImmediate sc | LSettle _ _ sc => script_writes_within P sc
  end.

(** ** A task that always fails *)

(** An observer that does nothing and returns a promise that is rejected
    with [e]. *)
Definition rejecting (e : JsValue) : Invocation :=
  {| effects := []; outcome := Returns (Rejects e) |}.

(** One failing attempt: the callback runs, the first observer rejects, the
    others (if any) fulfil, and the [Promise.all] settles. *)
Definition failing_round (e : JsValue) : list Label :=
  [ LImmediate [rejecting e]; LSettle 0 (FirstRejected 0) [] ].

Fixpoint failing_rounds (k : nat) (e : JsValue) : list Label :=
  match k with
  | 0 => []
  | S k' => failing_round e ++ failing_rounds k' e
  end.

(** The callback [imm] of a record that is not [Stopped] is the only thing
    scheduled; it was scheduled with the record's options and the current
    observers, the first of which is a function of the user. *)
Definition retry_pending (imm : Immediate) (s : State) : Prop :=
  immediates s = [imm] ∧ inflight s = [] ∧
  i_handlers imm = _executionHandlers s ∧
  (∃ f hs, i_handlers imm = UserExecutionHandler f :: hs) ∧
  ∃ r, recs s !! i_task imm = Some r ∧
       i_data imm = data (options r) ∧ i_key imm = key (options r) ∧
       status r ≠ Stopped.

(** ** The counter and the registry *)

Definition nextId_in_range (s : State) : Prop :=
  (MIN_SAFE_INTEGER ≤ _nextId s ≤ 2 ^ 53)%Z.

(** The key is registered with the action [f]. *)
Definition registered (key : string) (f : nat) (s : State) : Prop :=
  QueueObject._tasks (queue s) !! key = Some (VFun f).

(** ** A dispatcher at work

    A task "t" is registered, three error observers are subscribed to the
    dispatcher (the second is not a function), and a task with key "t" and
    data [{ x: 1 }] was given to the storage. *)
Definition dispatcher_state : State :=
  apply_effects [ EQueueRegister (ArgDict [("t", VFun 3)]) [];
                  EQueueOn "error" (VFun 5);
                  EQueueOn "error" VNull;
                  EQueueOn "error" (VFun 6);
                  ENewObject {[ "x" := VNum 1 ]};
                  EEnqueueTask {| data := 0; key := "t" |} ] new_Queue.

Definition dispatcher_callback : Immediate :=
  {| i_task := 0; i_handlers := [ExecuteBridge]; i_data := 0; i_key := "t" |}.

(** [s'] is [s] with entries that satisfy [P] added to the log, and nothing
    else changed. *)
Definition only_logs (P : Event → Prop) (s s' : State) : Prop :=
  adds P s s' ∧ s' = with_trace (trace s') s.

(** ** The running flag of the dispatcher *)

(** [this._isRunning = b] *)
Definition with_isRunning (b : bool) (s : State) : State :=
  with_queue (QueueObject.mk (QueueObject._errorHandlers (queue s)) b
                (QueueObject._tasks (queue s))) s.

Definition lift_flag {A} (b : bool) (r : A * State) : A * State :=
  (r.1, with_isRunning b r.2).

(** A storage with one execute observer and one object, [{ x: 1 }], and
    nothing submitted yet. *)
Definition ready_state : State :=
  apply_effects [ EStorageOn "execute" (VFun 1); ENewObject {[ "x" := VNum 1 ]} ]
    new_MemoryQueueStorage.

(** ** Batches of [register] *)

(** The list [tasksToAdd] that [register] builds from its arguments. *)
Definition batch_of (arg1 : RegisterArg) (moreTasks : list (string * JsValue))
  : list (string * JsValue) :=
  match arg1 with
  | ArgPair task => task :: moreTasks
  | ArgDict entries => entries ++ moreTasks
  | ArgNull | ArgOther => []
  end.

(** [arg1] gets past the checks on the first argument: it is a pair, or a
    dictionary whose values are all functions. *)
Definition passes_validation (arg1 : RegisterArg) : Prop :=
  match arg1 with
  | ArgPair _ => True
  | ArgDict entries => Forall (λ e, is_function e.2 = true) entries
  | ArgNull | ArgOther => False
  end.

(** The registry after the entries [es] have been written, in their order. *)
Definition committed (es : list (string * JsValue)) (tasks : Obj) : Obj :=
  foldl (λ m e, <[e.1 := e.2]> m) tasks es.

(** The key is registered: it holds a function. *)
Definition holds_function (tasks : Obj) (key : string) : Prop :=
  is_function (Queue.get_task tasks key) = true.

(** No entry of [es] finds its key holding a function when its turn comes
    (neither from before the call nor from an earlier entry of [es]). *)
Definition all_free (es : list (string * JsValue)) (tasks : Obj) : Prop :=
  ∀ pre k a post, es = pre ++ (k, a) :: post → ¬ holds_function (committed pre tasks) k.

(** No key of [es] names a member of [Object.prototype]. *)
Definition plain_keys (es : list (string * JsValue)) : Prop :=
  Forall (λ e, Object_prototype e.1 = None) es.

(** ** A copy made by [enqueueRemainingTasks]

    A task "t1" is submitted before any execute observer is subscribed; an
    observer is subscribed; [enqueueRemainingTasks] and then
    [stopAllEnqueuedTasks] are called; after that the observer rejects two
    attempts. *)
Definition copy_run : list Label :=
  idle_run ++ [LUser [EEnqueueRemainingTasks]; LUser [EStopAllEnqueuedTasks]] ++
  failing_rounds 2 (VStr "boom").

Definition copy_state : State :=
  default new_MemoryQueueStorage (run copy_run new_MemoryQueueStorage).

(** ** A key that names a member of [Object.prototype]

    A new dispatcher, nothing registered; its storage is given a task with
    the key "valueOf". *)
Definition inherited_state : State :=
  apply_effects [ENewObject ∅; EEnqueueTask {| data := 0; key := "valueOf" |}] new_Queue.

(** The bridge of the dispatcher throws when it is called for [key]: the key
    reads as a function of [Object.prototype] that throws. *)
Definition bridge_throws (tasks : Obj) (key : string) : bool :=
  match Queue.read_task tasks key with
  | Inherited m =>
      property_is_function (Inherited m) &&
      match call_inherited m with Throws _ => true | Returns _ => false end
  | _ => false
  end.

(** The bridge of the dispatcher returns when it is called for [key]: the
    key is a property of the registry itself, or the prototype of the
    registry is [Object.prototype] and what the key reads there is not a
    function that throws. *)
Definition bridge_returns (tasks : Obj) (key : string) : Prop :=
  is_Some (tasks !! key) ∨
  (Queue.prototype_intact tasks ∧ bridge_throws tasks key = false).

(** A dispatcher with a task "t" registered and one object, [{ x: 1 }], and
    nothing submitted yet. *)
Definition registered_ready_state : State :=
  apply_effects [ EQueueRegister (ArgDict [("t", VFun 3)]) [];
                  ENewObject {[ "x" := VNum 1 ]} ] new_Queue.
(** * Basic facts about the heap of records *)

Lemma status_of_lt s t st : status_of s t = Some st → t < length (recs s).
Proof.
  unfold status_of. destruct (recs s !! t) eqn:E; [|done].
  intros _. by eapply lookup_lt_Some.
Qed.

Lemma status_of_is_Some s t : t < length (recs s) → is_Some (status_of s t).
Proof.
  intros H. apply lookup_lt_is_Some_2 in H as [r Hr].
  unfold status_of. rewrite Hr. by eexists.
Qed.

Lemma status_of_set_status_eq s t st :
  t < length (recs s) → status_of (set_status t st s) t = Some st.
Proof.
  intros H. apply lookup_lt_is_Some_2 in H as [r Hr].
  unfold status_of, set_status. simpl. by rewrite list_lookup_alter_eq, Hr.
Qed.

Lemma status_of_set_status_ne s t t' st :
  t ≠ t' → status_of (set_status t st s) t' = status_of s t'.
Proof.
  intros H. unfold status_of, set_status. simpl. by rewrite list_lookup_alter_ne.
Qed.

Lemma status_of_set_status s t t' st :
  status_of (set_status t st s) t' = status_of s t' ∨
  (t' = t ∧ t < length (recs s) ∧ status_of (set_status t st s) t' = Some st).
Proof.
  destruct (decide (t = t')) as [<-|Hne].
  - destruct (decide (t < length (recs s))) as [Hlt|Hge].
    + right. split_and!; [done..|]. by apply status_of_set_status_eq.
    + left. unfold status_of, set_status. simpl.
      rewrite list_lookup_alter_eq.
      rewrite (lookup_ge_None_2 (recs s) t) by lia. done.
  - left. by apply status_of_set_status_ne.
Qed.

Lemma recs_set_status_lookup s t st t' r :
  recs s !! t' = Some r →
  ∃ r', recs (set_status t st s) !! t' = Some r' ∧ id r' = id r ∧ options r' = options r.
Proof.
  intros Hr. unfold set_status. simpl.
  destruct (decide (t = t')) as [<-|Hne].
  - rewrite list_lookup_alter_eq, Hr. simpl. by eexists.
  - rewrite list_lookup_alter_ne by done. by eexists.
Qed.

Lemma length_recs_set_status s t st : length (recs (set_status t st s)) = length (recs s).
Proof. unfold set_status. simpl. apply length_alter. Qed.

Lemma status_of_alloc_old s r t :
  t < length (recs s) → status_of (with_recs (recs s ++ [r]) s) t = status_of s t.
Proof. intros H. unfold status_of. simpl. by rewrite lookup_app_l. Qed.

Lemma status_of_alloc_new s r :
  status_of (with_recs (recs s ++ [r]) s) (length (recs s)) = Some (status r).
Proof.
  unfold status_of. simpl. rewrite lookup_app_r by lia.
  by rewrite Nat.sub_diag.
Qed.

(** Adding a callback or an attempt adds its record to the activities. *)
Lemma activities_push_immediate s imm :
  activities (with_immediates (immediates s ++ [imm]) s) ≡ₚ i_task imm :: activities s.
Proof.
  unfold activities. simpl. rewrite fmap_app. simpl.
  rewrite <- (assoc_L (++)). simpl.
  by rewrite <- Permutation_middle.
Qed.

Lemma activities_push_inflight s a :
  activities (with_inflight (inflight s ++ [a]) s) ≡ₚ a_task a :: activities s.
Proof.
  unfold activities. simpl. rewrite fmap_app. simpl.
  rewrite (assoc_L (++)). by rewrite <- Permutation_cons_append.
Qed.

Lemma activities_pop_immediate s imm rest :
  immediates s = imm :: rest →
  activities s = i_task imm :: activities (with_immediates rest s).
Proof. intros H. unfold activities. simpl. by rewrite H. Qed.

Lemma activities_remove_inflight s i a :
  inflight s !! i = Some a →
  activities s ≡ₚ a_task a :: activities (with_inflight (delete i (inflight s)) s).
Proof.
  intros H. unfold activities. simpl.
  rewrite Permutation_middle. apply Permutation_app_head.
  rewrite <- (take_drop_middle _ _ _ H) at 1.
  rewrite delete_take_drop, !fmap_app. simpl.
  by rewrite Permutation_middle.
Qed.

Lemma stop_rel_refl a : stop_rel a a.
Proof. by left. Qed.

Lemma stop_rel_trans a b c : stop_rel a b → stop_rel b c → stop_rel a c.
Proof.
  intros [->|[-> Ha]] [->|[-> Hb]]; unfold stop_rel; intuition auto.
Qed.

Lemma stop_rel_not_succeeded a b : stop_rel a b → a ≠ Some Succeded → b ≠ Some Succeded.
Proof. intros [->|[-> _]]; [done|]. by intros _ ?. Qed.

Lemma ext_length {cur s s'} : Ext cur s s' → length (recs s) ≤ length (recs s').
Proof.
  intros H. destruct (decide (length (recs s) = 0)) as [|Hne]; [lia|].
  destruct (lookup_lt_is_Some_2 (recs s) (length (recs s) - 1)) as [r Hr]; [lia|].
  destruct (ext_recs _ _ _ H _ _ Hr) as (r' & Hr' & _).
  apply lookup_lt_Some in Hr'. lia.
Qed.

Lemma Ext_refl cur s : Ext cur s s.
Proof.
  split; try done.
  - exists []. split; [done|]. intros e H. by apply elem_of_nil in H.
  - intros t r Hr. by exists r.
  - intros. apply stop_rel_refl.
Qed.

Lemma Ext_trans cur s1 s2 s3 : Ext cur s1 s2 → Ext cur s2 s3 → Ext cur s1 s3.
Proof.
  intros H12 H23. pose proof (ext_length H12) as Hlen.
  split.
  - destruct (ext_trace _ _ _ H12) as (n1 & E1 & F1).
    destruct (ext_trace _ _ _ H23) as (n2 & E2 & F2).
    exists (n2 ++ n1). split.
    + by rewrite E2, E1, (assoc_L (++)).
    + intros e [?|?]%elem_of_app; eauto.
  - intros t r Hr.
    destruct (ext_recs _ _ _ H12 _ _ Hr) as (r2 & Hr2 & Hi2 & Ho2).
    destruct (ext_recs _ _ _ H23 _ _ Hr2) as (r3 & Hr3 & Hi3 & Ho3).
    exists r3. split_and!; [done|congruence..].
  - intros t Ht Hc. eapply stop_rel_trans.
    + by apply (ext_status _ _ _ H12).
    + apply (ext_status _ _ _ H23); [lia|done].
  - intros t Ht Hc Hin. apply (ext_act _ _ _ H12); [done..|].
    apply (ext_act _ _ _ H23); [lia|done..].
  - intros t Ht Hc Hin Hs. apply (ext_stored _ _ _ H23); [lia|done| |].
    + by apply (ext_stored _ _ _ H12).
    + eapply stop_rel_not_succeeded; [|done]. by apply (ext_status _ _ _ H12).
  - etrans; [apply (ext_executionHandlers _ _ _ H12)|apply (ext_executionHandlers _ _ _ H23)].
  - etrans; [apply (ext_errorHandlers _ _ _ H12)|apply (ext_errorHandlers _ _ _ H23)].
  - etrans; [apply (ext_objs _ _ _ H12)|apply (ext_objs _ _ _ H23)].
  - etrans; [apply (ext_nextId _ _ _ H12)|apply (ext_nextId _ _ _ H23)].
  - intros. by apply (ext_ids _ _ _ H23), (ext_ids _ _ _ H12).
Qed.

Lemma Ext_weaken cur s s' : Ext None s s' → Ext cur s s'.
Proof.
  intros H. split; try apply H.
  - destruct (ext_trace _ _ _ H) as (new & E & F). exists new. split; [done|].
    intros e Hin. specialize (F _ Hin). by destruct e.
  - intros t Ht _. by apply (ext_status _ _ _ H).
  - intros t Ht _. by apply (ext_act _ _ _ H).
  - intros t Ht _. by apply (ext_stored _ _ _ H).
Qed.

Ltac ext_field :=
  unfold status_of, activities, ids_issued in *; simpl in *;
  first
    [ done
    | lia
    | by (exists []; split; [done|]; intros ? ?%elem_of_nil)
    | by (intros; eexists; eauto)
    | by (intros; apply stop_rel_refl)
    | by (intros; apply prefix_app_r)
    | idtac ].

Lemma Ext_frame cur s s' :
  recs s' = recs s → _tasksInQueue s' = _tasksInQueue s →
  immediates s' = immediates s → inflight s' = inflight s →
  trace s' = trace s → _nextId s' = _nextId s →
  _executionHandlers s `prefix_of` _executionHandlers s' →
  _errorHandlers s `prefix_of` _errorHandlers s' →
  length (objs s) ≤ length (objs s') →
  Ext cur s s'.
Proof.
  intros Hr Hq Hi Hf Ht Hn He Hh Ho.
  split; unfold status_of, activities, ids_issued; rewrite ?Hr, ?Hq, ?Hi, ?Hf, ?Ht, ?Hn;
    try done; try lia.
  - exists []. split; [done|]. intros ? H. by apply elem_of_nil in H.
  - intros t r ?. by exists r.
  - intros. apply stop_rel_refl.
Qed.

Lemma Ext_log cur e s : event_allowed cur e → Ext cur s (log e s).
Proof.
  intros He. split; ext_field.
  exists [e]. split; [done|]. by intros e' ->%list_elem_of_singleton.
Qed.

Lemma Ext_set_status_cur t st s : Ext (Some t) s (set_status t st s).
Proof.
  split; try (unfold set_status; by ext_field).
  - intros. by apply recs_set_status_lookup.
  - intros t' _ Hne. rewrite status_of_set_status_ne by congruence. apply stop_rel_refl.
  - intros Hids r' [i Hi]%list_elem_of_lookup. unfold set_status in Hi. simpl in *.
    rewrite list_lookup_alter in Hi. case_decide; simplify_eq.
    + destruct (recs s !! i) as [r|] eqn:Hr; simplify_eq/=.
      apply (Hids r). by eapply list_elem_of_lookup_2.
    + apply Hids. by eapply list_elem_of_lookup_2.
Qed.

Lemma Ext_set_status_stop cur t s :
  (status_of s t = Some Queued ∨ status_of s t = Some Running ∨
   status_of s t = Some Failed ∨ status_of s t = Some Stopped) →
  Ext cur s (set_status t Stopped s).
Proof.
  intros Hst. pose proof (Ext_set_status_cur t Stopped s) as H.
  split; try apply H.
  - destruct (ext_trace _ _ _ H) as (new & E & F). exists new. split; [done|].
    intros e Hin. unfold set_status in E. simpl in E.
    assert (new = []) as -> by (by eapply app_inv_tail with (l := trace s)).
    by apply elem_of_nil in Hin.
  - intros t' Ht' _. destruct (status_of_set_status s t t' Stopped) as [->|(-> & _ & ->)].
    + apply stop_rel_refl.
    + unfold stop_rel. destruct Hst as [E|[E|[E|E]]]; rewrite E; auto.
  - intros t' Ht' _ Hin. by unfold set_status, activities in *.
  - intros t' Ht' _ Hin _. by unfold set_status in *.
Qed.

Lemma Ext_alloc cur r s :
  (ids_issued s → ∃ n : Z, id r = String n ∧ (n < _nextId s ∨ 2 ^ 53 ≤ _nextId s)%Z) →
  Ext cur s (with_recs (recs s ++ [r]) s).
Proof.
  intros Hid. split; ext_field.
  - intros t r0 Hr. exists r0. split_and!; [|done..]. by apply lookup_app_l_Some.
  - intros t Ht _. rewrite lookup_app_l by done. apply stop_rel_refl.
  - intros Hids r0 [?| ->%list_elem_of_singleton]%elem_of_app; auto.
Qed.

Lemma js_incr_ge n : (n ≤ js_incr n)%Z.
Proof. unfold js_incr. case_match; lia. Qed.

Lemma Ext_incr_nextId cur s : Ext cur s (with_nextId (js_incr (_nextId s)) s).
Proof.
  pose proof (js_incr_ge (_nextId s)).
  split; ext_field.
  intros Hids r Hr. destruct (Hids r Hr) as (n & -> & Hn). exists n. split; [done|].
  unfold js_incr in *. case_match; lia.
Qed.

Lemma Ext_push_stored cur t s : Ext cur s (with_tasksInQueue (_tasksInQueue s ++ [t]) s).
Proof.
  split; ext_field. intros t' _ _ Hin _. apply elem_of_app. by left.
Qed.

Lemma Ext_cleanup cur s : Ext cur s (cleanupTasksInQueue s).
Proof.
  unfold cleanupTasksInQueue. split; ext_field.
  intros t _ _ Hin Hs. by apply list_elem_of_filter.
Qed.

Lemma executeTask_cases t s :
  executeTask t s = s ∨
  ∃ r, recs s !! t = Some r ∧ _executionHandlers s ≠ [] ∧
    executeTask t s =
      with_immediates
        (immediates s ++
           [{| i_task := t; i_handlers := _executionHandlers s;
               i_data := data (options r); i_key := key (options r) |}]) s.
Proof.
  unfold executeTask, getExecutionHandlers.
  destruct (_executionHandlers s) eqn:E; [by left|].
  destruct (recs s !! t) as [r|] eqn:Hr; [|by left].
  right. exists r. by split_and!.
Qed.

Lemma Ext_push_immediate t imm s :
  i_task imm = t → Ext (Some t) s (with_immediates (immediates s ++ [imm]) s).
Proof.
  intros <-. split; try by ext_field.
  intros t' _ Hne Hin. rewrite activities_push_immediate in Hin.
  apply elem_of_cons in Hin as [->|?]; [congruence|done].
Qed.

Lemma Ext_executeTask_cur t s : Ext (Some t) s (executeTask t s).
Proof.
  destruct (executeTask_cases t s) as [->|(r & _ & _ & ->)]; [apply Ext_refl|].
  by apply Ext_push_immediate.
Qed.

(** [executeTask] on a record that did not exist in [s0]. *)
Lemma Ext_executeTask_new cur t s0 s :
  length (recs s0) ≤ t → Ext cur s0 s → Ext cur s0 (executeTask t s).
Proof.
  intros Hlen H.
  destruct (executeTask_cases t s) as [->|(r & _ & _ & ->)]; [done|].
  split; try apply H.
  - intros t' Ht' Hc Hin. rewrite activities_push_immediate in Hin.
    apply elem_of_cons in Hin as [->|?]; [simpl in *; lia|].
    by apply (ext_act _ _ _ H).
Qed.

Lemma Ext_push_inflight a s :
  Ext (Some (a_task a)) s (with_inflight (inflight s ++ [a]) s).
Proof.
  split; try by ext_field.
  intros t' _ Hne Hin. rewrite activities_push_inflight in Hin.
  apply elem_of_cons in Hin as [->|?]; [congruence|done].
Qed.

Lemma Ext_pop_immediate cur imm rest s :
  immediates s = imm :: rest → Ext cur s (with_immediates rest s).
Proof.
  intros E. split; try by ext_field.
  intros t _ _ Hin. rewrite (activities_pop_immediate _ _ _ E). by right.
Qed.

Lemma Ext_remove_inflight cur i s :
  Ext cur s (with_inflight (delete i (inflight s)) s).
Proof.
  split; try by ext_field.
  intros t _ _ Hin. unfold activities in *. simpl in *.
  apply elem_of_app in Hin as [?|Hin]; apply elem_of_app; [by left|right].
  apply list_elem_of_fmap in Hin as (a & -> & Ha).
  apply list_elem_of_fmap_2. by eapply list_elem_of_delete_inv.
Qed.

(** *** The public methods *)

Lemma stopAll_fold_Ext cur l s :
  (∀ t, t ∈ l → status_of s t = Some Queued ∨ status_of s t = Some Running ∨
                 status_of s t = Some Failed ∨ status_of s t = Some Stopped) →
  Ext cur s (foldl (λ s' t, set_status t Stopped s') s l).
Proof.
  revert s. induction l as [|t l IH]; intros s Hl; simpl; [apply Ext_refl|].
  eapply Ext_trans.
  - apply Ext_set_status_stop, Hl. by left.
  - apply IH. intros t' Ht'.
    destruct (status_of_set_status s t t' Stopped) as [->|(_ & _ & ->)]; [|by auto].
    apply Hl. by right.
Qed.

Lemma Ext_stopAllEnqueuedTasks cur s : Ext cur s (stopAllEnqueuedTasks s).
Proof.
  unfold stopAllEnqueuedTasks. eapply Ext_trans.
  - by apply (Ext_log cur (EvStop (_tasksInQueue s))).
  - apply stopAll_fold_Ext. intros t Ht%list_elem_of_filter.
    unfold status_of in *. simpl. tauto.
Qed.

Lemma Ext_enqueueRemainingTasks cur s : Ext cur s (enqueueRemainingTasks s).2.
Proof.
  unfold enqueueRemainingTasks. simpl.
  generalize (filter (λ t, status_of s t = Some Queued) (_tasksInQueue s)).
  intros l. revert s. induction l as [|t l IH]; intros s; simpl; [apply Ext_refl|].
  eapply Ext_trans; [|apply IH].
  destruct (recs s !! t) as [r|] eqn:Hr; [|apply Ext_refl].
  apply Ext_executeTask_new; [done|]. apply Ext_alloc. simpl.
  intros Hids. apply Hids. by eapply list_elem_of_lookup_2.
Qed.

Lemma Ext_enqueueTask cur o s : Ext cur s (enqueueTask o s).2.
Proof.
  unfold enqueueTask. lazy zeta. cbn [snd]. apply Ext_executeTask_new; [simpl; lia|].
  eapply Ext_trans; [apply Ext_incr_nextId|].
  eapply Ext_trans; [|apply Ext_push_stored].
  apply Ext_alloc. simpl. intros _. exists (_nextId s). split; [done|].
  unfold js_incr. case_match; lia.
Qed.

Lemma Ext_on cur event handler s : Ext cur s (QueueStorageBase.on event handler s).2.
Proof.
  unfold QueueStorageBase.on. destruct handler; try apply Ext_refl.
  repeat case_decide; simpl; try apply Ext_refl; apply Ext_frame; simpl; try done;
    by apply prefix_app_r.
Qed.

Lemma storage_member_queueTask : storage_member "queueTask" = None.
Proof. reflexivity. Qed.

Lemma Ext_Queue_enqueue cur key o s : Ext cur s (Queue.enqueue key o s).2.
Proof.
  unfold Queue.enqueue. case_match; [apply Ext_refl|].
  rewrite storage_member_queueTask. destruct o; simpl; [apply Ext_refl|].
  apply Ext_frame; simpl; try done. rewrite length_app. lia.
Qed.

Lemma Ext_with_queue cur q s : Ext cur s (with_queue q s).
Proof. by apply Ext_frame. Qed.

Lemma Ext_with_objs cur x s : length (objs s) ≤ length x → Ext cur s (with_objs x s).
Proof. intros. by apply Ext_frame. Qed.

Lemma Ext_apply_effect cur e s : Ext cur s (apply_effect e s).
Proof.
  destruct e; simpl.
  - apply Ext_with_objs. rewrite length_app. lia.
  - apply Ext_with_objs. by rewrite length_alter.
  - apply Ext_with_objs. by rewrite length_alter.
  - apply Ext_on.
  - apply Ext_enqueueTask.
  - apply Ext_enqueueRemainingTasks.
  - apply Ext_stopAllEnqueuedTasks.
  - unfold Queue.on. case_decide; simpl; [apply Ext_with_queue|apply Ext_refl].
  - apply Ext_Queue_enqueue.
  - apply Ext_with_queue.
  - apply Ext_with_queue.
  - apply Ext_with_queue.
Qed.

Lemma Ext_apply_effects cur es s : Ext cur s (apply_effects es s).
Proof.
  unfold apply_effects. revert s. induction es as [|e es IH]; intros s; simpl.
  - apply Ext_refl.
  - eapply Ext_trans; [apply Ext_apply_effect|apply IH].
Qed.

Lemma Ext_call_user cur sc s : Ext cur s (call_user sc s).2.
Proof. destruct sc; simpl; [apply Ext_refl|apply Ext_apply_effects]. Qed.

Lemma execute_bridge_cases ctx k sc s :
  (∃ f, Queue.read_task (QueueObject._tasks (queue s)) k = Own (VFun f) ∧
        execute_bridge ctx k sc s = call_user sc (log (EvTaskCall f k ctx) s)) ∨
  (∃ o, execute_bridge ctx k sc s = (o, sc, s)).
Proof.
  unfold execute_bridge.
  destruct (Queue.read_task (QueueObject._tasks (queue s)) k) as [v|m|]; simpl.
  - destruct v; simpl; try (right; by eexists). left. by eexists.
  - right. destruct m; by eexists.
  - right. by eexists.
Qed.

Lemma Ext_execute_bridge cur ctx k sc s : Ext cur s (execute_bridge ctx k sc s).2.
Proof.
  destruct (execute_bridge_cases ctx k sc s) as [(f & _ & ->)|(o & ->)]; [|apply Ext_refl].
  eapply Ext_trans; [|apply Ext_call_user]. by apply Ext_log.
Qed.

Lemma Ext_error_bridge cur hs error sc s : Ext cur s (error_bridge hs error sc s).2.
Proof.
  revert sc s. induction hs as [|h hs IH]; intros sc s; simpl; [apply Ext_refl|].
  assert (∀ e sc' s', Ext cur s s' →
            Ext cur s (error_bridge hs error sc'
              (log (EvConsoleError "Queue.init(storage.on(error))" e) s')).2) as Hlog.
  { intros e sc' s' H. eapply Ext_trans; [|apply IH].
    eapply Ext_trans; [done|]. by apply Ext_log. }
  assert (Ext cur s (log (EvQueueErrorCall h error) s)) as H0 by (by apply Ext_log).
  destruct h; try (by apply Hlog).
  destruct (call_user sc (log (EvQueueErrorCall (VFun f) error) s)) as [[o sc1] s1] eqn:E.
  assert (Ext cur s s1) as H1.
  { eapply Ext_trans; [done|].
    pose proof (Ext_call_user cur sc (log (EvQueueErrorCall (VFun f) error) s)) as H.
    by rewrite E in H. }
  destruct o as [e|[|e|]]; try (by apply Hlog);
    (eapply Ext_trans; [done|apply IH]).
Qed.

Lemma Ext_call_executionHandler c h t ctx k sc s :
  Ext (Some c) s (call_executionHandler h t ctx k sc s).2.
Proof.
  unfold call_executionHandler. set (cur := Some c).
  eapply Ext_trans; [by apply (Ext_log cur (EvExecuteCall h t ctx))|].
  destruct h; [apply Ext_call_user|apply Ext_execute_bridge].
Qed.

Lemma Ext_map_executionHandlers c hs t ctx k sc s :
  Ext (Some c) s (map_executionHandlers hs t ctx k sc s).2.
Proof.
  revert sc s. induction hs as [|h hs IH]; intros sc s; simpl; [apply Ext_refl|].
  pose proof (Ext_call_executionHandler c h t ctx k sc s) as H.
  destruct (call_executionHandler h t ctx k sc s) as [[o sc1] s1].
  destruct o as [e|f]; [done|].
  specialize (IH sc1 s1).
  destruct (map_executionHandlers hs t ctx k sc1 s1) as [[r sc2] s2].
  by eapply Ext_trans.
Qed.

Lemma Ext_call_errorHandler c h error sc s :
  Ext (Some c) s (call_errorHandler h error sc s).2.
Proof.
  unfold call_errorHandler. set (cur := Some c).
  assert (Ext cur s (log (EvErrorCall h error) s)) as H0 by (by apply Ext_log).
  destruct h.
  - pose proof (Ext_call_user cur sc (log (EvErrorCall (UserErrorHandler f) error) s)) as H.
    destruct (call_user sc (log (EvErrorCall (UserErrorHandler f) error) s)) as [[o sc1] s1].
    destruct o; simpl in *.
    + eapply Ext_trans; [done|]. eapply Ext_trans; [done|]. by apply Ext_log.
    + by eapply Ext_trans.
  - eapply Ext_trans; [done|]. apply Ext_error_bridge.
Qed.

Lemma Ext_forEach_errorHandlers c hs error sc s :
  Ext (Some c) s (forEach_errorHandlers hs error sc s).2.
Proof.
  revert sc s. induction hs as [|h hs IH]; intros sc s; simpl; [apply Ext_refl|].
  pose proof (Ext_call_errorHandler c h error sc s) as H.
  destruct (call_errorHandler h error sc s) as [sc1 s1].
  eapply Ext_trans; [done|apply IH].
Qed.

Lemma Ext_handleError t error sc s : Ext (Some t) s (handleError t error sc s).2.
Proof.
  unfold handleError.
  pose proof (Ext_forEach_errorHandlers t
                (getErrorHandlers (set_status t Failed s)) error sc (set_status t Failed s)) as H.
  destruct (forEach_errorHandlers _ error sc (set_status t Failed s)) as [sc1 s2].
  assert (Ext (Some t) s s2) as H2.
  { eapply Ext_trans; [apply Ext_set_status_cur|done]. }
  case_match; simpl; [|done].
  eapply Ext_trans; [done|apply Ext_executeTask_cur].
Qed.

Lemma Ext_setImmediate_callback imm sc s :
  Ext (Some (i_task imm)) s (setImmediate_callback imm sc s).2.
Proof.
  unfold setImmediate_callback. case_match; [apply Ext_refl|].
  match goal with |- context [map_executionHandlers ?hs ?t ?c ?k ?sc ?s4] =>
    pose proof (Ext_map_executionHandlers (i_task imm) hs t c k sc s4) as Hmap;
    assert (Ext (Some (i_task imm)) s s4) as H4;
    [|destruct (map_executionHandlers hs t c k sc s4) as [[r sc1] s5]] end.
  { eapply Ext_trans; [|by apply Ext_log].
    eapply Ext_trans; [|apply Ext_set_status_cur].
    eapply Ext_trans; [|apply Ext_with_objs; rewrite length_app; lia].
    apply Ext_set_status_cur. }
  simpl in Hmap. assert (Ext (Some (i_task imm)) s s5) as H5 by (by eapply Ext_trans).
  destruct r as [fates|error].
  - eapply Ext_trans; [done|].
    apply (Ext_push_inflight {| a_task := i_task imm; a_results := fates |}).
  - eapply Ext_trans; [done|apply Ext_handleError].
Qed.

Lemma Ext_then_callback t s : Ext (Some t) s (then_callback t s).
Proof.
  unfold then_callback. eapply Ext_trans; [apply Ext_set_status_cur|apply Ext_cleanup].
Qed.

Lemma Ext_step l s s' : step l s = Some s' → Ext (step_task l s) s s'.
Proof.
  destruct l as [es|sc|i how sc]; simpl.
  - intros [= <-]. apply Ext_apply_effects.
  - destruct (immediates s) as [|imm rest] eqn:E; [done|]. intros [= <-]. simpl.
    eapply Ext_trans; [by eapply Ext_pop_immediate|].
    apply Ext_setImmediate_callback.
  - unfold settle. destruct (inflight s !! i) as [a|] eqn:E; [|done]. simpl.
    assert (Ext (Some (a_task a)) s (with_inflight (delete i (inflight s)) s)) as H0
      by apply Ext_remove_inflight.
    destruct how as [|j].
    + case_decide; [|done]. intros [= <-]. simpl.
      eapply Ext_trans; [done|apply Ext_then_callback].
    + destruct (a_results a !! j) as [[|error|]|]; try done. intros [= <-].
      eapply Ext_trans; [done|apply Ext_handleError].
Qed.

Lemma Inv_WF cur s : Inv cur s → WF s.
Proof. by intros [? _]. Qed.

Lemma Inv_None cur s : Inv cur s → Inv None s.
Proof. by intros [? _]. Qed.

Lemma stopped_in_cons e tr t :
  stopped_in (e :: tr) t ↔ (∃ ts, e = EvStop ts ∧ t ∈ ts) ∨ stopped_in tr t.
Proof.
  unfold stopped_in. split.
  - intros (ts & [<-|Hin]%elem_of_cons & Ht); [left|right]; eauto.
  - intros [(ts & -> & Ht)|(ts & Hin & Ht)]; exists ts; split; try done;
      [by left|by right].
Qed.

Lemma stopped_in_valid s t : WF s → stopped_in (trace s) t → t < length (recs s).
Proof.
  intros Hwf [H|[_ [H|H]]]%(wf_stopped _ Hwf); by eapply status_of_lt.
Qed.

Lemma no_execute_after_stop_cons e tr :
  no_execute_after_stop tr →
  (∀ t ctx k, e = EvExecute t ctx k → ¬ stopped_in tr t) →
  no_execute_after_stop (e :: tr).
Proof.
  intros Htr He tr2 ts tr1 t ctx k E Ht Hin.
  destruct tr2 as [|e' tr2]; simpl in E; [by apply elem_of_nil in Hin|].
  injection E as -> ->.
  apply elem_of_cons in Hin as [<-|Hin].
  - eapply He; [done|]. exists ts. split; [|done].
    apply elem_of_app. right. by left.
  - by eapply Htr.
Qed.

(** *** The invariant and the primitive state changes *)

Lemma Inv_frame cur s s' :
  recs s' = recs s → _tasksInQueue s' = _tasksInQueue s →
  immediates s' = immediates s → inflight s' = inflight s → trace s' = trace s →
  Inv cur s → Inv cur s'.
Proof.
  intros Hr Hq Hi Hf Ht [Hwf Hc]. split.
  - destruct Hwf. split; unfold halted, status_of, activities in *;
      rewrite ?Hr, ?Hq, ?Hi, ?Hf, ?Ht; done.
  - destruct cur; [|done]. unfold Cur, status_of, activities in *.
    by rewrite Hr, Hi, Hf, Ht.
Qed.

Lemma stopped_in_log_quiet e tr t : quiet_event e → stopped_in (e :: tr) t ↔ stopped_in tr t.
Proof.
  intros He. rewrite stopped_in_cons. split; [|by right].
  intros [(ts & -> & _)|?]; done.
Qed.

Lemma stopped_in_log_execute t' ctx k tr t :
  stopped_in (EvExecute t' ctx k :: tr) t ↔ stopped_in tr t.
Proof.
  rewrite stopped_in_cons. split; [|by right]. intros [(ts & ? & _)|?]; done.
Qed.

Lemma Inv_log_same cur e s :
  (∀ t, stopped_in (e :: trace s) t ↔ stopped_in (trace s) t) →
  no_execute_after_stop (e :: trace s) →
  Inv cur s → Inv cur (log e s).
Proof.
  intros Hst Htr [Hwf Hc]. split.
  - destruct Hwf. split; try done; simpl; intros t; rewrite ?Hst; intros;
      first [by apply wf_stopped0|by apply wf_stopped_src0].
  - destruct cur as [c|]; [|done]. destruct Hc as (? & ? & ? & Hc).
    split_and!; try done. simpl. by rewrite Hst.
Qed.

Lemma Inv_log cur e s : quiet_event e → Inv cur s → Inv cur (log e s).
Proof.
  intros He H. apply Inv_log_same; [|by apply no_execute_after_stop_cons;
    [apply (Inv_WF _ _ H)|intros ? ? ? ->]|done].
  intros t. by apply stopped_in_log_quiet.
Qed.

Lemma Inv_log_execute cur t ctx k s :
  ¬ stopped_in (trace s) t → Inv cur s → Inv cur (log (EvExecute t ctx k) s).
Proof.
  intros Hn H. apply Inv_log_same; [|by apply no_execute_after_stop_cons;
    [apply (Inv_WF _ _ H)|intros ? ? ? [= <- _ _]]|done].
  intros t'. apply stopped_in_log_execute.
Qed.

Lemma activities_set_status t st s : activities (set_status t st s) = activities s.
Proof. done. Qed.

Lemma Inv_set_status_live cur t st s :
  ¬ stopped_in (trace s) t → st ≠ Succeded → st ≠ Stopped →
  Inv cur s → Inv cur (set_status t st s).
Proof.
  intros Hn Hs1 Hs2 [Hwf Hc].
  assert (∀ t', status_of (set_status t st s) t' = status_of s t' ∨
                (t' = t ∧ status_of (set_status t st s) t' = Some st)) as Hst.
  { intros t'. destruct (status_of_set_status s t t' st) as [?|(? & _ & ?)]; auto. }
  split.
  - destruct Hwf. split; rewrite ?activities_set_status, ?length_recs_set_status; try done.
    + intros t' Hin. destruct (wf_stored0 _ Hin) as [? ?]. split; [done|].
      destruct (Hst t') as [->|[_ ->]]; congruence.
    + intros t' Hin. unfold halted. rewrite activities_set_status.
      destruct (Hst t') as [->|[-> _]]; [by apply wf_stopped0|done].
    + intros t'. destruct (Hst t') as [->|[_ ->]]; [by apply wf_stopped_src0|congruence].
    + intros t'. destruct (Hst t') as [->|[_ ->]]; [by apply wf_succeeded0|congruence].
  - destruct cur as [c|]; [|done]. destruct Hc as (? & ? & ? & Hc).
    split_and!; rewrite ?length_recs_set_status; try done.
    + destruct (Hst c) as [->|[_ ->]]; congruence.
    + destruct (Hst c) as [->|[-> _]]; done.
Qed.

Lemma WF_set_status_failed t s :
  t ∉ activities s → WF s → WF (set_status t Failed s).
Proof.
  intros Hn Hwf.
  assert (∀ t', status_of (set_status t Failed s) t' = status_of s t' ∨
                (t' = t ∧ status_of (set_status t Failed s) t' = Some Failed)) as Hst.
  { intros t'. destruct (status_of_set_status s t t' Failed) as [?|(? & _ & ?)]; auto. }
  destruct Hwf. split; rewrite ?activities_set_status, ?length_recs_set_status; try done.
  - intros t' Hin. destruct (wf_stored0 _ Hin) as [? ?]. split; [done|].
    destruct (Hst t') as [->|[_ ->]]; congruence.
  - intros t' Hin. unfold halted. rewrite activities_set_status.
    destruct (Hst t') as [->|[-> ->]]; [by apply wf_stopped0|]. right. auto.
  - intros t'. destruct (Hst t') as [->|[_ ->]]; [by apply wf_stopped_src0|congruence].
  - intros t'. destruct (Hst t') as [->|[_ ->]]; [by apply wf_succeeded0|congruence].
Qed.

Lemma WF_then_callback t s :
  t ∉ activities s → WF s → WF (then_callback t s).
Proof.
  intros Hn Hwf. unfold then_callback, cleanupTasksInQueue.
  set (s1 := set_status t Succeded s).
  assert (∀ t', status_of s1 t' = status_of s t' ∨
                (t' = t ∧ status_of s1 t' = Some Succeded)) as Hst.
  { intros t'. destruct (status_of_set_status s t t' Succeded) as [?|(? & _ & ?)]; auto. }
  destruct Hwf. split; simpl; rewrite ?length_alter; try done.
  - intros t' [Hs Hin]%list_elem_of_filter. split; [by apply wf_stored0|done].
  - intros t' Hin. unfold halted. change (activities _) with (activities s).
    change (status_of _ t') with (status_of s1 t').
    destruct (Hst t') as [->|[-> ->]]; [by apply wf_stopped0|]. right. auto.
  - intros t'. change (status_of _ t') with (status_of s1 t').
    destruct (Hst t') as [->|[_ ->]]; [by apply wf_stopped_src0|congruence].
  - intros t'. change (status_of _ t') with (status_of s1 t').
    change (activities _) with (activities s).
    destruct (Hst t') as [->|[-> _]]; [by apply wf_succeeded0|done].
Qed.

Lemma status_of_alloc s r t :
  status_of (with_recs (recs s ++ [r]) s) t =
    if decide (t = length (recs s)) then Some (status r) else status_of s t.
Proof.
  case_decide as E.
  - subst. apply status_of_alloc_new.
  - destruct (decide (t < length (recs s))); [by apply status_of_alloc_old|].
    unfold status_of. simpl. rewrite !lookup_ge_None_2; [done|lia|].
    rewrite length_app. simpl. lia.
Qed.

Lemma Inv_alloc cur r s :
  status r ≠ Stopped → Inv cur s → Inv cur (with_recs (recs s ++ [r]) s).
Proof.
  intros Hr [Hwf Hc]. pose proof (λ t, stopped_in_valid s t Hwf) as Hv.
  split.
  - destruct Hwf. split; simpl; rewrite ?length_app; simpl; try done.
    + intros t Hin. specialize (wf_act_valid0 _ Hin). lia.
    + intros t Hin. destruct (wf_stored0 _ Hin). split; [lia|].
      by rewrite status_of_alloc_old.
    + intros t Hin. specialize (wf_stopped0 _ Hin).
      unfold halted in *. change (activities _) with (activities s).
      rewrite status_of_alloc_old; [done|]. by apply Hv.
    + intros t. rewrite status_of_alloc. case_decide; [congruence|].
      apply wf_stopped_src0.
    + intros t. rewrite status_of_alloc. change (activities _) with (activities s).
      case_decide; [|apply wf_succeeded0].
      intros _ Hin%wf_act_valid0. lia.
  - destruct cur as [c|]; [|done]. destruct Hc as (? & ? & ? & Hc).
    split_and!; simpl; rewrite ?length_app; simpl; try done; try lia.
    + by rewrite status_of_alloc_old.
    + rewrite status_of_alloc_old; done.
Qed.

Lemma Inv_push_stored cur t s :
  t < length (recs s) → status_of s t ≠ Some Succeded →
  Inv cur s → Inv cur (with_tasksInQueue (_tasksInQueue s ++ [t]) s).
Proof.
  intros Ht Hs [Hwf Hc]. split; [|by destruct cur].
  destruct Hwf. split; try done. simpl.
  intros t' [?| ->%list_elem_of_singleton]%elem_of_app; [by apply wf_stored0|done].
Qed.

(** A callback or attempt is added for the running record. *)
Lemma WF_add_activity t s s' :
  recs s' = recs s → _tasksInQueue s' = _tasksInQueue s → trace s' = trace s →
  activities s' ≡ₚ t :: activities s →
  WF s → Cur t s → WF s'.
Proof.
  intros Hr Hq Ht Ha Hwf (Hv & Hn & Hs & Hst). destruct Hwf.
  split; unfold halted, status_of in *; rewrite ?Hr, ?Hq, ?Ht; try done.
  - intros t'. rewrite Ha. intros [->|?]%elem_of_cons; auto.
  - rewrite Ha. by apply NoDup_cons.
  - intros t' Hin. rewrite Ha.
    destruct (wf_stopped0 _ Hin) as [?|[Hn' Hs']]; [by left|].
    destruct (decide (t' = t)) as [->|Hne].
    + left. by apply Hst.
    + right. split; [|done]. by apply not_elem_of_cons.
  - intros t' Hs'. rewrite Ha. apply not_elem_of_cons.
    split; [congruence|]. by apply wf_succeeded0.
Qed.

Lemma Cur_add_activity c t s s' :
  recs s' = recs s → trace s' = trace s →
  activities s' ≡ₚ t :: activities s → c ≠ t →
  Cur c s → Cur c s'.
Proof.
  intros Hr Ht Ha Hne (Hv & Hn & Hs & Hst).
  unfold Cur, status_of in *. rewrite Hr, Ht, Ha. split_and!; try done.
  by apply not_elem_of_cons.
Qed.

(** The callback or attempt of a record is taken off; the record becomes the
    running one. *)
Lemma Inv_remove_activity t s s' :
  recs s' = recs s → _tasksInQueue s' = _tasksInQueue s → trace s' = trace s →
  activities s ≡ₚ t :: activities s' →
  WF s → Inv (Some t) s'.
Proof.
  intros Hr Hq Ht Ha Hwf. destruct Hwf.
  rewrite Ha in wf_act_nodup0. apply NoDup_cons in wf_act_nodup0 as [Hn Hnd].
  assert (t ∈ activities s) as Hin by (rewrite Ha; by left).
  assert (∀ t', t' ∈ activities s' → t' ∈ activities s) as Hsub
    by (intros t' ?; rewrite Ha; by right).
  split.
  - split; unfold halted, status_of in *; rewrite ?Hr, ?Hq, ?Ht; auto.
    + intros t' Hst. destruct (wf_stopped0 _ Hst) as [?|[? ?]]; [by left|].
      right. split; [|done]. intros ?. auto.
    + intros t' Hs Hin'. by eapply wf_succeeded0, Hsub.
  - unfold Cur, status_of. rewrite Hr, Ht. split_and!; auto.
    + intros Hs. by eapply wf_succeeded0.
    + intros Hst. destruct (wf_stopped0 _ Hst) as [?|[? ?]]; done.
Qed.

Lemma Inv_executeTask_cur t s : Inv (Some t) s → Inv None (executeTask t s).
Proof.
  intros [Hwf Hc].
  destruct (executeTask_cases t s) as [->|(r & _ & _ & ->)]; [done|].
  split; [|done].
  apply (WF_add_activity t s); [done..|apply activities_push_immediate|done|done].
Qed.

Lemma Inv_executeTask_other cur t s :
  Cur t s → cur ≠ Some t → Inv cur s → Inv cur (executeTask t s).
Proof.
  intros Ht Hne [Hwf Hc].
  destruct (executeTask_cases t s) as [->|(r & _ & _ & ->)]; [done|].
  split.
  - apply (WF_add_activity t s); [done..|apply activities_push_immediate|done|done].
  - destruct cur as [c|]; [|done].
    apply (Cur_add_activity c t s); [done..|apply activities_push_immediate| |done].
    congruence.
Qed.

Lemma Inv_push_inflight a s :
  Inv (Some (a_task a)) s → Inv None (with_inflight (inflight s ++ [a]) s).
Proof.
  intros [Hwf Hc]. split; [|done].
  apply (WF_add_activity (a_task a) s); [done..|apply activities_push_inflight|done|done].
Qed.

(** *** stopAllEnqueuedTasks *)

Lemma fold_stop_spec l s :
  let s' := foldl (λ s' t, set_status t Stopped s') s l in
  _tasksInQueue s' = _tasksInQueue s ∧ immediates s' = immediates s ∧
  inflight s' = inflight s ∧ trace s' = trace s ∧
  length (recs s') = length (recs s) ∧
  ∀ t, status_of s' t =
         if decide (t ∈ l ∧ t < length (recs s)) then Some Stopped else status_of s t.
Proof.
  revert s. induction l as [|t0 l IH]; intros s; simpl.
  - done.
  - destruct (IH (set_status t0 Stopped s)) as (-> & -> & -> & -> & -> & Hst).
    rewrite length_recs_set_status. split_and!; try done.
    intros t. rewrite Hst. rewrite length_recs_set_status.
    destruct (decide (t = t0)) as [->|Hne].
    + destruct (decide (t0 < length (recs s))) as [Hlt|Hge].
      * rewrite status_of_set_status_eq by done.
        rewrite (decide_True (P := t0 ∈ t0 :: l ∧ _)); [by case_decide|].
        split; [by left|done].
      * rewrite !decide_False; [|lia..].
        destruct (status_of_set_status s t0 t0 Stopped) as [?|(_ & ? & _)]; [done|lia].
    + rewrite status_of_set_status_ne by done.
      apply decide_ext. rewrite elem_of_cons. intuition congruence.
Qed.

Lemma stopAll_spec s :
  let s' := stopAllEnqueuedTasks s in
  _tasksInQueue s' = _tasksInQueue s ∧ immediates s' = immediates s ∧
  inflight s' = inflight s ∧ trace s' = EvStop (_tasksInQueue s) :: trace s ∧
  length (recs s') = length (recs s) ∧
  ∀ t, status_of s' t =
         if decide (t ∈ _tasksInQueue s ∧ stoppable s t) then Some Stopped
         else status_of s t.
Proof.
  unfold stopAllEnqueuedTasks.
  match goal with |- context [foldl _ ?s0 ?l] =>
    destruct (fold_stop_spec l s0) as (-> & -> & -> & -> & -> & Hst) end.
  split_and!; try done. intros t. rewrite Hst. simpl.
  apply decide_ext. rewrite list_elem_of_filter. unfold stoppable, status_of. simpl.
  split.
  - intros [[? ?] ?]. done.
  - intros [? H]. split_and!; try done.
    destruct H as [H|[H|H]]; by eapply status_of_lt.
Qed.

Lemma status_of_stopAll_cases s t :
  (status_of (stopAllEnqueuedTasks s) t = Some Stopped ∧ t ∈ _tasksInQueue s ∧ stoppable s t) ∨
  (status_of (stopAllEnqueuedTasks s) t = status_of s t ∧
   ¬ (t ∈ _tasksInQueue s ∧ stoppable s t)).
Proof.
  destruct (stopAll_spec s) as (_ & _ & _ & _ & _ & Hst). rewrite Hst.
  case_decide as H; [left|right]; tauto.
Qed.

Lemma activities_stopAll s : activities (stopAllEnqueuedTasks s) = activities s.
Proof.
  destruct (stopAll_spec s) as (_ & Hi & Hf & _). unfold activities. by rewrite Hi, Hf.
Qed.

Lemma status_cases s t :
  t < length (recs s) →
  stoppable s t ∨ status_of s t = Some Succeded ∨ status_of s t = Some Stopped.
Proof.
  intros [st Hst]%status_of_is_Some. unfold stoppable. rewrite Hst.
  destruct st; auto.
Qed.

Lemma Inv_stopAllEnqueuedTasks cur s : Inv cur s → Inv cur (stopAllEnqueuedTasks s).
Proof.
  intros [Hwf Hc].
  destruct (stopAll_spec s) as (Hq & Hi & Hf & Ht & Hl & _).
  pose proof (status_of_stopAll_cases s) as Hst.
  pose proof (activities_stopAll s) as Ha.
  assert (∀ t, t ∈ _tasksInQueue s →
            status_of (stopAllEnqueuedTasks s) t = Some Stopped) as Hnew.
  { intros t Hin. destruct (wf_stored _ Hwf _ Hin) as [Hv Hs].
    destruct (Hst t) as [[? _]|[-> Hn]]; [done|].
    destruct (status_cases s t Hv) as [?|[?|?]]; tauto. }
  assert (∀ t, stopped_in (trace (stopAllEnqueuedTasks s)) t →
            t ∈ _tasksInQueue s ∨ stopped_in (trace s) t) as Hold.
  { intros t. rewrite Ht, stopped_in_cons. intros [(ts & [= <-] & ?)|?]; auto. }
  split.
  - destruct Hwf. split; rewrite ?Ha, ?Hl, ?Hq; try done.
    + intros t Hin. split; [by apply wf_stored0|]. by rewrite Hnew.
    + intros t [Hin|Hin]%Hold; [left; by apply Hnew|].
      unfold halted. rewrite Ha.
      destruct (Hst t) as [[? _]|[-> _]]; [by left|by apply wf_stopped0].
    + intros t Hs. rewrite Ht, stopped_in_cons.
      destruct (Hst t) as [(_ & ? & _)|[E _]]; [left; eauto|].
      right. apply wf_stopped_src0. congruence.
    + intros t Hs. apply wf_succeeded0.
      destruct (Hst t) as [[? _]|[<- _]]; congruence.
    + rewrite Ht. by apply no_execute_after_stop_cons.
  - destruct cur as [c|]; [|done]. destruct Hc as (Hv & Hn & Hs & Hstop).
    unfold Cur. rewrite Ha, Hl. split_and!; try done.
    + destruct (Hst c) as [[? _]|[-> _]]; congruence.
    + intros [Hin|Hin]%Hold; [by apply Hnew|].
      destruct (Hst c) as [[? _]|[-> _]]; auto.
Qed.

(** *** The invariant through the public methods and the loop *)

Lemma Cur_fresh cur r s :
  status r = Queued → Inv cur s →
  Cur (length (recs s)) (with_recs (recs s ++ [r]) s) ∧ cur ≠ Some (length (recs s)).
Proof.
  intros Hr [Hwf Hc]. split.
  - unfold Cur. simpl. rewrite length_app, status_of_alloc_new, Hr. simpl.
    split_and!; [lia| |done|].
    + intros Hin%(wf_act_valid _ Hwf). lia.
    + intros Hin%(stopped_in_valid _ _ Hwf). lia.
  - destruct cur as [c|]; [|done]. destruct Hc as [? _]. intros [= ->]. lia.
Qed.

Lemma recs_executeTask t s : recs (executeTask t s) = recs s.
Proof. by destruct (executeTask_cases t s) as [->|(r & _ & _ & ->)]. Qed.

Lemma status_of_executeTask t s t' : status_of (executeTask t s) t' = status_of s t'.
Proof. unfold status_of. by rewrite recs_executeTask. Qed.

Lemma Inv_enqueueRemainingTasks cur s : Inv cur s → Inv cur (enqueueRemainingTasks s).2.
Proof.
  unfold enqueueRemainingTasks. simpl. intros H.
  assert (∀ t, t ∈ filter (λ t, status_of s t = Some Queued) (_tasksInQueue s) →
            status_of s t = Some Queued) as Hl
    by (by intros t [? _]%list_elem_of_filter).
  revert Hl. generalize (filter (λ t, status_of s t = Some Queued) (_tasksInQueue s)).
  intros l. revert s H. induction l as [|t l IH]; intros s H Hl; simpl; [done|].
  assert (status_of s t = Some Queued) as Ht by (apply Hl; by left).
  unfold status_of in Ht. destruct (recs s !! t) as [r|] eqn:Hr; [|done].
  simpl in Ht. injection Ht as Ht.
  set (copy := {| id := id r; options := options r; status := status r |}).
  destruct (Cur_fresh cur copy s Ht H) as [Hc Hne].
  apply IH.
  - apply Inv_executeTask_other; [done..|]. apply Inv_alloc; [|done].
    simpl. congruence.
  - intros t' Ht'. rewrite status_of_executeTask.
    rewrite status_of_alloc_old; [apply Hl; by right|].
    eapply status_of_lt, Hl. by right.
Qed.

Lemma Inv_enqueueTask cur o s : Inv cur s → Inv cur (enqueueTask o s).2.
Proof.
  unfold enqueueTask. lazy zeta. cbn [snd]. intros H.
  set (r := {| id := String (_nextId s); options := o; status := Queued |}).
  assert (Inv cur (with_nextId (js_incr (_nextId s)) s)) as H1
    by (by eapply Inv_frame; [..|done]).
  destruct (Cur_fresh cur r _ eq_refl H1) as [Hc Hne]. simpl in Hc, Hne.
  apply Inv_executeTask_other.
  - destruct Hc as (? & ? & ? & ?). by split_and!.
  - done.
  - apply Inv_push_stored; [simpl; rewrite length_app; simpl; lia| |].
    + by rewrite (status_of_alloc_new (with_nextId (js_incr (_nextId s)) s) r).
    + by apply Inv_alloc.
Qed.

Lemma Inv_apply_effect cur e s : Inv cur s → Inv cur (apply_effect e s).
Proof.
  intros H. destruct e; simpl;
    try (by eapply Inv_frame; [..|done]).
  - unfold QueueStorageBase.on. destruct handler; try done.
    repeat case_decide; simpl; try done; by eapply Inv_frame; [..|done].
  - by apply Inv_enqueueTask.
  - by apply Inv_enqueueRemainingTasks.
  - by apply Inv_stopAllEnqueuedTasks.
  - unfold Queue.on. case_decide; simpl; [|done]. by eapply Inv_frame; [..|done].
  - unfold Queue.enqueue. case_match; [done|].
    rewrite storage_member_queueTask. destruct options0; simpl; [done|].
    by eapply Inv_frame; [..|done].
Qed.

Lemma Inv_apply_effects cur es s : Inv cur s → Inv cur (apply_effects es s).
Proof.
  unfold apply_effects. revert s. induction es as [|e es IH]; intros s H; simpl; [done|].
  by apply IH, Inv_apply_effect.
Qed.

Lemma Inv_call_user cur sc s : Inv cur s → Inv cur (call_user sc s).2.
Proof. destruct sc; simpl; [done|apply Inv_apply_effects]. Qed.

Lemma Inv_execute_bridge cur ctx k sc s : Inv cur s → Inv cur (execute_bridge ctx k sc s).2.
Proof.
  intros H. destruct (execute_bridge_cases ctx k sc s) as [(f & _ & ->)|(o & ->)]; [|done].
  by apply Inv_call_user, Inv_log.
Qed.

Lemma Inv_error_bridge cur hs error sc s : Inv cur s → Inv cur (error_bridge hs error sc s).2.
Proof.
  revert sc s. induction hs as [|h hs IH]; intros sc s H; simpl; [done|].
  assert (Inv cur (log (EvQueueErrorCall h error) s)) as H0 by (by apply Inv_log).
  destruct h; try (by apply IH, Inv_log).
  pose proof (Inv_call_user cur sc _ H0) as H1.
  destruct (call_user sc (log (EvQueueErrorCall (VFun f) error) s)) as [[o sc1] s1].
  simpl in H1. destruct o as [e|[|e|]]; apply IH; try done; by apply Inv_log.
Qed.

Lemma Inv_call_executionHandler cur h t ctx k sc s :
  Inv cur s → Inv cur (call_executionHandler h t ctx k sc s).2.
Proof.
  intros H. unfold call_executionHandler.
  assert (Inv cur (log (EvExecuteCall h t ctx) s)) as H0 by (by apply Inv_log).
  destruct h; [by apply Inv_call_user|by apply Inv_execute_bridge].
Qed.

Lemma Inv_map_executionHandlers cur hs t ctx k sc s :
  Inv cur s → Inv cur (map_executionHandlers hs t ctx k sc s).2.
Proof.
  revert sc s. induction hs as [|h hs IH]; intros sc s H; simpl; [done|].
  pose proof (Inv_call_executionHandler cur h t ctx k sc s H) as H1.
  destruct (call_executionHandler h t ctx k sc s) as [[o sc1] s1].
  destruct o as [e|f]; [done|].
  specialize (IH sc1 s1 H1).
  by destruct (map_executionHandlers hs t ctx k sc1 s1) as [[r sc2] s2].
Qed.

Lemma Inv_call_errorHandler cur h error sc s :
  Inv cur s → Inv cur (call_errorHandler h error sc s).2.
Proof.
  intros H. unfold call_errorHandler.
  assert (Inv cur (log (EvErrorCall h error) s)) as H0 by (by apply Inv_log).
  destruct h.
  - pose proof (Inv_call_user cur sc _ H0) as H1.
    destruct (call_user sc (log (EvErrorCall (UserErrorHandler f) error) s)) as [[o sc1] s1].
    destruct o; simpl in *; [by apply Inv_log|done].
  - by apply Inv_error_bridge.
Qed.

Lemma Inv_forEach_errorHandlers cur hs error sc s :
  Inv cur s → Inv cur (forEach_errorHandlers hs error sc s).2.
Proof.
  revert sc s. induction hs as [|h hs IH]; intros sc s H; simpl; [done|].
  pose proof (Inv_call_errorHandler cur h error sc s H) as H1.
  destruct (call_errorHandler h error sc s) as [sc1 s1]. by apply IH.
Qed.

Lemma isStopped_true t s : isStopped t s = true ↔ status_of s t = Some Stopped.
Proof. unfold isStopped. apply bool_decide_eq_true. Qed.

Lemma isStopped_false t s : isStopped t s = false ↔ status_of s t ≠ Some Stopped.
Proof. unfold isStopped. apply bool_decide_eq_false. Qed.

Lemma WF_handleError t error sc s : Inv (Some t) s → WF (handleError t error sc s).2.
Proof.
  intros H. unfold handleError.
  destruct (isStopped t s) eqn:Hst; simpl.
  - assert (Inv None (set_status t Failed s)) as H1.
    { split; [|done]. destruct H as [Hwf (_ & Hn & _)]. by apply WF_set_status_failed. }
    pose proof (Inv_forEach_errorHandlers None
                  (getErrorHandlers (set_status t Failed s)) error sc _ H1) as H2.
    destruct (forEach_errorHandlers _ error sc (set_status t Failed s)) as [sc1 s2].
    by apply Inv_WF in H2.
  - apply isStopped_false in Hst.
    assert (Inv (Some t) (set_status t Failed s)) as H1.
    { apply Inv_set_status_live; try done. destruct H as [_ (_ & _ & _ & Hs)]. auto. }
    pose proof (Inv_forEach_errorHandlers (Some t)
                  (getErrorHandlers (set_status t Failed s)) error sc _ H1) as H2.
    destruct (forEach_errorHandlers _ error sc (set_status t Failed s)) as [sc1 s2].
    simpl in *. by apply Inv_executeTask_cur in H2 as [? _].
Qed.

Lemma WF_setImmediate_callback imm sc s :
  Inv (Some (i_task imm)) s → WF (setImmediate_callback imm sc s).2.
Proof.
  intros H. unfold setImmediate_callback.
  destruct (isStopped (i_task imm) s) eqn:Hst; simpl; [by destruct H|].
  apply isStopped_false in Hst.
  assert (¬ stopped_in (trace s) (i_task imm)) as Hn.
  { destruct H as [_ (_ & _ & _ & Hs)]. auto. }
  match goal with |- context [map_executionHandlers ?hs ?t ?c ?k ?sc ?s4] =>
    assert (Inv (Some (i_task imm)) s4) as H4;
    [|pose proof (Inv_map_executionHandlers _ hs t c k sc s4 H4) as Hmap;
      destruct (map_executionHandlers hs t c k sc s4) as [[r sc1] s5]] end.
  { apply Inv_log_execute; [done|]. apply Inv_set_status_live; try done.
    apply (Inv_frame _ (set_status (i_task imm) Queued s)); try done.
    by apply Inv_set_status_live. }
  simpl in Hmap. destruct r as [fates|error].
  - by apply (Inv_push_inflight {| a_task := i_task imm; a_results := fates |}) in Hmap as [? _].
  - by apply WF_handleError.
Qed.

Theorem step_WF l s s' : WF s → step l s = Some s' → WF s'.
Proof.
  intros Hwf. destruct l as [es|sc|i how sc]; simpl.
  - intros [= <-]. by apply (Inv_apply_effects None es s).
  - destruct (immediates s) as [|imm rest] eqn:E; [done|]. intros [= <-].
    apply WF_setImmediate_callback.
    apply (Inv_remove_activity _ s); try done.
    by rewrite (activities_pop_immediate _ _ _ E).
  - unfold settle. destruct (inflight s !! i) as [a|] eqn:E; [|done]. simpl.
    assert (Inv (Some (a_task a)) (with_inflight (delete i (inflight s)) s)) as H0.
    { apply (Inv_remove_activity _ s); try done. by apply activities_remove_inflight. }
    destruct how as [|j].
    + case_decide; [|done]. intros [= <-]. simpl.
      destruct H0 as [? (_ & ? & _)]. by apply WF_then_callback.
    + destruct (a_results a !! j) as [[|error|]|]; try done. intros [= <-].
      by apply WF_handleError.
Qed.

Lemma WF_new_MemoryQueueStorage : WF new_MemoryQueueStorage.
Proof.
  split; simpl; try done.
  - intros t H. by apply elem_of_nil in H.
  - constructor.
  - intros t H. by apply elem_of_nil in H.
  - intros t (ts & H & _). by apply elem_of_nil in H.
  - intros tr2 ts tr1 t ctx k E. by destruct tr2.
Qed.

Theorem reachable_WF s : reachable s → WF s.
Proof.
  induction 1 as [| |l s s' _ IH Hstep].
  - apply WF_new_MemoryQueueStorage.
  - apply (Inv_frame None new_MemoryQueueStorage); try done.
    split; [apply WF_new_MemoryQueueStorage|done].
  - by eapply step_WF.
Qed.

(** * Runs *)

Lemma reachable_run ls s s' : reachable s → run ls s = Some s' → reachable s'.
Proof.
  revert s. induction ls as [|l ls IH]; intros s Hs; simpl.
  - by intros [= <-].
  - destruct (step l s) as [s1|] eqn:E; [|done]. apply IH. by eapply reachable_step.
Qed.


Lemma step_task_active l s s' t :
  step l s = Some s' → step_task l s = Some t → t ∈ activities s.
Proof.
  unfold activities. destruct l as [es|sc|i how sc]; simpl; [done| |].
  - destruct (immediates s) as [|imm rest]; [done|]. simpl. intros _ [= <-].
    by left.
  - intros _. destruct (inflight s !! i) as [a|] eqn:E; [|done]. simpl. intros [= <-].
    apply elem_of_app. right. apply list_elem_of_fmap_2. by eapply list_elem_of_lookup_2.
Qed.

(** A turn of the loop leaves a record with no callback and no attempt alone,
    except that it may be stopped. *)
Lemma step_idle l s s' t :
  WF s → step l s = Some s' → t < length (recs s) → t ∉ activities s →
  stop_rel (status_of s t) (status_of s' t) ∧ (t ∉ activities s') ∧
  (t ∈ _tasksInQueue s → status_of s t ≠ Some Succeded → t ∈ _tasksInQueue s') ∧
  (∀ ctx k, EvExecute t ctx k ∈ trace s' → EvExecute t ctx k ∈ trace s).
Proof.
  intros Hwf Hstep Hv Hn. pose proof (Ext_step _ _ _ Hstep) as H.
  assert (step_task l s ≠ Some t) as Hne.
  { intros E. apply Hn. by eapply step_task_active. }
  split_and!.
  - by apply (ext_status _ _ _ H).
  - intros Hin. apply Hn. by apply (ext_act _ _ _ H).
  - intros. by apply (ext_stored _ _ _ H).
  - intros ctx k. destruct (ext_trace _ _ _ H) as (new & -> & Hnew).
    intros [Hin|?]%elem_of_app; [|done]. by apply Hnew in Hin.
Qed.

Lemma run_trace ls s s' : run ls s = Some s' → ∃ new, trace s' = new ++ trace s.
Proof.
  revert s. induction ls as [|l ls IH]; intros s; simpl.
  - intros [= <-]. by exists [].
  - destruct (step l s) as [s1|] eqn:E; [|done]. intros [new2 E2]%IH.
    destruct (ext_trace _ _ _ (Ext_step _ _ _ E)) as (new1 & E1 & _).
    exists (new2 ++ new1). by rewrite E2, E1, (assoc_L (++)).
Qed.

Lemma run_length ls s s' : run ls s = Some s' → length (recs s) ≤ length (recs s').
Proof.
  revert s. induction ls as [|l ls IH]; intros s; simpl.
  - by intros [= <-].
  - destruct (step l s) as [s1|] eqn:E; [|done]. intros ?%IH.
    pose proof (ext_length (Ext_step _ _ _ E)). lia.
Qed.

Lemma run_idle ls s s' t :
  WF s → run ls s = Some s' → t < length (recs s) → t ∉ activities s →
  stop_rel (status_of s t) (status_of s' t) ∧ (t ∉ activities s') ∧
  (t ∈ _tasksInQueue s → status_of s t ≠ Some Succeded → t ∈ _tasksInQueue s') ∧
  (∀ ctx k, EvExecute t ctx k ∈ trace s' → EvExecute t ctx k ∈ trace s).
Proof.
  revert s. induction ls as [|l ls IH]; intros s Hwf; simpl.
  - intros [= <-] _ Hn. split_and!; try done. apply stop_rel_refl.
  - destruct (step l s) as [s1|] eqn:E; [|done]. intros Hrun Hv Hn.
    destruct (step_idle _ _ _ t Hwf E Hv Hn) as (Hs1 & Hn1 & Hq1 & Ht1).
    pose proof (ext_length (Ext_step _ _ _ E)) as Hlen.
    destruct (IH s1 (step_WF _ _ _ Hwf E) Hrun) as (Hs2 & Hn2 & Hq2 & Ht2); [lia|done|].
    split_and!; try done.
    + by eapply stop_rel_trans.
    + intros Hin Hs. apply Hq2; [by apply Hq1|].
      by eapply stop_rel_not_succeeded.
    + intros ctx k ?. by apply Ht1, Ht2.
Qed.

(** ** Properties of single fields

    A property of the state that every elementary write of the program keeps
    is kept by every method, by every call of user code and by every turn of
    the event loop. *)

Lemma add_tasks_keeps tasksToAdd tasks key handler :
  tasks !! key = Some handler → is_function handler = true →
  (Queue.add_tasks tasksToAdd tasks).2 !! key = Some handler.
Proof.
  revert tasks. induction tasksToAdd as [|[k a] rest IH]; intros tasks Hk Hf; simpl; [done|].
  destruct (property_is_function (Queue.read_task tasks k)) eqn:E; [done|].
  assert (k ≠ key) as Hne.
  { intros ->. unfold Queue.read_task in E. rewrite Hk in E. simpl in E. congruence. }
  apply IH; [|done]. unfold Queue.write_task.
  repeat case_match; by rewrite ?lookup_insert_ne.
Qed.

Lemma register_keeps arg1 moreTasks q key f :
  QueueObject._tasks q !! key = Some (VFun f) →
  QueueObject._tasks (Queue.register arg1 moreTasks q).2 !! key = Some (VFun f).
Proof.
  intros Hk. unfold Queue.register. destruct arg1 as [task|entries| |]; [| |done..].
  - pose proof (add_tasks_keeps (task :: moreTasks) _ key (VFun f) Hk eq_refl) as H.
    by destruct (Queue.add_tasks (task :: moreTasks) (QueueObject._tasks q)).
  - destruct (Queue.check_entries 0 entries); [|done].
    pose proof (add_tasks_keeps (entries ++ moreTasks) _ key (VFun f) Hk eq_refl) as H.
    by destruct (Queue.add_tasks (entries ++ moreTasks) (QueueObject._tasks q)).
Qed.

Lemma register_errorHandlers arg1 moreTasks q :
  QueueObject._errorHandlers (Queue.register arg1 moreTasks q).2 =
    QueueObject._errorHandlers q.
Proof.
  unfold Queue.register. destruct arg1 as [task|entries| |]; [| |done..].
  - by destruct (Queue.add_tasks (task :: moreTasks) (QueueObject._tasks q)).
  - destruct (Queue.check_entries 0 entries); [|done].
    by destruct (Queue.add_tasks (entries ++ moreTasks) (QueueObject._tasks q)).
Qed.

Section Fields.
Variable P : State → Prop.
Hypothesis P_log : ∀ e s, P s → P (log e s).
Hypothesis P_set_status : ∀ t st s, P s → P (set_status t st s).
Hypothesis P_recs_app : ∀ r s, P s → P (with_recs (recs s ++ [r]) s).
Hypothesis P_objs : ∀ x s, P s → P (with_objs x s).
Hypothesis P_errorHandlers : ∀ f s,
  P s → P (with_errorHandlers (_errorHandlers s ++ [UserErrorHandler f]) s).
Hypothesis P_executionHandlers : ∀ f s,
  P s → P (with_executionHandlers (_executionHandlers s ++ [UserExecutionHandler f]) s).
Hypothesis P_tasksInQueue : ∀ x s, P s → P (with_tasksInQueue x s).
Hypothesis P_immediates : ∀ x s, P s → P (with_immediates x s).
Hypothesis P_inflight : ∀ x s, P s → P (with_inflight x s).
Hypothesis P_enqueue : ∀ r s,
  P s → P (with_recs (recs s ++ [r]) (with_nextId (js_incr (_nextId s)) s)).
Hypothesis P_queue : ∀ q s,
  (∀ key f, QueueObject._tasks (queue s) !! key = Some (VFun f) →
            QueueObject._tasks q !! key = Some (VFun f)) →
  QueueObject._errorHandlers (queue s) `prefix_of` QueueObject._errorHandlers q →
  P s → P (with_queue q s).

Lemma fields_set_status t st s : P s → P (set_status t st s).
Proof. apply P_set_status. Qed.

Lemma fields_executeTask t s : P s → P (executeTask t s).
Proof.
  intros H. destruct (executeTask_cases t s) as [->|(r & _ & _ & ->)]; [done|].
  by apply P_immediates.
Qed.

Lemma fields_fold_stop l s : P s → P (foldl (λ s' t, set_status t Stopped s') s l).
Proof.
  revert s. induction l as [|t l IH]; intros s H; simpl; [done|].
  apply IH. by apply fields_set_status.
Qed.

Lemma fields_stopAllEnqueuedTasks s : P s → P (stopAllEnqueuedTasks s).
Proof. intros H. unfold stopAllEnqueuedTasks. by apply fields_fold_stop, P_log. Qed.

Lemma fields_enqueueRemainingTasks s : P s → P (enqueueRemainingTasks s).2.
Proof.
  unfold enqueueRemainingTasks. simpl.
  generalize (filter (λ t, status_of s t = Some Queued) (_tasksInQueue s)).
  intros l. revert s. induction l as [|t l IH]; intros s H; simpl; [done|].
  apply IH. destruct (recs s !! t); [|done].
  apply fields_executeTask. by apply P_recs_app.
Qed.

Lemma fields_enqueueTask o s : P s → P (enqueueTask o s).2.
Proof.
  intros H. unfold enqueueTask. lazy zeta. cbn [snd].
  apply fields_executeTask.
  apply (P_tasksInQueue _ (with_recs _ (with_nextId (js_incr (_nextId s)) s))).
  by apply (P_enqueue _ s).
Qed.

Lemma fields_apply_effect e s : P s → P (apply_effect e s).
Proof.
  intros H. destruct e; simpl.
  - by apply P_objs.
  - by apply P_objs.
  - by apply P_objs.
  - unfold QueueStorageBase.on. destruct handler; try done.
    repeat case_decide; simpl; [by apply P_errorHandlers|by apply P_executionHandlers|done].
  - by apply fields_enqueueTask.
  - by apply fields_enqueueRemainingTasks.
  - by apply fields_stopAllEnqueuedTasks.
  - unfold Queue.on. case_decide; simpl; [|done].
    apply P_queue; [done| |done]. by apply prefix_app_r.
  - unfold Queue.enqueue. case_match; [done|].
    rewrite storage_member_queueTask. destruct options0; simpl; [done|]. by apply P_objs.
  - apply P_queue; [| |done].
    + intros key f. apply register_keeps.
    + by rewrite register_errorHandlers.
  - apply P_queue; [| |done]; unfold Queue.start; by case_match.
  - apply P_queue; [| |done]; unfold Queue.stop; by case_match.
Qed.

Lemma fields_apply_effects es s : P s → P (apply_effects es s).
Proof.
  unfold apply_effects. revert s. induction es as [|e es IH]; intros s H; simpl; [done|].
  apply IH. by apply fields_apply_effect.
Qed.

Lemma fields_call_user sc s : P s → P (call_user sc s).2.
Proof. destruct sc as [|inv sc]; simpl; [done|]. apply fields_apply_effects. Qed.

Lemma fields_execute_bridge ctx k sc s : P s → P (execute_bridge ctx k sc s).2.
Proof.
  intros H. destruct (execute_bridge_cases ctx k sc s) as [(f & _ & ->)|(o & ->)]; [|done].
  apply fields_call_user. by apply P_log.
Qed.

Lemma fields_error_bridge handlers error sc s : P s → P (error_bridge handlers error sc s).2.
Proof.
  revert sc s. induction handlers as [|h hs IH]; intros sc s H; simpl; [done|].
  apply (P_log (EvQueueErrorCall h error)) in H.
  destruct h; try (apply IH; by apply P_log).
  pose proof (fields_call_user sc _ H) as H1.
  destruct (call_user sc (log (EvQueueErrorCall (VFun f) error) s)) as [[o sc1] s1].
  simpl in H1. apply IH. destruct o as [e2|[|e2|]]; try done; by apply P_log.
Qed.

Lemma fields_call_executionHandler h t ctx k sc s :
  P s → P (call_executionHandler h t ctx k sc s).2.
Proof.
  intros H. unfold call_executionHandler. apply (P_log (EvExecuteCall h t ctx)) in H.
  destruct h; [by apply fields_call_user|by apply fields_execute_bridge].
Qed.

Lemma fields_map_executionHandlers hs t ctx k sc s :
  P s → P (map_executionHandlers hs t ctx k sc s).2.
Proof.
  revert sc s. induction hs as [|h hs IH]; intros sc s H; simpl; [done|].
  pose proof (fields_call_executionHandler h t ctx k sc s H) as H1.
  destruct (call_executionHandler h t ctx k sc s) as [[o sc1] s1]. simpl in H1.
  destruct o as [e|f]; [done|].
  pose proof (IH sc1 s1 H1) as H2.
  by destruct (map_executionHandlers hs t ctx k sc1 s1) as [[r sc2] s2].
Qed.

Lemma fields_call_errorHandler h error sc s : P s → P (call_errorHandler h error sc s).2.
Proof.
  intros H. unfold call_errorHandler. apply (P_log (EvErrorCall h error)) in H.
  destruct h; [|by apply fields_error_bridge].
  pose proof (fields_call_user sc _ H) as H1.
  destruct (call_user sc (log (EvErrorCall (UserErrorHandler f) error) s)) as [[o sc1] s1].
  simpl in H1. destruct o; simpl; [by apply P_log|done].
Qed.

Lemma fields_forEach_errorHandlers hs error sc s :
  P s → P (forEach_errorHandlers hs error sc s).2.
Proof.
  revert sc s. induction hs as [|h hs IH]; intros sc s H; simpl; [done|].
  pose proof (fields_call_errorHandler h error sc s H) as H1.
  destruct (call_errorHandler h error sc s) as [sc1 s1]. by apply IH.
Qed.

Lemma fields_handleError t error sc s : P s → P (handleError t error sc s).2.
Proof.
  intros H. unfold handleError.
  pose proof (fields_forEach_errorHandlers (getErrorHandlers (set_status t Failed s)) error sc
                (set_status t Failed s) (fields_set_status t Failed s H)) as H1.
  destruct (forEach_errorHandlers _ error sc (set_status t Failed s)) as [sc1 s2].
  simpl in H1. destruct (negb (isStopped t s)); simpl; [by apply fields_executeTask|done].
Qed.

Lemma fields_setImmediate_callback imm sc s : P s → P (setImmediate_callback imm sc s).2.
Proof.
  intros H. unfold setImmediate_callback. destruct (isStopped (i_task imm) s); [done|].
  lazy zeta.
  match goal with
  | |- context [map_executionHandlers ?hs ?t ?ctx ?k ?sc0 ?s0] =>
      assert (P s0) as H0;
      [|pose proof (fields_map_executionHandlers hs t ctx k sc0 s0 H0) as H1;
        destruct (map_executionHandlers hs t ctx k sc0 s0) as [[r sc1] s5]]
  end.
  { apply P_log, fields_set_status, P_objs. by apply fields_set_status. }
  simpl in H1. destruct r as [fates|error]; simpl.
  - by apply P_inflight.
  - by apply fields_handleError.
Qed.

Lemma fields_step l s s' : step l s = Some s' → P s → P s'.
Proof.
  destruct l as [es|sc|i how sc]; simpl.
  - intros [= <-]. apply fields_apply_effects.
  - destruct (immediates s) as [|imm rest]; [done|]. intros [= <-] H.
    apply fields_setImmediate_callback. by apply P_immediates.
  - unfold settle. destruct (inflight s !! i) as [a|]; [|done].
    destruct how as [|j]; simpl.
    + destruct (decide (Forall (λ f, f = Fulfils) (a_results a))); [|done].
      simpl. intros [= <-] Hs.
      unfold then_callback, cleanupTasksInQueue.
      apply P_tasksInQueue, fields_set_status. by apply P_inflight.
    + destruct (a_results a !! j) as [[|error|]|]; try done. simpl. intros [= <-] Hs.
      apply fields_handleError. by apply P_inflight.
Qed.

Lemma fields_run ls s s' : run ls s = Some s' → P s → P s'.
Proof.
  revert s. induction ls as [|l ls IH]; intros s; simpl.
  - by intros [= <-].
  - destruct (step l s) as [s1|] eqn:E; [|done]. intros Hr H.
    apply (IH s1 Hr). by apply (fields_step l s).
Qed.

Lemma fields_reachable s :
  P new_MemoryQueueStorage → P new_Queue → reachable s → P s.
Proof.
  intros H1 H2. induction 1 as [| |l s s' _ IH Hstep]; [done..|].
  by apply (fields_step l s).
Qed.

End Fields.

(** * The claims *)

(** ** Stopping *)

(** In every state the program can reach, no "execute" event for a record
    follows a call of [stopAllEnqueuedTasks] that found the record in the
    backing list, wherever the call came from (the main program or an
    observer). *)
Theorem reachable_no_execute_after_stop s :
  reachable s → no_execute_after_stop (trace s).
Proof. intros H. apply wf_trace. by apply reachable_WF. Qed.

Lemma setImmediate_callback_stopped imm sc s :
  status_of s (i_task imm) = Some Stopped → setImmediate_callback imm sc s = (sc, s).
Proof.
  intros H. unfold setImmediate_callback. by rewrite (proj2 (isStopped_true _ _) H).
Qed.

Lemma handleError_stopped_no_retry t error sc s :
  t < length (recs s) → status_of s t = Some Stopped →
  t ∈ activities (handleError t error sc s).2 → t ∈ activities s.
Proof.
  intros Hv H. unfold handleError. rewrite (proj2 (isStopped_true _ _) H). simpl.
  pose proof (Ext_forEach_errorHandlers (S t)
                (getErrorHandlers (set_status t Failed s)) error sc
                (set_status t Failed s)) as HE.
  destruct (forEach_errorHandlers _ error sc (set_status t Failed s)) as [sc1 s2].
  simpl in *. intros Hin.
  apply (ext_act _ _ _ HE) in Hin; [done| |intros [= ?]; lia].
  by rewrite length_recs_set_status.
Qed.

(** X21. [stopAllEnqueuedTasks] moves every record of the backing list that
    has not succeeded to [Stopped]; the callback of the execution loop does
    nothing when it finds its record [Stopped]; [handleError] on a [Stopped]
    record schedules no new callback for it; and in no run after the stop is
    a further "execute" event emitted for the record. (The records of the
    backing list are the ones [enqueueTask] created; a copy made by
    [enqueueRemainingTasks] has the id and the key of its original but is
    another record, which the stop does not reach.) *)
Theorem stop_ends_the_execution_loop s t :
  reachable s → t ∈ _tasksInQueue s → status_of s t ≠ Some Succeded →
  let s1 := stopAllEnqueuedTasks s in
  status_of s1 t = Some Stopped ∧
  (∀ imm sc s2, i_task imm = t → status_of s2 t = Some Stopped →
     setImmediate_callback imm sc s2 = (sc, s2)) ∧
  (∀ error sc s2, t < length (recs s2) → status_of s2 t = Some Stopped →
     t ∈ activities (handleError t error sc s2).2 → t ∈ activities s2) ∧
  (∀ ls s', run ls s1 = Some s' →
     ∀ ctx k, EvExecute t ctx k ∈ trace s' → EvExecute t ctx k ∈ trace s).
Proof.
  intros Hr Hin Hs s1. pose proof (reachable_WF _ Hr) as Hwf.
  destruct (wf_stored _ Hwf _ Hin) as [Hv _].
  split_and!.
  - destruct (status_of_stopAll_cases s t) as [[? _]|[_ Hn]]; [done|].
    destruct (status_cases s t Hv) as [?|[?|?]]; [tauto|done|].
    destruct (stopAll_spec s) as (_ & _ & _ & _ & _ & ->).
    by case_decide.
  - intros imm sc s2 <-. apply setImmediate_callback_stopped.
  - intros error sc s2. apply handleError_stopped_no_retry.
  - intros ls s' Hrun ctx k Hex.
    assert (reachable s1) as Hr1.
    { apply (reachable_step (LUser [EStopAllEnqueuedTasks]) s); done. }
    pose proof (reachable_no_execute_after_stop _ (reachable_run _ _ _ Hr1 Hrun)) as Hno.
    destruct (run_trace _ _ _ Hrun) as [new E].
    destruct (stopAll_spec s) as (_ & _ & _ & Ht & _). fold s1 in Ht.
    rewrite Ht in E. rewrite E in Hex, Hno.
    apply elem_of_app in Hex as [Hex|Hex].
    + by apply (Hno new (_tasksInQueue s) (trace s) t ctx k) in Hex.
    + by apply elem_of_cons in Hex as [?|?].
Qed.

Lemma sample_state_reachable : reachable sample_state.
Proof.
  apply (reachable_run sample_run new_MemoryQueueStorage); [constructor|].
  by vm_compute.
Qed.

Lemma stop_ends_the_execution_loop_witness :
  reachable sample_state ∧ 0 ∈ _tasksInQueue sample_state ∧
  status_of sample_state 0 ≠ Some Succeded ∧
  status_of (stopAllEnqueuedTasks sample_state) 0 = Some Stopped ∧
  (∀ ls s', run ls (stopAllEnqueuedTasks sample_state) = Some s' →
     ∀ ctx k, EvExecute 0 ctx k ∈ trace s' → EvExecute 0 ctx k ∈ trace sample_state).
Proof.
  pose proof sample_state_reachable as Hr.
  assert (0 ∈ _tasksInQueue sample_state) as Hin by (vm_compute; left).
  assert (status_of sample_state 0 ≠ Some Succeded) as Hs by (vm_compute; discriminate).
  destruct (stop_ends_the_execution_loop sample_state 0 Hr Hin Hs) as (H1 & _ & _ & H4).
  split_and!; assumption.
Defined.

(** C1, the code at the failing input. The stored record 0 is [Queued];
    [enqueueRemainingTasks] schedules a copy of it, record 1, with the same id
    and options, which is not in the backing list. [stopAllEnqueuedTasks]
    stops record 0 and does not reach record 1: after the stop two "execute"
    events are emitted for record 1, with the key of the task; the record is
    [Failed], its next attempt is scheduled, and another
    [stopAllEnqueuedTasks] does not stop it either. *)
Theorem stop_does_not_reach_the_copies :
  run copy_run new_MemoryQueueStorage = Some copy_state ∧
  _tasksInQueue copy_state = [0] ∧
  status_of copy_state 0 = Some Stopped ∧
  id <$> recs copy_state !! 1 = id <$> recs copy_state !! 0 ∧
  options <$> recs copy_state !! 1 = options <$> recs copy_state !! 0 ∧
  trace copy_state =
    take (length (trace copy_state) - 1) (trace copy_state) ++ [EvStop [0]] ∧
  executes (take (length (trace copy_state) - 1) (trace copy_state)) =
    [(1, 2, "t1"); (1, 1, "t1")] ∧
  status_of copy_state 1 = Some Failed ∧
  i_task <$> immediates copy_state = [1] ∧
  status_of (stopAllEnqueuedTasks copy_state) 1 = Some Failed ∧
  i_task <$> immediates (stopAllEnqueuedTasks copy_state) = [1].
Proof. split_and!; by vm_compute. Qed.

(** ** Terminal statuses *)

(** C2 as stated fails: the record of the sample run is [Running] with an
    attempt pending; it is stopped, and then the attempt is rejected:
    [handleError] overwrites [Stopped] with [Failed]. *)
Lemma stopped_is_overwritten_by_a_late_failure :
  status_after (sample_run ++ [LUser [EStopAllEnqueuedTasks]]) 0 = Some Stopped ∧
  status_after (sample_run ++ [LUser [EStopAllEnqueuedTasks];
                               LSettle 0 (FirstRejected 0) []]) 0 = Some Failed.
Proof. split; by vm_compute. Qed.

Lemma succeeded_step l s s' t :
  WF s → step l s = Some s' → status_of s t = Some Succeded →
  status_of s' t = Some Succeded.
Proof.
  intros Hwf Hstep Hs.
  destruct (step_idle l s s' t Hwf Hstep) as ([E|[_ [?|[?|?]]]] & _).
  - by eapply status_of_lt.
  - by apply (wf_succeeded _ Hwf).
  - congruence.
  - congruence.
  - congruence.
  - congruence.
Qed.

Lemma succeeded_run ls s s' t :
  WF s → run ls s = Some s' → status_of s t = Some Succeded →
  status_of s' t = Some Succeded.
Proof.
  revert s. induction ls as [|l ls IH]; intros s Hwf; simpl.
  - by intros [= <-].
  - destruct (step l s) as [s1|] eqn:E; [|done]. intros Hrun Hs.
    apply (IH s1); [by eapply step_WF|done|by eapply succeeded_step].
Qed.

(** C2, amended. [Succeded] is terminal. A [Stopped] record is never [Queued]
    or [Running] again, and another [stopAllEnqueuedTasks] leaves it
    [Stopped]; but the attempt that was pending when the record was stopped
    still writes its outcome: a turn of the loop changes [Stopped] only by
    settling that attempt, to [Succeded] or to [Failed], and then nothing is
    scheduled for the record. *)
Theorem terminal_statuses s t :
  reachable s →
  (status_of s t = Some Succeded →
     ∀ ls s', run ls s = Some s' → status_of s' t = Some Succeded) ∧
  (status_of s t = Some Stopped →
     status_of (stopAllEnqueuedTasks s) t = Some Stopped ∧
     (∀ ls s', run ls s = Some s' →
        status_of s' t = Some Stopped ∨ status_of s' t = Some Succeded ∨
        status_of s' t = Some Failed) ∧
     (∀ l s', step l s = Some s' → status_of s' t ≠ Some Stopped →
        (∃ i how sc a, l = LSettle i how sc ∧ inflight s !! i = Some a ∧ a_task a = t) ∧
        t ∉ activities s')).
Proof.
  intros Hr. pose proof (reachable_WF _ Hr) as Hwf. split.
  - intros Hs ls s' Hrun. by eapply succeeded_run.
  - intros Hs.
    assert (∀ ls s', run ls s = Some s' → halted s' t) as Hhalt.
    { intros ls s' Hrun.
      apply (wf_stopped _ (reachable_WF _ (reachable_run _ _ _ Hr Hrun))).
      destruct (wf_stopped_src _ Hwf _ Hs) as (ts & Hin & Ht).
      destruct (run_trace _ _ _ Hrun) as [new ->].
      exists ts. split; [|done]. apply elem_of_app. by right. }
    split_and!.
    + destruct (status_of_stopAll_cases s t) as [[? _]|[-> _]]; done.
    + intros ls s' Hrun. destruct (Hhalt ls s' Hrun) as [?|[_ [?|?]]]; auto.
    + intros l s' Hstep Hne.
      assert (t ∉ activities s') as Hn.
      { destruct (Hhalt [l] s') as [?|[? _]]; [|done..]. simpl. by rewrite Hstep. }
      split; [|done].
      destruct (decide (step_task l s = Some t)) as [E|E].
      * destruct l as [es|sc|i how sc]; simpl in E; [done| |].
        -- exfalso. apply Hne. simpl in Hstep.
           destruct (immediates s) as [|imm rest]; [done|]. simpl in E.
           injection E as <-. injection Hstep as <-.
           rewrite setImmediate_callback_stopped; done.
        -- destruct (inflight s !! i) as [a|] eqn:Ea; [|done]. simpl in E.
           injection E as <-. by exists i, how, sc, a.
      * exfalso. apply Hne.
        pose proof (Ext_step _ _ _ Hstep) as HE.
        assert (t < length (recs s)) as Hv by (by eapply status_of_lt).
        destruct (ext_status _ _ _ HE t Hv E) as [->|[_ [?|[?|?]]]]; congruence.
Qed.

Lemma terminal_statuses_witness :
  reachable (stopAllEnqueuedTasks sample_state) ∧
  status_of (stopAllEnqueuedTasks sample_state) 0 = Some Stopped ∧
  (∀ ls s', run ls (stopAllEnqueuedTasks sample_state) = Some s' →
     status_of s' 0 = Some Stopped ∨ status_of s' 0 = Some Succeded ∨
     status_of s' 0 = Some Failed).
Proof.
  assert (reachable (stopAllEnqueuedTasks sample_state)) as Hr.
  { apply (reachable_step (LUser [EStopAllEnqueuedTasks]) sample_state);
      [apply sample_state_reachable|reflexivity]. }
  assert (status_of (stopAllEnqueuedTasks sample_state) 0 = Some Stopped) as Hs
    by (vm_compute; reflexivity).
  destruct (terminal_statuses _ 0 Hr) as [_ H]. destruct (H Hs) as (_ & H2 & _).
  split_and!; assumption.
Defined.

(** ** enqueueRemainingTasks *)

Lemma enqueueRemainingTasks_result s : (enqueueRemainingTasks s).1 = [].
Proof. reflexivity. Qed.

(** C3, the code at the failing inputs. The stored record 0 of [idle_state]
    is [Queued]: [enqueueRemainingTasks] returns the empty list although it
    schedules an attempt, and the attempt runs on a copy (record 1): after the
    copy has succeeded the stored record is still [Queued] and still in the
    backing list. The stored record 0 of [failed_state] is [Failed]:
    nothing is scheduled for it. *)
Theorem enqueueRemainingTasks_runs_copies_and_returns_nothing :
  status_of idle_state 0 = Some Queued ∧ _tasksInQueue idle_state = [0] ∧
  (enqueueRemainingTasks idle_state).1 = [] ∧
  i_task <$> immediates (enqueueRemainingTasks idle_state).2 = [1] ∧
  (∃ s', run [LUser [EEnqueueRemainingTasks]; LImmediate []; LSettle 0 AllFulfilled []]
           idle_state = Some s' ∧
         status_of s' 1 = Some Succeded ∧ status_of s' 0 = Some Queued ∧
         _tasksInQueue s' = [0] ∧ activities s' = []) ∧
  status_of failed_state 0 = Some Failed ∧ _tasksInQueue failed_state = [0] ∧
  immediates (enqueueRemainingTasks failed_state).2 = [].
Proof.
  split_and!; try (by vm_compute).
  eexists. split; [by vm_compute|]. split_and!; by vm_compute.
Qed.

(** ** Ids *)

Lemma String_inj n m : String n = String m → n = m.
Proof. unfold String. apply (inj pretty). Qed.

Lemma reachable_ids_issued s : reachable s → ids_issued s.
Proof.
  induction 1 as [| |l s s' _ IH Hstep].
  - intros r Hr. by apply elem_of_nil in Hr.
  - intros r Hr. by apply elem_of_nil in Hr.
  - by apply (ext_ids _ _ _ (Ext_step _ _ _ Hstep)).
Qed.

Lemma run_nextId ls s s' : run ls s = Some s' → (_nextId s ≤ _nextId s')%Z.
Proof.
  revert s. induction ls as [|l ls IH]; intros s; simpl.
  - by intros [= <-].
  - destruct (step l s) as [s1|] eqn:E; [|done]. intros ?%IH.
    pose proof (ext_nextId _ _ _ (Ext_step _ _ _ E)). lia.
Qed.

Lemma nextId_enqueueTask o s : _nextId (enqueueTask o s).2 = js_incr (_nextId s).
Proof.
  unfold enqueueTask. lazy zeta. cbn [snd].
  match goal with |- context [executeTask ?t ?s0] =>
    destruct (executeTask_cases t s0) as [->|(r & _ & _ & ->)] end; done.
Qed.

Lemma recs_enqueueTask o s :
  recs (enqueueTask o s).2 =
    recs s ++ [{| id := String (_nextId s); options := o; status := Queued |}].
Proof. unfold enqueueTask. lazy zeta. cbn [snd]. by rewrite recs_executeTask. Qed.

Lemma tasksInQueue_enqueueTask o s :
  _tasksInQueue (enqueueTask o s).2 = _tasksInQueue s ++ [length (recs s)].
Proof.
  unfold enqueueTask. lazy zeta. cbn [snd].
  match goal with |- context [executeTask ?t ?s0] =>
    destruct (executeTask_cases t s0) as [->|(r & _ & _ & ->)] end; done.
Qed.

(** The counter has moved at most once per record. *)
Lemma reachable_counter_counts s :
  reachable s → (_nextId s ≤ MIN_SAFE_INTEGER + Z.of_nat (length (recs s)))%Z.
Proof.
  apply (fields_reachable
           (λ s', (_nextId s' ≤ MIN_SAFE_INTEGER + Z.of_nat (length (recs s')))%Z));
    try done.
  - intros t st s0 H. unfold set_status. simpl. by rewrite length_alter.
  - intros r s0 H. simpl. rewrite length_app. simpl. lia.
  - intros r s0 H. simpl. rewrite length_app. simpl. unfold js_incr. case_match; lia.
Qed.

(** C4. [enqueueTask] returns the decimal form of the counter as the id,
    stores a [Queued] record with that id in the backing list, and that id
    differs from the id of every record created before and from every id
    returned by a later [enqueueTask]. This holds for every sequence of
    submissions of a practical volume: as long as fewer than [2^54 - 1]
    (about [1.8 * 10^16]) records have been created, the counter, which starts
    at [Number.MIN_SAFE_INTEGER], is below [2^53] and counts exactly. *)
Theorem enqueueTask_issues_a_fresh_id s o :
  reachable s → (Z.of_nat (length (recs s)) < 2 ^ 54 - 1)%Z →
  let c := (enqueueTask o s).1 in
  let s' := (enqueueTask o s).2 in
  ctx_id c = String (_nextId s) ∧
  recs s' !! length (recs s) = Some {| id := ctx_id c; options := o; status := Queued |} ∧
  length (recs s) ∈ _tasksInQueue s' ∧
  (∀ r, r ∈ recs s → id r ≠ ctx_id c) ∧
  (_nextId s < _nextId s')%Z ∧
  (∀ ls s2 o2, run ls s' = Some s2 → ctx_id (enqueueTask o2 s2).1 ≠ ctx_id c).
Proof.
  intros Hr Hvol c s'.
  assert (_nextId s < 2 ^ 53)%Z as Hlt.
  { pose proof (reachable_counter_counts s Hr). unfold MIN_SAFE_INTEGER in *. lia. }
  assert (_nextId s' = _nextId s + 1)%Z as Hn.
  { unfold s'. rewrite nextId_enqueueTask. unfold js_incr.
    by rewrite (proj2 (Z.ltb_lt _ _) Hlt). }
  split_and!.
  - done.
  - unfold s'. rewrite recs_enqueueTask, lookup_app_r by lia.
    by rewrite Nat.sub_diag.
  - unfold s'. rewrite tasksInQueue_enqueueTask. apply elem_of_app. right. by left.
  - intros r Hin E. destruct (reachable_ids_issued _ Hr r Hin) as (n & Hid & Hlt').
    simpl in E. rewrite Hid in E. apply String_inj in E. lia.
  - lia.
  - intros ls s2 o2 Hrun E. simpl in E. apply String_inj in E.
    apply run_nextId in Hrun. lia.
Qed.

Lemma enqueueTask_issues_a_fresh_id_witness :
  reachable sample_state ∧ (Z.of_nat (length (recs sample_state)) < 2 ^ 54 - 1)%Z ∧
  ctx_id (enqueueTask {| data := 0; key := "t1" |} sample_state).1 = "-9007199254740990" ∧
  (∀ r, r ∈ recs sample_state →
        id r ≠ ctx_id (enqueueTask {| data := 0; key := "t1" |} sample_state).1).
Proof.
  pose proof sample_state_reachable as Hr.
  assert (Z.of_nat (length (recs sample_state)) < 2 ^ 54 - 1)%Z as Hlt by (by vm_compute).
  destruct (enqueueTask_issues_a_fresh_id sample_state {| data := 0; key := "t1" |} Hr Hlt)
    as (H1 & _ & _ & H4 & _).
  split_and!; [assumption|assumption|by vm_compute|assumption].
Defined.

(** ** Queue.enqueue *)

Lemma read_task_own tasks key f :
  Queue.get_task tasks key = VFun f → Queue.read_task tasks key = Own (VFun f).
Proof.
  unfold Queue.get_task, Queue.read_task. destruct (tasks !! key); simpl; [by intros ->|done].
Qed.

Lemma Queue_enqueue_unregistered key o s :
  property_is_function (Queue.read_task (QueueObject._tasks (queue s)) key) = false →
  Queue.enqueue key o s = (Throw (VError "Error" ("No task found for key " +:+ key)), s).
Proof. intros H. unfold Queue.enqueue. by rewrite H. Qed.

Lemma Queue_enqueue_registered key o s :
  property_is_function (Queue.read_task (QueueObject._tasks (queue s)) key) = true →
  ∃ s', Queue.enqueue key o s =
          (Throw (VError "TypeError" "storage.queueTask is not a function"), s') ∧
        recs s' = recs s ∧ _tasksInQueue s' = _tasksInQueue s ∧
        immediates s' = immediates s ∧ _nextId s' = _nextId s.
Proof.
  intros H. unfold Queue.enqueue. rewrite H, storage_member_queueTask. simpl.
  destruct o; eexists; split; try reflexivity; done.
Qed.

(** C5, the code at the failing input: a dispatcher with the task "t"
    registered. [enqueue("t")] looks up [queueTask] on the storage, which has
    no such member, and fails with a [TypeError]; no record is created. *)
Theorem Queue_enqueue_calls_a_missing_method :
  is_function (Queue.get_task (QueueObject._tasks (queue registered_state)) "t") = true ∧
  storage_member "queueTask" = None ∧
  storage_member "enqueueTask" = Some M_enqueueTask ∧
  Queue.enqueue "t" None registered_state =
    (Throw (VError "TypeError" "storage.queueTask is not a function"),
     with_objs [∅] registered_state) ∧
  recs (Queue.enqueue "t" None registered_state).2 = [].
Proof. split_and!; by vm_compute. Qed.

(** ** Queue.register *)

(** C6 as stated fails: the batch [{ a: f2, b: f3 }] on a registry that has
    "b" throws at "b", after "a" has been written. And a pair with a value that
    is not a function is stored without complaint. *)
Lemma register_commits_the_entries_before_a_duplicate :
  (Queue.register (ArgDict [("a", VFun 2); ("b", VFun 3)]) [] one_task_queue).1 =
    Throw (VError "Error" "Task cannot be reset for key b") ∧
  QueueObject._tasks one_task_queue !! "a" = None ∧
  QueueObject._tasks
    (Queue.register (ArgDict [("a", VFun 2); ("b", VFun 3)]) [] one_task_queue).2 !! "a" =
    Some (VFun 2) ∧
  Queue.register (ArgPair ("c", VNum 1)) [] one_task_queue =
    (Normal (), Queue.with_tasks (<["c" := VNum 1]> {[ "b" := VFun 1 ]}) one_task_queue).
Proof. split_and!; by vm_compute. Qed.

Lemma check_entries_throws index entries :
  (∃ e, e ∈ entries ∧ is_function e.2 = false) →
  ∃ err, Queue.check_entries index entries = Throw err.
Proof.
  revert index. induction entries as [|e0 entries IH]; intros index (e & Hin & He).
  - by apply elem_of_nil in Hin.
  - simpl. destruct (is_function e0.2) eqn:E0; [|by eexists].
    apply IH. exists e. split; [|done].
    apply elem_of_cons in Hin as [->|?]; [congruence|done].
Qed.

Lemma check_entries_passes index entries :
  Forall (λ e, is_function e.2 = true) entries → Queue.check_entries index entries = Normal ().
Proof.
  revert index. induction entries as [|e entries IH]; intros index H; simpl; [done|].
  apply Forall_cons in H as [-> H]. by apply IH.
Qed.

Lemma add_tasks_app pre post tasks tasks1 :
  Queue.add_tasks pre tasks = (Normal (), tasks1) →
  Queue.add_tasks (pre ++ post) tasks = Queue.add_tasks post tasks1.
Proof.
  revert tasks. induction pre as [|[k a] pre IH]; intros tasks; simpl.
  - by intros [= <-].
  - case_match; [done|]. apply IH.
Qed.

Lemma read_task_plain tasks k :
  Object_prototype k = None →
  property_is_function (Queue.read_task tasks k) = is_function (Queue.get_task tasks k).
Proof.
  intros H. unfold Queue.read_task, Queue.get_task. rewrite H. by destruct (tasks !! k).
Qed.

Lemma write_task_plain k a tasks :
  Object_prototype k = None → Queue.write_task k a tasks = <[k := a]> tasks.
Proof. intros H. unfold Queue.write_task. case_decide as E; [by rewrite E in H|done]. Qed.

Lemma add_tasks_free es tasks :
  plain_keys es → all_free es tasks →
  Queue.add_tasks es tasks = (Normal (), committed es tasks).
Proof.
  revert tasks. induction es as [|[k a] es IH]; intros tasks Hp Hf; simpl; [done|].
  apply Forall_cons in Hp as [Hk Hp]. simpl in Hk.
  rewrite (read_task_plain _ _ Hk), (write_task_plain _ _ _ Hk).
  destruct (is_function (Queue.get_task tasks k)) eqn:E.
  - by destruct (Hf [] k a es eq_refl).
  - apply IH; [done|]. intros pre k1 a1 post ->.
    apply (Hf ((k, a) :: pre) k1 a1 post). done.
Qed.

Lemma add_tasks_blocked pre k a post tasks :
  plain_keys (pre ++ [(k, a)]) → all_free pre tasks → holds_function (committed pre tasks) k →
  Queue.add_tasks (pre ++ (k, a) :: post) tasks =
    (Throw (VError "Error" ("Task cannot be reset for key " +:+ k)), committed pre tasks).
Proof.
  intros [Hp Hk]%Forall_app Hf Hh. apply Forall_cons in Hk as [Hk _]. simpl in Hk.
  rewrite (add_tasks_app pre _ tasks (committed pre tasks)) by (by apply add_tasks_free).
  simpl. rewrite (read_task_plain _ _ Hk). unfold holds_function in Hh. by rewrite Hh.
Qed.

Lemma register_batch arg1 moreTasks q :
  passes_validation arg1 →
  Queue.register arg1 moreTasks q =
    ((Queue.add_tasks (batch_of arg1 moreTasks) (QueueObject._tasks q)).1,
     Queue.with_tasks (Queue.add_tasks (batch_of arg1 moreTasks) (QueueObject._tasks q)).2 q).
Proof.
  unfold Queue.register, batch_of. destruct arg1 as [task|entries| |]; try done.
  - intros _. by destruct (Queue.add_tasks (task :: moreTasks) (QueueObject._tasks q)).
  - intros H. cbn [passes_validation] in H. rewrite (check_entries_passes 0 entries H).
    by destruct (Queue.add_tasks (entries ++ moreTasks) (QueueObject._tasks q)).
Qed.

(** C6, amended. A dictionary is validated before anything is written: one
    entry that is not a function makes [register] throw with the registry
    unchanged; pairs are not checked. The batch is the pair or the entries of
    the dictionary, followed by the further pairs. On a registry with its
    original prototype and for keys that do not name members of
    [Object.prototype]: when an entry finds its key holding a function (from
    before the call or from an earlier entry of the batch), [register] throws
    there, the entries before it have been written, it and the entries after
    it have not; when no entry does, all entries are written, in order. In
    every case a key that held a function before the call still holds the
    same function. *)
Theorem register_validates_a_dictionary_and_commits_in_order :
  (∀ entries moreTasks q,
     (∃ e, e ∈ entries ∧ is_function e.2 = false) →
     ∃ err, Queue.register (ArgDict entries) moreTasks q = (Throw err, q)) ∧
  (∀ arg1 moreTasks q pre key action post,
     passes_validation arg1 → Queue.prototype_intact (QueueObject._tasks q) →
     batch_of arg1 moreTasks = pre ++ (key, action) :: post →
     plain_keys (pre ++ [(key, action)]) →
     all_free pre (QueueObject._tasks q) →
     holds_function (committed pre (QueueObject._tasks q)) key →
     Queue.register arg1 moreTasks q =
       (Throw (VError "Error" ("Task cannot be reset for key " +:+ key)),
        Queue.with_tasks (committed pre (QueueObject._tasks q)) q)) ∧
  (∀ arg1 moreTasks q,
     passes_validation arg1 → Queue.prototype_intact (QueueObject._tasks q) →
     plain_keys (batch_of arg1 moreTasks) →
     all_free (batch_of arg1 moreTasks) (QueueObject._tasks q) →
     Queue.register arg1 moreTasks q =
       (Normal (),
        Queue.with_tasks (committed (batch_of arg1 moreTasks) (QueueObject._tasks q)) q)) ∧
  (∀ arg1 moreTasks q key handler,
     QueueObject._tasks q !! key = Some handler → is_function handler = true →
     QueueObject._tasks (Queue.register arg1 moreTasks q).2 !! key = Some handler).
Proof.
  split_and!.
  - intros entries moreTasks q H. unfold Queue.register.
    destruct (check_entries_throws 0 entries H) as [err ->]. by exists err.
  - intros arg1 moreTasks q pre key action post Hv _ Hb Hp Hf Hh.
    rewrite (register_batch _ _ _ Hv), Hb.
    by rewrite (add_tasks_blocked pre key action post _ Hp Hf Hh).
  - intros arg1 moreTasks q Hv _ Hp Hf.
    rewrite (register_batch _ _ _ Hv). by rewrite (add_tasks_free _ _ Hp Hf).
  - intros arg1 moreTasks q key handler Hk Hf. unfold Queue.register.
    destruct arg1 as [task|entries| |]; [| |done..].
    + pose proof (add_tasks_keeps (task :: moreTasks) _ _ _ Hk Hf) as H.
      by destruct (Queue.add_tasks (task :: moreTasks) (QueueObject._tasks q)).
    + destruct (Queue.check_entries 0 entries); [|done].
      pose proof (add_tasks_keeps (entries ++ moreTasks) _ _ _ Hk Hf) as H.
      by destruct (Queue.add_tasks (entries ++ moreTasks) (QueueObject._tasks q)).
Qed.

Lemma register_validates_a_dictionary_and_commits_in_order_witness :
  (∃ err, Queue.register (ArgDict [("a", VFun 2); ("c", VNum 1)]) [] one_task_queue =
            (Throw err, one_task_queue)) ∧
  Queue.register (ArgPair ("a", VFun 2)) [("c", VNum 1); ("a", VFun 3); ("d", VFun 4)]
    one_task_queue =
    (Throw (VError "Error" ("Task cannot be reset for key " +:+ "a")),
     Queue.with_tasks (<["c" := VNum 1]> (<["a" := VFun 2]> {[ "b" := VFun 1 ]}))
       one_task_queue) ∧
  Queue.register (ArgDict [("a", VFun 2)]) [("c", VNum 1); ("c", VFun 5)] one_task_queue =
    (Normal (),
     Queue.with_tasks (<["c" := VFun 5]> (<["c" := VNum 1]> (<["a" := VFun 2]>
                         {[ "b" := VFun 1 ]}))) one_task_queue) ∧
  QueueObject._tasks
    (Queue.register (ArgDict [("a", VFun 2); ("b", VFun 3)]) [] one_task_queue).2 !! "b" =
    Some (VFun 1).
Proof.
  destruct register_validates_a_dictionary_and_commits_in_order as (H1 & H2 & H3 & H4).
  split_and!.
  - apply H1. exists ("c", VNum 1). split; [|reflexivity].
    apply elem_of_cons. right. apply elem_of_cons. by left.
  - apply (H2 (ArgPair ("a", VFun 2)) [("c", VNum 1); ("a", VFun 3); ("d", VFun 4)]
              one_task_queue [("a", VFun 2); ("c", VNum 1)] "a" (VFun 3) [("d", VFun 4)]).
    + exact I.
    + reflexivity.
    + reflexivity.
    + repeat constructor.
    + intros pre k a post E.
      destruct pre as [|e1 [|e2 [|e3 pre]]]; simplify_eq/=; by vm_compute.
    + by vm_compute.
  - apply (H3 (ArgDict [("a", VFun 2)]) [("c", VNum 1); ("c", VFun 5)] one_task_queue).
    + by repeat constructor.
    + reflexivity.
    + repeat constructor.
    + intros pre k a post E.
      destruct pre as [|e1 [|e2 [|e3 [|e4 pre]]]]; simplify_eq/=; by vm_compute.
  - apply H4; reflexivity.
Defined.

(** ** Error observers *)

Lemma error_calls_app tr1 tr2 : error_calls (tr1 ++ tr2) = error_calls tr1 ++ error_calls tr2.
Proof. unfold error_calls. apply omap_app. Qed.

Lemma error_calls_Ext_None s s' :
  Ext None s s' → error_calls (trace s') = error_calls (trace s).
Proof.
  intros H. destruct (ext_trace _ _ _ H) as (new & -> & Hnew).
  rewrite error_calls_app.
  assert (error_calls new = []) as ->; [|done].
  induction new as [|e new IH]; [done|].
  assert (event_allowed None e) as He by (apply Hnew; by left).
  assert (error_calls new = []) as IH' by (apply IH; intros e' ?; apply Hnew; by right).
  destruct e; simpl in He; try done; exact IH'.
Qed.

Lemma trace_executeTask t s : trace (executeTask t s) = trace s.
Proof. by destruct (executeTask_cases t s) as [->|(r & _ & _ & ->)]. Qed.

Lemma error_calls_call_errorHandler h error sc s :
  error_calls (trace (call_errorHandler h error sc s).2) =
    (h, error) :: error_calls (trace s).
Proof.
  unfold call_errorHandler. destruct h.
  - pose proof (Ext_call_user None sc (log (EvErrorCall (UserErrorHandler f) error) s)) as H.
    destruct (call_user sc (log (EvErrorCall (UserErrorHandler f) error) s)) as [[o sc1] s1].
    apply error_calls_Ext_None in H. simpl in H. by destruct o.
  - pose proof (Ext_error_bridge None (QueueObject._errorHandlers (queue s))
                  (VErrorContext error) sc (log (EvErrorCall ErrorBridge error) s)) as H.
    by apply error_calls_Ext_None in H.
Qed.

Lemma error_calls_forEach_errorHandlers hs error sc s :
  error_calls (trace (forEach_errorHandlers hs error sc s).2) =
    rev ((λ h, (h, error)) <$> hs) ++ error_calls (trace s).
Proof.
  revert sc s. induction hs as [|h hs IH]; intros sc s; simpl; [done|].
  pose proof (error_calls_call_errorHandler h error sc s) as H.
  destruct (call_errorHandler h error sc s) as [sc1 s1]. simpl in H.
  by rewrite IH, H, <- (assoc_L (++)).
Qed.



(** ** The execution context *)

Lemma objs_kept_refl P s : objs_kept P s s.
Proof. by split. Qed.

Lemma objs_kept_trans P s1 s2 s3 : objs_kept P s1 s2 → objs_kept P s2 s3 → objs_kept P s1 s3.
Proof.
  intros [L1 H1] [L2 H2]. split; [lia|]. intros l Hl HP.
  rewrite H2, H1; [done..|lia|done].
Qed.

Lemma objs_kept_same P s s' : objs s' = objs s → objs_kept P s s'.
Proof. intros E. unfold objs_kept. by rewrite E. Qed.

Lemma objs_executeTask t s : objs (executeTask t s) = objs s.
Proof. by destruct (executeTask_cases t s) as [->|(r & _ & _ & ->)]. Qed.

Lemma objs_fold_stop l s :
  objs (foldl (λ s' t, set_status t Stopped s') s l) = objs s.
Proof. revert s. induction l as [|t l IH]; intros s; simpl; [done|]. by rewrite IH. Qed.

Lemma objs_stopAllEnqueuedTasks s : objs (stopAllEnqueuedTasks s) = objs s.
Proof. unfold stopAllEnqueuedTasks. by rewrite objs_fold_stop. Qed.

Lemma objs_enqueueRemainingTasks s : objs (enqueueRemainingTasks s).2 = objs s.
Proof.
  unfold enqueueRemainingTasks. simpl.
  generalize (filter (λ t, status_of s t = Some Queued) (_tasksInQueue s)).
  intros l. revert s. induction l as [|t l IH]; intros s; simpl; [done|].
  rewrite IH. destruct (recs s !! t); [|done]. by rewrite objs_executeTask.
Qed.

Lemma objs_enqueueTask o s : objs (enqueueTask o s).2 = objs s.
Proof. unfold enqueueTask. lazy zeta. cbn [snd]. by rewrite objs_executeTask. Qed.

Lemma objs_kept_apply_effect P e s : writes_within P e → objs_kept P s (apply_effect e s).
Proof.
  assert (∀ x, objs_kept P s (with_objs (objs s ++ [x]) s)) as Happ.
  { intros x. split; simpl; [rewrite length_app; lia|].
    intros l Hl _. by rewrite lookup_app_l. }
  assert (∀ f l, P l → objs_kept P s (with_objs (alter f l (objs s)) s)) as Halt.
  { intros f l Hl. split; simpl; [by rewrite length_alter|].
    intros l' _ Hn. rewrite list_lookup_alter_ne; [done|]. by intros ->. }
  destruct e; simpl; intros He; auto; try (by apply objs_kept_same).
  - apply objs_kept_same. unfold QueueStorageBase.on.
    destruct handler; try done. by repeat case_decide.
  - apply objs_kept_same, objs_enqueueTask.
  - apply objs_kept_same, objs_enqueueRemainingTasks.
  - apply objs_kept_same, objs_stopAllEnqueuedTasks.
  - apply objs_kept_same. unfold Queue.on. by case_decide.
  - unfold Queue.enqueue. case_match; [apply objs_kept_refl|].
    rewrite storage_member_queueTask. destruct options0; simpl; [apply objs_kept_refl|].
    apply Happ.
Qed.

Lemma objs_kept_apply_effects P es s :
  Forall (writes_within P) es → objs_kept P s (apply_effects es s).
Proof.
  unfold apply_effects. revert s. induction es as [|e es IH]; intros s H; simpl.
  - apply objs_kept_refl.
  - apply Forall_cons in H as [He Hes].
    eapply objs_kept_trans; [by apply objs_kept_apply_effect|by apply IH].
Qed.

Lemma objs_kept_call_user P sc s :
  script_writes_within P sc →
  script_writes_within P (call_user sc s).1.2 ∧ objs_kept P s (call_user sc s).2.
Proof.
  destruct sc as [|inv sc]; simpl; [split; [done|apply objs_kept_refl]|].
  intros [Hinv Hsc]%Forall_cons. split; [done|]. by apply objs_kept_apply_effects.
Qed.

Lemma objs_kept_log P e s s' : objs_kept P (log e s) s' → objs_kept P s s'.
Proof. done. Qed.

Lemma objs_kept_execute_bridge P ctx k sc s :
  script_writes_within P sc →
  script_writes_within P (execute_bridge ctx k sc s).1.2 ∧
  objs_kept P s (execute_bridge ctx k sc s).2.
Proof.
  intros H. destruct (execute_bridge_cases ctx k sc s) as [(f & _ & ->)|(o & ->)];
    [|split; [done|apply objs_kept_refl]].
  by apply (objs_kept_call_user P sc (log _ s)).
Qed.

Lemma objs_kept_error_bridge P hs error sc s :
  script_writes_within P sc →
  script_writes_within P (error_bridge hs error sc s).1 ∧
  objs_kept P s (error_bridge hs error sc s).2.
Proof.
  revert sc s. induction hs as [|h hs IH]; intros sc s H; simpl;
    [split; [done|apply objs_kept_refl]|].
  destruct h; try (by apply (IH sc (log _ (log _ s)))).
  destruct (objs_kept_call_user P sc (log (EvQueueErrorCall (VFun f) error) s) H)
    as [H1 H2].
  destruct (call_user sc (log (EvQueueErrorCall (VFun f) error) s)) as [[o sc1] s1].
  simpl in H1, H2.
  assert (∀ s1', objs s1' = objs s1 →
            script_writes_within P (error_bridge hs error sc1 s1').1 ∧
            objs_kept P s (error_bridge hs error sc1 s1').2) as Hk.
  { intros s1' E. destruct (IH sc1 s1' H1) as [? ?]. split; [done|].
    eapply objs_kept_trans; [|done].
    eapply objs_kept_trans; [apply H2|by apply objs_kept_same]. }
  destruct o as [e|[|e|]]; by apply Hk.
Qed.

Lemma objs_kept_call_executionHandler P h t ctx k sc s :
  script_writes_within P sc →
  script_writes_within P (call_executionHandler h t ctx k sc s).1.2 ∧
  objs_kept P s (call_executionHandler h t ctx k sc s).2.
Proof.
  intros H. unfold call_executionHandler. destruct h.
  - by apply (objs_kept_call_user P sc (log _ s)).
  - by apply (objs_kept_execute_bridge P ctx k sc (log _ s)).
Qed.

Lemma objs_kept_map_executionHandlers P hs t ctx k sc s :
  script_writes_within P sc →
  script_writes_within P (map_executionHandlers hs t ctx k sc s).1.2 ∧
  objs_kept P s (map_executionHandlers hs t ctx k sc s).2.
Proof.
  revert sc s. induction hs as [|h hs IH]; intros sc s H; simpl;
    [split; [done|apply objs_kept_refl]|].
  destruct (objs_kept_call_executionHandler P h t ctx k sc s H) as [H1 H2].
  destruct (call_executionHandler h t ctx k sc s) as [[o sc1] s1]. simpl in H1, H2.
  destruct o as [e|f]; [done|].
  destruct (IH sc1 s1 H1) as [H3 H4].
  destruct (map_executionHandlers hs t ctx k sc1 s1) as [[r sc2] s2]. simpl in *.
  split; [done|]. by eapply objs_kept_trans.
Qed.

Lemma objs_kept_call_errorHandler P h error sc s :
  script_writes_within P sc →
  script_writes_within P (call_errorHandler h error sc s).1 ∧
  objs_kept P s (call_errorHandler h error sc s).2.
Proof.
  intros H. unfold call_errorHandler. destruct h.
  - destruct (objs_kept_call_user P sc (log (EvErrorCall (UserErrorHandler f) error) s) H)
      as [H1 H2].
    destruct (call_user sc (log (EvErrorCall (UserErrorHandler f) error) s)) as [[o sc1] s1].
    by destruct o.
  - by apply (objs_kept_error_bridge P _ (VErrorContext error) sc (log _ s)).
Qed.

Lemma objs_kept_forEach_errorHandlers P hs error sc s :
  script_writes_within P sc →
  script_writes_within P (forEach_errorHandlers hs error sc s).1 ∧
  objs_kept P s (forEach_errorHandlers hs error sc s).2.
Proof.
  revert sc s. induction hs as [|h hs IH]; intros sc s H; simpl;
    [split; [done|apply objs_kept_refl]|].
  destruct (objs_kept_call_errorHandler P h error sc s H) as [H1 H2].
  destruct (call_errorHandler h error sc s) as [sc1 s1]. simpl in H1, H2.
  destruct (IH sc1 s1 H1) as [H3 H4]. split; [done|]. by eapply objs_kept_trans.
Qed.

Lemma objs_kept_handleError P t error sc s :
  script_writes_within P sc → objs_kept P s (handleError t error sc s).2.
Proof.
  intros H. unfold handleError.
  destruct (objs_kept_forEach_errorHandlers P
              (getErrorHandlers (set_status t Failed s)) error sc
              (set_status t Failed s) H) as [_ H2].
  destruct (forEach_errorHandlers _ error sc (set_status t Failed s)) as [sc1 s2].
  simpl in H2. destruct (negb (isStopped t s)); simpl; [|done].
  eapply objs_kept_trans; [done|]. apply objs_kept_same, objs_executeTask.
Qed.

Lemma objs_kept_setImmediate_callback P imm sc s :
  status_of s (i_task imm) ≠ Some Stopped → script_writes_within P sc →
  objs_kept P (with_objs (objs s ++ [default ∅ (objs s !! i_data imm)]) s)
    (setImmediate_callback imm sc s).2.
Proof.
  intros Hs Hsc. unfold setImmediate_callback.
  rewrite (proj2 (isStopped_false _ _) Hs).
  match goal with |- context [map_executionHandlers ?hs ?t ?c ?k ?sc ?s4] =>
    destruct (objs_kept_map_executionHandlers P hs t c k sc s4 Hsc) as [H1 H2];
    destruct (map_executionHandlers hs t c k sc s4) as [[r sc1] s5] end.
  simpl in H1, H2. destruct r as [fates|error]; simpl.
  - exact H2.
  - eapply objs_kept_trans; [exact H2|]. by apply objs_kept_handleError.
Qed.



(** ** No execute observer *)

Lemma reachable_execute_valid s t ctx k :
  reachable s → EvExecute t ctx k ∈ trace s → t < length (recs s).
Proof.
  induction 1 as [| |l s s' Hr IH Hstep]; simpl.
  - by intros ?%elem_of_nil.
  - by intros ?%elem_of_nil.
  - pose proof (Ext_step _ _ _ Hstep) as HE. pose proof (ext_length HE) as Hlen.
    destruct (ext_trace _ _ _ HE) as (new & -> & Hnew).
    intros [Hin|Hin]%elem_of_app.
    + apply Hnew in Hin. simpl in Hin.
      pose proof (step_task_active _ _ _ _ Hstep Hin) as Ha.
      apply (wf_act_valid _ (reachable_WF _ Hr)) in Ha. lia.
    + specialize (IH Hin). lia.
Qed.

Lemma executeTask_no_observer t s : _executionHandlers s = [] → executeTask t s = s.
Proof. intros H. unfold executeTask, getExecutionHandlers. by rewrite H. Qed.

(** C9. With no execute observer subscribed, [executeTask] does nothing, and
    [enqueueTask] only draws the id, appends the [Queued] record and returns
    the id: no callback is scheduled and nothing is logged. Whatever
    happens afterwards, the record stays in the backing list with nothing
    scheduled for it, its status is [Queued] (or [Stopped], after a stop), and
    no "execute" event is ever emitted for it. *)
Theorem enqueueTask_without_execute_observer s o :
  reachable s → _executionHandlers s = [] →
  let t := length (recs s) in
  let s1 := (enqueueTask o s).2 in
  (∀ t' s0, _executionHandlers s0 = [] → executeTask t' s0 = s0) ∧
  (enqueueTask o s).1 = {| ctx_id := String (_nextId s) |} ∧
  s1 = with_tasksInQueue (_tasksInQueue s ++ [t])
         (with_recs (recs s ++ [{| id := String (_nextId s); options := o; status := Queued |}])
            (with_nextId (js_incr (_nextId s)) s)) ∧
  (∀ ls s2, run ls s1 = Some s2 →
     t ∈ _tasksInQueue s2 ∧ (t ∉ activities s2) ∧
     (status_of s2 t = Some Queued ∨ status_of s2 t = Some Stopped) ∧
     ∀ ctx k, EvExecute t ctx k ∉ trace s2).
Proof.
  intros Hr Hh t s1.
  assert (s1 = with_tasksInQueue (_tasksInQueue s ++ [t])
         (with_recs (recs s ++ [{| id := String (_nextId s); options := o; status := Queued |}])
            (with_nextId (js_incr (_nextId s)) s))) as E.
  { unfold s1, enqueueTask. lazy zeta. cbn [snd]. by apply executeTask_no_observer. }
  split_and!; [apply executeTask_no_observer|done|done|].
  intros ls s2 Hrun.
  assert (reachable s1) as Hr1.
  { by apply (reachable_step (LUser [EEnqueueTask o]) s). }
  pose proof (reachable_WF _ Hr) as Hwf.
  assert (t ∉ activities s1) as Hn.
  { rewrite E. change (activities _) with (activities s).
    intros Hin%(wf_act_valid _ Hwf). unfold t in Hin. lia. }
  assert (status_of s1 t = Some Queued) as Hs.
  { rewrite E. apply (status_of_alloc_new (with_nextId (js_incr (_nextId s)) s)). }
  destruct (run_idle ls s1 s2 t (reachable_WF _ Hr1) Hrun) as (Hst & Hn2 & Hq & Htr);
    [by eapply status_of_lt|done|].
  split_and!.
  - apply Hq; [|by rewrite Hs]. rewrite E. simpl. apply elem_of_app. right. by left.
  - done.
  - rewrite Hs in Hst. destruct Hst as [->|[-> _]]; auto.
  - intros ctx k Hin. apply Htr in Hin. rewrite E in Hin. simpl in Hin.
    apply (reachable_execute_valid _ _ _ _ Hr) in Hin. unfold t in Hin. lia.
Qed.

Lemma enqueueTask_without_execute_observer_witness :
  reachable new_MemoryQueueStorage ∧ _executionHandlers new_MemoryQueueStorage = [] ∧
  (enqueueTask sample_options new_MemoryQueueStorage).1 =
    {| ctx_id := "-9007199254740991" |} ∧
  (∀ ls s2, run ls (enqueueTask sample_options new_MemoryQueueStorage).2 = Some s2 →
     0 ∈ _tasksInQueue s2 ∧ (0 ∉ activities s2) ∧
     (status_of s2 0 = Some Queued ∨ status_of s2 0 = Some Stopped) ∧
     ∀ ctx k, EvExecute 0 ctx k ∉ trace s2).
Proof.
  destruct (enqueueTask_without_execute_observer new_MemoryQueueStorage sample_options
              reachable_storage eq_refl) as (_ & H2 & _ & H4).
  split_and!; [constructor|reflexivity|by vm_compute|exact H4].
Defined.

(** ** The execute bridge and a key that is not registered *)

Lemma execute_bridge_unregistered ctx taskKey sc s :
  property_is_function (Queue.read_task (QueueObject._tasks (queue s)) taskKey) = false →
  execute_bridge ctx taskKey sc s = (Returns Fulfils, sc, s).
Proof. intros H. unfold execute_bridge. by rewrite H. Qed.

(** C10, the code at the failing input. Nothing is registered with the new
    dispatcher, but the registry is a plain object and the key "valueOf" reads
    as [Object.prototype.valueOf]. The bridge calls it, it throws a
    [TypeError], and the attempt fails: the record is [Failed] and stays in
    the backing list, the error observers are notified, the next attempt is
    scheduled, and so on without end (three attempts in three turns). *)
Theorem inherited_key_is_called_and_retried :
  QueueObject._tasks (queue inherited_state) = ∅ ∧
  Queue.read_task (QueueObject._tasks (queue inherited_state)) "valueOf" =
    Inherited OP_valueOf ∧
  execute_bridge 1 "valueOf" [] inherited_state =
    (Throws (VError "TypeError" "Cannot convert undefined or null to object"), [],
     inherited_state) ∧
  (∃ s1, step (LImmediate []) inherited_state = Some s1 ∧
         status_of s1 0 = Some Failed ∧ _tasksInQueue s1 = [0] ∧ inflight s1 = [] ∧
         error_calls (trace s1) =
           [(ErrorBridge, VError "TypeError" "Cannot convert undefined or null to object")] ∧
         immediates s1 = immediates inherited_state) ∧
  (∃ s3, run [LImmediate []; LImmediate []; LImmediate []] inherited_state = Some s3 ∧
         executes (trace s3) = [(0, 3, "valueOf"); (0, 2, "valueOf"); (0, 1, "valueOf")] ∧
         status_of s3 0 = Some Failed ∧ i_task <$> immediates s3 = [0]).
Proof.
  split_and!; try (by vm_compute).
  - eexists. split; [by vm_compute|]. split_and!; by vm_compute.
  - eexists. split; [by vm_compute|]. split_and!; by vm_compute.
Qed.

(** X22. For a key that does not read as a function (it holds no function and
    names no function of [Object.prototype]; the registry has its original
    prototype) the execute bridge returns [undefined]: it calls no user
    function (the script is untouched), throws nothing and changes nothing.
    When the bridge is the only execute observer, the attempt of a record with
    such a key emits the "execute" event, delivers it to the bridge, and is
    left pending with one fulfilled promise; its settlement marks the record
    [Succeded] and the cleanup sweep removes it from the backing list; no
    "error" event is delivered. *)
Theorem unregistered_key_is_swallowed s imm rest sc sc' :
  immediates s = imm :: rest → i_handlers imm = [ExecuteBridge] →
  Queue.prototype_intact (QueueObject._tasks (queue s)) →
  property_is_function (Queue.read_task (QueueObject._tasks (queue s)) (i_key imm)) = false →
  i_task imm < length (recs s) → status_of s (i_task imm) ≠ Some Stopped →
  let t := i_task imm in
  let ctx := length (objs s) in
  execute_bridge ctx (i_key imm) sc s = (Returns Fulfils, sc, s) ∧
  ∃ s1 s2,
    step (LImmediate sc) s = Some s1 ∧
    inflight s1 = inflight s ++ [{| a_task := t; a_results := [Fulfils] |}] ∧
    trace s1 = EvExecuteCall ExecuteBridge t ctx :: EvExecute t ctx (i_key imm) :: trace s ∧
    status_of s1 t = Some Running ∧
    step (LSettle (length (inflight s)) AllFulfilled sc') s1 = Some s2 ∧
    status_of s2 t = Some Succeded ∧ (t ∉ _tasksInQueue s2) ∧
    trace s2 = trace s1 ∧ error_calls (trace s2) = error_calls (trace s).
Proof.
  intros Hi Hh _ Hk Hv Hs t ctx. split; [by apply execute_bridge_unregistered|].
  set (s0 := with_immediates rest s).
  set (s4 := log (EvExecute t ctx (i_key imm))
               (set_status t Running
                  (with_objs (objs s ++ [default ∅ (objs s !! i_data imm)])
                     (set_status t Queued s0)))).
  set (s1 := with_inflight (inflight s ++ [{| a_task := t; a_results := [Fulfils] |}])
               (log (EvExecuteCall ExecuteBridge t ctx) s4)).
  assert (setImmediate_callback imm sc s0 = (sc, s1)) as Hcb.
  { unfold setImmediate_callback.
    rewrite (proj2 (isStopped_false (i_task imm) s0)) by done.
    rewrite Hh. simpl. fold t. fold ctx. unfold call_executionHandler.
    rewrite execute_bridge_unregistered by done. done. }
  assert (length (recs s1) = length (recs s)) as Hlen.
  { simpl. by rewrite !length_alter. }
  exists s1, (then_callback t (with_inflight (delete (length (inflight s)) (inflight s1)) s1)).
  split_and!.
  - unfold step. rewrite Hi. fold s0. by rewrite Hcb.
  - done.
  - done.
  - apply (status_of_set_status_eq _ t Running). simpl. by rewrite length_alter.
  - unfold step, settle.
    assert (inflight s1 !! length (inflight s) =
              Some {| a_task := t; a_results := [Fulfils] |}) as ->.
    { unfold s1. simpl. rewrite lookup_app_r by done. by rewrite Nat.sub_diag. }
    cbn [a_results a_task]. by rewrite decide_True by (by repeat constructor).
  - unfold then_callback, cleanupTasksInQueue.
    apply (status_of_set_status_eq _ t Succeded). simpl. by rewrite !length_alter.
  - unfold then_callback, cleanupTasksInQueue. simpl.
    intros [Hn _]%list_elem_of_filter. apply Hn.
    apply (status_of_set_status_eq _ t Succeded). simpl. by rewrite !length_alter.
  - done.
  - done.
Qed.

Lemma unregistered_key_is_swallowed_witness :
  ∃ s1 s2,
    step (LImmediate throwing_script) ghost_state = Some s1 ∧
    step (LSettle 0 AllFulfilled []) s1 = Some s2 ∧
    status_of s2 0 = Some Succeded ∧ (0 ∉ _tasksInQueue s2) ∧
    error_calls (trace s2) = [].
Proof.
  destruct (unregistered_key_is_swallowed ghost_state
              {| i_task := 0; i_handlers := [ExecuteBridge]; i_data := 0; i_key := "ghost" |}
              [] throwing_script []) as (_ & s1 & s2 & H1 & _ & _ & _ & H5 & H6 & H7 & _ & H9);
    [reflexivity|reflexivity|reflexivity|reflexivity|vm_compute; lia
    |vm_compute; discriminate|].
  exists s1, s2. split_and!; assumption.
Defined.

(** * Further properties of the code *)

(** ** The observer lists *)

(** X2. Observers are never removed or reordered: along every run the list of
    execute observers and the list of error observers only grow at the end. *)
Theorem observer_lists_only_grow ls s s' :
  run ls s = Some s' →
  _executionHandlers s `prefix_of` _executionHandlers s' ∧
  _errorHandlers s `prefix_of` _errorHandlers s'.
Proof.
  revert s. induction ls as [|l ls IH]; intros s; simpl.
  - by intros [= <-].
  - destruct (step l s) as [s1|] eqn:E; [|done]. intros [H1 H2]%IH.
    pose proof (Ext_step _ _ _ E) as HE. split.
    + etrans; [apply (ext_executionHandlers _ _ _ HE)|done].
    + etrans; [apply (ext_errorHandlers _ _ _ HE)|done].
Qed.

Lemma observer_lists_only_grow_witness :
  _executionHandlers new_MemoryQueueStorage `prefix_of` _executionHandlers sample_state ∧
  _errorHandlers new_MemoryQueueStorage `prefix_of` _errorHandlers sample_state.
Proof.
  apply (observer_lists_only_grow sample_run). by vm_compute.
Defined.

(** ** cleanupTasksInQueue *)

(** X3. The cleanup sweep keeps exactly the records of the backing list that
    are not [Succeded], in their order; it touches nothing else (the record
    objects stay in the heap); and sweeping twice is sweeping once. *)
Theorem cleanup_keeps_the_unfinished s :
  (∀ t, t ∈ _tasksInQueue (cleanupTasksInQueue s) ↔
        t ∈ _tasksInQueue s ∧ status_of s t ≠ Some Succeded) ∧
  _tasksInQueue (cleanupTasksInQueue s) `sublist_of` _tasksInQueue s ∧
  cleanupTasksInQueue s = with_tasksInQueue (_tasksInQueue (cleanupTasksInQueue s)) s ∧
  cleanupTasksInQueue (cleanupTasksInQueue s) = cleanupTasksInQueue s.
Proof.
  unfold cleanupTasksInQueue. simpl. split_and!.
  - intros t. rewrite list_elem_of_filter. tauto.
  - apply sublist_filter.
  - done.
  - unfold with_tasksInQueue. simpl. f_equal.
    change (status_of _) with (status_of s).
    rewrite list_filter_filter. apply list_filter_iff. tauto.
Qed.

(** ** stopAllEnqueuedTasks *)

Lemma fold_stop_fields l s :
  let s' := foldl (λ s' t, set_status t Stopped s') s l in
  objs s' = objs s ∧ _errorHandlers s' = _errorHandlers s ∧
  _executionHandlers s' = _executionHandlers s ∧ _nextId s' = _nextId s ∧
  queue s' = queue s ∧
  ∀ t r, recs s !! t = Some r →
    ∃ r', recs s' !! t = Some r' ∧ id r' = id r ∧ options r' = options r.
Proof.
  revert s. induction l as [|t0 l IH]; intros s; simpl.
  - split_and!; try done. intros t r ?. by exists r.
  - destruct (IH (set_status t0 Stopped s)) as (-> & -> & -> & -> & -> & Hr).
    split_and!; try done. intros t r Hl.
    destruct (recs_set_status_lookup s t0 Stopped t r Hl) as (r1 & H1 & Hi1 & Ho1).
    destruct (Hr t r1 H1) as (r2 & H2 & Hi2 & Ho2).
    exists r2. split_and!; [done|congruence..].
Qed.

(** X4. [stopAllEnqueuedTasks] only writes statuses: a record becomes [Stopped]
    exactly when it is in the backing list and [Queued], [Running] or
    [Failed]; every other status, the ids and options, the backing list, the
    scheduled callbacks, the pending attempts, the observers and the counter
    are as before (nothing is cancelled). Calling it twice gives the statuses
    of calling it once. *)
Theorem stopAll_only_writes_statuses s :
  let s' := stopAllEnqueuedTasks s in
  (∀ t, status_of s' t =
          if decide (t ∈ _tasksInQueue s ∧ stoppable s t) then Some Stopped
          else status_of s t) ∧
  (∀ t r, recs s !! t = Some r →
     ∃ r', recs s' !! t = Some r' ∧ id r' = id r ∧ options r' = options r) ∧
  length (recs s') = length (recs s) ∧
  _tasksInQueue s' = _tasksInQueue s ∧ immediates s' = immediates s ∧
  inflight s' = inflight s ∧ objs s' = objs s ∧ _nextId s' = _nextId s ∧
  _executionHandlers s' = _executionHandlers s ∧ _errorHandlers s' = _errorHandlers s ∧
  (∀ t, status_of (stopAllEnqueuedTasks s') t = status_of s' t).
Proof.
  intros s'. destruct (stopAll_spec s) as (Hq & Hi & Hf & Ht & Hl & Hst).
  fold s' in Hq, Hi, Hf, Ht, Hl, Hst.
  assert (objs s' = objs s ∧ _errorHandlers s' = _errorHandlers s ∧
          _executionHandlers s' = _executionHandlers s ∧ _nextId s' = _nextId s ∧
          queue s' = queue s ∧
          ∀ t r, recs s !! t = Some r →
            ∃ r', recs s' !! t = Some r' ∧ id r' = id r ∧ options r' = options r)
    as (Ho & He & Hx & Hn & _ & Hr).
  { unfold s', stopAllEnqueuedTasks.
    match goal with |- context [foldl _ ?s0 ?l] =>
      destruct (fold_stop_fields l s0) as (-> & -> & -> & -> & -> & Hr) end.
    split_and!; done. }
  split_and!; try done.
  intros t. destruct (stopAll_spec s') as (_ & _ & _ & _ & _ & ->).
  case_decide as H; [|done]. exfalso. destruct H as [Hin H]. rewrite Hq in Hin.
  unfold stoppable in H. rewrite Hst in H.
  case_decide as Hd; [by destruct H as [?|[?|?]]|].
  apply Hd. by split.
Qed.

(** ** enqueueRemainingTasks *)

Lemma omap_ext_in {A B} (f g : A → option B) (l : list A) :
  (∀ x, x ∈ l → f x = g x) → omap f l = omap g l.
Proof.
  induction l as [|x l IH]; intros H; [done|].
  change (omap f (x :: l)) with (match f x with Some y => y :: omap f l | None => omap f l end).
  change (omap g (x :: l)) with (match g x with Some y => y :: omap g l | None => omap g l end).
  rewrite (H x) by (by left). rewrite IH; [done|]. intros ? ?. apply H. by right.
Qed.

Lemma executeTask_fields t s :
  _tasksInQueue (executeTask t s) = _tasksInQueue s ∧
  inflight (executeTask t s) = inflight s ∧ trace (executeTask t s) = trace s ∧
  _nextId (executeTask t s) = _nextId s ∧ objs (executeTask t s) = objs s ∧
  _executionHandlers (executeTask t s) = _executionHandlers s ∧
  _errorHandlers (executeTask t s) = _errorHandlers s ∧
  queue (executeTask t s) = queue s.
Proof. by destruct (executeTask_cases t s) as [->|(r & _ & _ & ->)]. Qed.

Lemma executeTask_immediates t s r :
  recs s !! t = Some r →
  immediates (executeTask t s) =
    immediates s ++
      (if decide (_executionHandlers s = []) then []
       else [{| i_task := t; i_handlers := _executionHandlers s;
                i_data := data (options r); i_key := key (options r) |}]).
Proof.
  intros Hr. unfold executeTask, getExecutionHandlers. rewrite Hr.
  destruct (_executionHandlers s); simpl; [by rewrite app_nil_r|done].
Qed.

Lemma enqueueRemaining_fold_spec l s :
  (∀ t, t ∈ l → is_Some (recs s !! t)) →
  let step := λ s' t,
    match recs s' !! t with
    | Some r => executeTask (length (recs s'))
                  (with_recs (recs s' ++
                     [{| id := id r; options := options r; status := status r |}]) s')
    | None => s'
    end in
  let s' := foldl step s l in
  recs s' = recs s ++ omap (λ t, recs s !! t) l ∧
  _tasksInQueue s' = _tasksInQueue s ∧ inflight s' = inflight s ∧
  trace s' = trace s ∧ _nextId s' = _nextId s ∧ objs s' = objs s ∧
  _executionHandlers s' = _executionHandlers s ∧ _errorHandlers s' = _errorHandlers s ∧
  immediates s `prefix_of` immediates s' ∧
  i_task <$> immediates s' =
    (i_task <$> immediates s) ++
      (if decide (_executionHandlers s = []) then []
       else seq (length (recs s)) (length l)).
Proof.
  intros Hl step. revert s Hl. induction l as [|t l IH]; intros s Hl; simpl.
  - rewrite !app_nil_r. split_and!; try done. by case_decide; rewrite app_nil_r.
  - destruct (Hl t) as [r Hr]; [by left|].
    assert (step s t = executeTask (length (recs s))
              (with_recs (recs s ++
                 [{| id := id r; options := options r; status := status r |}]) s)) as E
      by (unfold step; by rewrite Hr).
    rewrite E. set (copy := {| id := id r; options := options r; status := status r |}).
    set (s1 := executeTask (length (recs s)) (with_recs (recs s ++ [copy]) s)).
    assert (copy = r) as Hcopy by (by destruct r).
    assert (recs s1 = recs s ++ [r]) as Hr1
      by (unfold s1; rewrite recs_executeTask; simpl; by rewrite Hcopy).
    assert (∀ t', t' ∈ l → recs s1 !! t' = recs s !! t') as Hsame.
    { intros t' Hin. destruct (Hl t') as [r' Hr']; [by right|].
      rewrite Hr1, Hr'. by apply lookup_app_l_Some. }
    destruct (IH s1) as (H1 & H2 & H3 & H4 & H5 & H6 & H7 & H8 & H9 & H10).
    { intros t' Hin. rewrite Hsame by done. apply Hl. by right. }
    assert (omap (λ t', recs s1 !! t') l = omap (λ t', recs s !! t') l) as Homap.
    { apply omap_ext_in. intros t' Hin. by apply Hsame. }
    assert (_tasksInQueue s1 = _tasksInQueue s ∧ inflight s1 = inflight s ∧
            trace s1 = trace s ∧ _nextId s1 = _nextId s ∧ objs s1 = objs s ∧
            _executionHandlers s1 = _executionHandlers s ∧
            _errorHandlers s1 = _errorHandlers s ∧
            immediates s1 = immediates s ++
              (if decide (_executionHandlers s = []) then []
               else [{| i_task := length (recs s); i_handlers := _executionHandlers s;
                        i_data := data (options r); i_key := key (options r) |}]))
      as (E2 & E3 & E4 & E5 & E6 & E7 & E8 & E9).
    { unfold s1.
      destruct (executeTask_fields (length (recs s)) (with_recs (recs s ++ [copy]) s))
        as (-> & -> & -> & -> & -> & -> & -> & _).
      split_and!; try done.
      rewrite (executeTask_immediates _ _ copy); [by rewrite Hcopy|].
      simpl. rewrite lookup_app_r by done. by rewrite Nat.sub_diag. }
    rewrite Homap, Hr1 in H1.
    change (omap (λ t0, recs s !! t0) (t :: l))
      with (match recs s !! t with
            | Some y => y :: omap (λ t0, recs s !! t0) l
            | None => omap (λ t0, recs s !! t0) l
            end).
    rewrite Hr. split_and!.
    + by rewrite H1, <- (assoc_L (++)).
    + by rewrite H2.
    + by rewrite H3.
    + by rewrite H4.
    + by rewrite H5.
    + by rewrite H6.
    + by rewrite H7.
    + by rewrite H8.
    + etrans; [|done]. rewrite E9. by apply prefix_app_r.
    + rewrite H10, E9, E7, Hr1, fmap_app, length_app, <- (assoc_L (++)).
      f_equal. case_decide; [done|]. cbn [fmap list_fmap length seq].
      do 2 f_equal. lia.
Qed.

(** X5. [enqueueRemainingTasks] never touches the stored records: it appends
    one copy per [Queued] record of the backing list to the heap and, if an
    execute observer is subscribed, schedules one callback per copy, in the
    order of the backing list; the backing list, the statuses and everything
    else are as before, and the result is always the empty list. If no stored
    record is [Queued], the state is unchanged. *)
Theorem enqueueRemainingTasks_schedules_copies s :
  let l := filter (λ t, status_of s t = Some Queued) (_tasksInQueue s) in
  let s' := (enqueueRemainingTasks s).2 in
  (enqueueRemainingTasks s).1 = [] ∧
  recs s' = recs s ++ omap (λ t, recs s !! t) l ∧
  _tasksInQueue s' = _tasksInQueue s ∧ inflight s' = inflight s ∧
  trace s' = trace s ∧ _nextId s' = _nextId s ∧ objs s' = objs s ∧
  _executionHandlers s' = _executionHandlers s ∧ _errorHandlers s' = _errorHandlers s ∧
  immediates s `prefix_of` immediates s' ∧
  i_task <$> immediates s' =
    (i_task <$> immediates s) ++
      (if decide (_executionHandlers s = []) then []
       else seq (length (recs s)) (length l)) ∧
  (l = [] → s' = s).
Proof.
  intros l s'. split; [done|].
  assert (∀ t, t ∈ l → is_Some (recs s !! t)) as Hl.
  { intros t [Hs _]%list_elem_of_filter. unfold status_of in Hs.
    destruct (recs s !! t); [by eexists|done]. }
  destruct (enqueueRemaining_fold_spec l s Hl)
    as (H1 & H2 & H3 & H4 & H5 & H6 & H7 & H8 & H9 & H10).
  split_and!; try done.
  intros E. unfold s', enqueueRemainingTasks. cbn [snd]. fold l. by rewrite E.
Qed.

Lemma enqueueRemainingTasks_schedules_copies_witness :
  (enqueueRemainingTasks failed_state).2 = failed_state.
Proof.
  destruct (enqueueRemainingTasks_schedules_copies failed_state)
    as (_ & _ & _ & _ & _ & _ & _ & _ & _ & _ & _ & H).
  apply H. by vm_compute.
Defined.

(** ** Records that have succeeded *)

(** X6. A record that has succeeded is finished for good: in every later run
    its status is still [Succeded], it is not in the backing list (a later
    submission does not bring it back), nothing is scheduled for it and no
    "execute" event is emitted for it. *)
Theorem succeeded_record_is_finished s t :
  reachable s → status_of s t = Some Succeded →
  ∀ ls s', run ls s = Some s' →
    status_of s' t = Some Succeded ∧ (t ∉ _tasksInQueue s') ∧ (t ∉ activities s') ∧
    executes_of t (trace s') = executes_of t (trace s).
Proof.
  intros Hr Hs ls s' Hrun.
  pose proof (reachable_WF _ Hr) as Hwf.
  pose proof (reachable_WF _ (reachable_run _ _ _ Hr Hrun)) as Hwf'.
  assert (status_of s' t = Some Succeded) as Hs'
    by apply (succeeded_run ls s s' t Hwf Hrun Hs).
  split_and!; try done.
  - intros Hin. by destruct (wf_stored _ Hwf' _ Hin) as [_ ?].
  - by apply (wf_succeeded _ Hwf').
  - clear Hwf' Hs'. revert s Hr Hs Hwf Hrun.
    induction ls as [|l ls IH]; intros s Hr Hs Hwf; simpl.
    + by intros [= <-].
    + destruct (step l s) as [s1|] eqn:E; [|done]. intros Hrun.
      rewrite (IH s1); [|by eapply reachable_step|by eapply succeeded_step
                        |by eapply step_WF|done].
      pose proof (Ext_step _ _ _ E) as HE.
      destruct (ext_trace _ _ _ HE) as (new & -> & Hnew).
      unfold executes_of. rewrite omap_app.
      assert (step_task l s ≠ Some t) as Hne.
      { intros Ht. apply (wf_succeeded _ Hwf _ Hs). by eapply step_task_active. }
      assert (omap (λ e, match e with
                         | EvExecute t' ctx k => if decide (t' = t) then Some (ctx, k) else None
                         | _ => None end) new = []) as ->; [|done].
      clear -Hnew Hne. induction new as [|e new IH]; [done|].
      assert (event_allowed (step_task l s) e) as He by (apply Hnew; by left).
      change (omap ?f (e :: new))
        with (match f e with Some y => y :: omap f new | None => omap f new end).
      rewrite IH by (intros ? ?; apply Hnew; by right).
      destruct e; try done. simpl in He. case_decide; [congruence|done].
Qed.

Lemma done_state_reachable : reachable done_state.
Proof.
  apply (reachable_run done_run new_MemoryQueueStorage); [constructor|]. by vm_compute.
Qed.

Lemma succeeded_record_is_finished_witness :
  reachable done_state ∧ status_of done_state 0 = Some Succeded ∧
  ∀ ls s', run ls done_state = Some s' →
    status_of s' 0 = Some Succeded ∧ (0 ∉ _tasksInQueue s') ∧ (0 ∉ activities s') ∧
    executes_of 0 (trace s') = executes_of 0 (trace done_state).
Proof.
  assert (status_of done_state 0 = Some Succeded) as Hs by (by vm_compute).
  split_and!; [apply done_state_reachable|exact Hs|].
  apply (succeeded_record_is_finished done_state 0 done_state_reachable Hs).
Defined.

(** ** The success of an attempt *)

Lemma filter_ext_in {A} (P1 P2 : A → Prop)
    `{!∀ x, Decision (P1 x), !∀ x, Decision (P2 x)} (l : list A) :
  (∀ x, x ∈ l → P1 x ↔ P2 x) → filter P1 l = filter P2 l.
Proof.
  induction l as [|x l IH]; intros Hl; [done|].
  rewrite !filter_cons. rewrite IH by (intros ? ?; apply Hl; by right).
  apply decide_ext, Hl. by left.
Qed.

(** X7. When all promises of a pending attempt are fulfilled, its settlement
    marks the record [Succeded] and the sweep removes exactly that record from
    the backing list, the others keeping their order; no observer is called,
    nothing is logged, nothing is scheduled, and no other record changes. *)
Theorem success_removes_exactly_the_record s i a sc :
  reachable s → inflight s !! i = Some a →
  Forall (λ f, f = Fulfils) (a_results a) →
  ∃ s', step (LSettle i AllFulfilled sc) s = Some s' ∧
        status_of s' (a_task a) = Some Succeded ∧
        _tasksInQueue s' = filter (λ t, t ≠ a_task a) (_tasksInQueue s) ∧
        (∀ t, t ≠ a_task a → status_of s' t = status_of s t) ∧
        immediates s' = immediates s ∧ inflight s' = delete i (inflight s) ∧
        trace s' = trace s ∧ objs s' = objs s.
Proof.
  intros Hr Ha Hf. pose proof (reachable_WF _ Hr) as Hwf.
  assert (a_task a < length (recs s)) as Hv.
  { apply (wf_act_valid _ Hwf). unfold activities. apply elem_of_app. right.
    apply list_elem_of_fmap_2. by eapply list_elem_of_lookup_2. }
  eexists. split.
  { unfold step, settle. rewrite Ha. cbn [fmap option_fmap option_map].
    rewrite decide_True by done. reflexivity. }
  unfold then_callback, cleanupTasksInQueue. simpl. split_and!; try done.
  - apply (status_of_set_status_eq (with_inflight (delete i (inflight s)) s)). done.
  - apply filter_ext_in. intros t Hin. split.
    + intros Hn ->. apply Hn.
      apply (status_of_set_status_eq (with_inflight (delete i (inflight s)) s)). done.
    + intros Hne Hs.
      rewrite (status_of_set_status_ne (with_inflight (delete i (inflight s)) s)) in Hs
        by done.
      by destruct (wf_stored _ Hwf _ Hin) as [_ ?].
  - intros t Hne.
    change (status_of (set_status (a_task a) Succeded
                         (with_inflight (delete i (inflight s)) s)) t = status_of s t).
    by rewrite status_of_set_status_ne.
Qed.

Lemma success_removes_exactly_the_record_witness :
  ∃ s', step (LSettle 0 AllFulfilled [])
          (default new_MemoryQueueStorage (run (take 2 done_run) new_MemoryQueueStorage))
          = Some s' ∧
        status_of s' 0 = Some Succeded ∧ _tasksInQueue s' = [].
Proof.
  destruct (success_removes_exactly_the_record
              (default new_MemoryQueueStorage (run (take 2 done_run) new_MemoryQueueStorage))
              0 {| a_task := 0; a_results := [Fulfils] |} [])
    as (s' & H1 & H2 & H3 & _).
  - apply (reachable_run (take 2 done_run) new_MemoryQueueStorage); [constructor|].
    by vm_compute.
  - by vm_compute.
  - by repeat constructor.
  - exists s'. split_and!; [exact H1|exact H2|]. rewrite H3. by vm_compute.
Defined.

(** ** One attempt at a time *)

(** X8. In every reachable state a record has at most one scheduled callback
    or pending attempt (never both, never two), every callback and attempt
    refers to an existing record that has not succeeded, and the backing list
    holds existing records that have not succeeded. *)
Theorem one_activity_per_record s :
  reachable s →
  NoDup (activities s) ∧
  (∀ t, t ∈ activities s → t < length (recs s) ∧ status_of s t ≠ Some Succeded) ∧
  (∀ t, t ∈ _tasksInQueue s → t < length (recs s) ∧ status_of s t ≠ Some Succeded).
Proof.
  intros Hwf%reachable_WF. split_and!.
  - apply (wf_act_nodup _ Hwf).
  - intros t Hin. split; [by apply (wf_act_valid _ Hwf)|].
    intros Hs. by apply (wf_succeeded _ Hwf) in Hs.
  - apply (wf_stored _ Hwf).
Qed.

Lemma one_activity_per_record_witness :
  NoDup (activities sample_state) ∧ activities sample_state = [0].
Proof.
  split; [|by vm_compute].
  apply (one_activity_per_record sample_state sample_state_reachable).
Defined.


(** ** What is written to the log *)

Lemma adds_refl P s : adds P s s.
Proof. by exists []. Qed.

Lemma adds_trans P s1 s2 s3 : adds P s1 s2 → adds P s2 s3 → adds P s1 s3.
Proof.
  intros (n1 & E1 & F1) (n2 & E2 & F2). exists (n2 ++ n1). split.
  - by rewrite E2, E1, (assoc_L (++)).
  - by apply Forall_app.
Qed.

Lemma adds_same P s s' : trace s' = trace s → adds P s s'.
Proof. intros E. by exists []. Qed.

Lemma adds_log (P : Event → Prop) e s : P e → adds P s (log e s).
Proof. intros. exists [e]. split; [done|by constructor]. Qed.

Lemma adds_weaken (P Q : Event → Prop) s s' :
  (∀ e, P e → Q e) → adds P s s' → adds Q s s'.
Proof. intros H (n & E & F). exists n. split; [done|]. by eapply Forall_impl. Qed.

Lemma omap_none {A B} (f : A → option B) (P : A → Prop) (l : list A) :
  (∀ x, P x → f x = None) → Forall P l → omap f l = [].
Proof.
  intros H. induction 1 as [|x l Hx _ IH]; [done|].
  change (omap f (x :: l)) with (match f x with Some y => y :: omap f l | None => omap f l end).
  by rewrite (H x Hx).
Qed.

Lemma trace_fold_stop l s : trace (foldl (λ s' t, set_status t Stopped s') s l) = trace s.
Proof. revert s. induction l as [|t l IH]; intros s; simpl; [done|]. by rewrite IH. Qed.

Lemma trace_enqueueRemainingTasks s : trace (enqueueRemainingTasks s).2 = trace s.
Proof.
  unfold enqueueRemainingTasks. simpl.
  generalize (filter (λ t, status_of s t = Some Queued) (_tasksInQueue s)).
  intros l. revert s. induction l as [|t l IH]; intros s; simpl; [done|].
  rewrite IH. destruct (recs s !! t); [|done]. by rewrite trace_executeTask.
Qed.

Lemma trace_enqueueTask o s : trace (enqueueTask o s).2 = trace s.
Proof. unfold enqueueTask. lazy zeta. cbn [snd]. by rewrite trace_executeTask. Qed.

Lemma adds_apply_effect e s : adds is_stop s (apply_effect e s).
Proof.
  destruct e; simpl; try (by apply adds_same).
  - apply adds_same. unfold QueueStorageBase.on.
    destruct handler; try done. by repeat case_decide.
  - apply adds_same. apply trace_enqueueTask.
  - apply adds_same. apply trace_enqueueRemainingTasks.
  - exists [EvStop (_tasksInQueue s)]. split; [|by repeat constructor].
    unfold stopAllEnqueuedTasks. by rewrite trace_fold_stop.
  - apply adds_same. unfold Queue.on. by case_decide.
  - apply adds_same. unfold Queue.enqueue. case_match; [done|].
    rewrite storage_member_queueTask. by destruct options0.
Qed.

Lemma adds_apply_effects es s : adds is_stop s (apply_effects es s).
Proof.
  unfold apply_effects. revert s. induction es as [|e es IH]; intros s; simpl.
  - apply adds_refl.
  - eapply adds_trans; [apply adds_apply_effect|apply IH].
Qed.

Lemma adds_call_user sc s : adds is_stop s (call_user sc s).2.
Proof. destruct sc as [|inv sc]; simpl; [apply adds_refl|apply adds_apply_effects]. Qed.

(** X9. The public methods are silent: whatever sequence of calls of
    [on], [enqueueTask], [enqueueRemainingTasks], [stopAllEnqueuedTasks] and
    of the dispatcher's [on], [enqueue], [register], [start] and [stop] user
    code makes, no observer and no task action is called, and nothing is
    written to the console, before the calls have returned. Of the things that
    are logged only the marks of [stopAllEnqueuedTasks] are added. *)
Theorem public_methods_call_no_observer es s :
  ∃ new, trace (apply_effects es s) = new ++ trace s ∧
         Forall is_stop new ∧
         executes new = [] ∧ execute_calls new = [] ∧ task_calls new = [] ∧
         error_calls new = [] ∧ queue_error_calls new = [].
Proof.
  destruct (adds_apply_effects es s) as (new & E & F). exists new.
  split_and!; try done;
    (eapply omap_none; [|exact F]); by intros [].
Qed.

(** ** The bridges of the dispatcher *)

Lemma queue_error_calls_app tr1 tr2 :
  queue_error_calls (tr1 ++ tr2) = queue_error_calls tr1 ++ queue_error_calls tr2.
Proof. unfold queue_error_calls. apply omap_app. Qed.

Lemma adds_error_bridge handlers error sc s :
  ∃ new, trace (error_bridge handlers error sc s).2 = new ++ trace s ∧
         Forall error_side new ∧
         queue_error_calls new = rev ((λ h, (h, error)) <$> handlers).
Proof.
  revert sc s. induction handlers as [|h hs IH]; intros sc s; simpl.
  - by exists [].
  - assert (∀ sc1 s1 new1,
              trace s1 = new1 ++ EvQueueErrorCall h error :: trace s →
              Forall error_side new1 → queue_error_calls new1 = [] →
              ∃ new, trace (error_bridge hs error sc1 s1).2 = new ++ trace s ∧
                     Forall error_side new ∧
                     queue_error_calls new = rev ((λ h, (h, error)) <$> hs) ++ [(h, error)])
      as Hrest.
    { intros sc1 s1 new1 E1 F1 Q1. destruct (IH sc1 s1) as (new & E & F & Q).
      exists (new ++ new1 ++ [EvQueueErrorCall h error]). split_and!.
      - rewrite E, E1. by rewrite <- !(assoc_L (++)).
      - rewrite !Forall_app. split_and!; [done..|by repeat constructor].
      - rewrite !queue_error_calls_app, Q, Q1. done. }
    destruct h as [| | | | | |f| |];
      try (eapply (Hrest sc _ [EvConsoleError _ _]);
           [reflexivity|by repeat constructor|done]).
    destruct (call_user sc (log (EvQueueErrorCall (VFun f) error) s)) as [[o sc1] s1] eqn:Ecall.
    pose proof (adds_call_user sc (log (EvQueueErrorCall (VFun f) error) s)) as (n & En & Fn).
    rewrite Ecall in En. simpl in En.
    assert (Forall error_side n) as Fn'.
    { eapply Forall_impl; [exact Fn|]. by intros []. }
    assert (queue_error_calls n = []) as Qn.
    { eapply omap_none; [|exact Fn]. by intros []. }
    destruct o as [e2|[|e2|]].
    + eapply (Hrest sc1 _ (EvConsoleError _ e2 :: n)); simpl; [by rewrite En| |done].
      by constructor.
    + by apply (Hrest sc1 _ n).
    + eapply (Hrest sc1 _ (EvConsoleError _ e2 :: n)); simpl; [by rewrite En| |done].
      by constructor.
    + by apply (Hrest sc1 _ n).
Qed.

(** X10. The error bridge of the dispatcher notifies every observer that was
    subscribed with [Queue.on], once each and in the order of subscription,
    with the failure it was given. An observer that throws, that returns a
    rejected promise, or that is not a function at all ([Queue.on] does not
    check) does not keep the later ones from being notified. *)
Theorem dispatcher_notifies_every_error_observer handlers error sc s :
  ∃ new, trace (error_bridge handlers error sc s).2 = new ++ trace s ∧
         queue_error_calls new = rev ((λ h, (h, error)) <$> handlers) ∧
         executes new = [] ∧ execute_calls new = [] ∧ task_calls new = [].
Proof.
  destruct (adds_error_bridge handlers error sc s) as (new & E & F & Q).
  exists new. split_and!; try done;
    (eapply omap_none; [|exact F]); by intros [].
Qed.

(** X11. The id counter stays between [Number.MIN_SAFE_INTEGER] and [2^53]
    in every reachable state: it takes no value on which the addition of 1
    would be inexact before it stops growing. *)
Theorem counter_stays_in_range s : reachable s → nextId_in_range s.
Proof.
  apply (fields_reachable nextId_in_range); try done.
  intros r s0. unfold nextId_in_range, js_incr, MIN_SAFE_INTEGER. simpl.
  case_match; lia.
Qed.

Lemma counter_stays_in_range_witness : nextId_in_range sample_state.
Proof. apply (counter_stays_in_range sample_state sample_state_reachable). Defined.

(** X12. A registered task action is never replaced or removed: once a key is
    bound to a function, it is bound to that function after every run, whatever
    [register] is called with afterwards. *)
Theorem registered_action_is_never_replaced ls s s' key f :
  run ls s = Some s' → registered key f s → registered key f s'.
Proof.
  intros Hrun. apply (fields_run (registered key f)) with (ls := ls); try done.
  intros q s0 Hq _. unfold registered. simpl. apply Hq.
Qed.

Lemma registered_action_is_never_replaced_witness :
  registered "t" 3
    (apply_effects [EQueueRegister (ArgPair ("t", VFun 4)) [];
                    EQueueRegister (ArgDict [("u", VFun 5); ("t", VFun 6)]) []]
       registered_state).
Proof.
  apply (registered_action_is_never_replaced
           [LUser [EQueueRegister (ArgPair ("t", VFun 4)) [];
                   EQueueRegister (ArgDict [("u", VFun 5); ("t", VFun 6)]) []]]
           registered_state _ "t" 3); by vm_compute.
Defined.

Lemma committed_lookup_ne es tasks key :
  Forall (λ e : string * JsValue, e.1 ≠ key) es → committed es tasks !! key = tasks !! key.
Proof.
  revert tasks. induction es as [|[k a] es IH]; intros tasks H; [done|].
  apply Forall_cons in H as [Hk H]. simpl in Hk.
  change (committed es (<[k := a]> tasks) !! key = tasks !! key).
  rewrite (IH _ H). by rewrite lookup_insert_ne.
Qed.

(** X23. A key that names a function of [Object.prototype] ("toString",
    "valueOf", "constructor", ...) cannot be registered: the registry is a
    plain object, the key reads as a function there although nothing was
    registered for it, and [register] throws "Task cannot be reset" when the
    batch reaches it. The entries before it have been written, and the
    registry still has no property of that name. *)
Theorem prototype_key_cannot_be_registered arg1 moreTasks q pre key action post m :
  passes_validation arg1 → Queue.prototype_intact (QueueObject._tasks q) →
  batch_of arg1 moreTasks = pre ++ (key, action) :: post →
  plain_keys pre → all_free pre (QueueObject._tasks q) →
  Object_prototype key = Some m → m ≠ OP_proto →
  QueueObject._tasks q !! key = None →
  Queue.register arg1 moreTasks q =
    (Throw (VError "Error" ("Task cannot be reset for key " +:+ key)),
     Queue.with_tasks (committed pre (QueueObject._tasks q)) q) ∧
  committed pre (QueueObject._tasks q) !! key = None.
Proof.
  intros Hv _ Hb Hp Hf Hm Hne Hk.
  assert (committed pre (QueueObject._tasks q) !! key = None) as Hc.
  { rewrite committed_lookup_ne; [done|].
    eapply Forall_impl; [exact Hp|]. intros e He E. simpl in He. rewrite E in He.
    congruence. }
  split; [|done].
  rewrite (register_batch _ _ _ Hv), Hb.
  rewrite (add_tasks_app pre _ (QueueObject._tasks q) (committed pre (QueueObject._tasks q)))
    by (by apply add_tasks_free).
  simpl. unfold Queue.read_task. rewrite Hc, Hm. by destruct m.
Qed.

Lemma prototype_key_cannot_be_registered_witness :
  Queue.register (ArgDict [("a", VFun 2); ("toString", VFun 3)]) [("c", VFun 4)]
    one_task_queue =
    (Throw (VError "Error" ("Task cannot be reset for key " +:+ "toString")),
     Queue.with_tasks (<["a" := VFun 2]> {[ "b" := VFun 1 ]}) one_task_queue) ∧
  (<["a" := VFun 2]> {[ "b" := VFun 1 ]} : Obj) !! "toString" = None.
Proof.
  apply (prototype_key_cannot_be_registered
           (ArgDict [("a", VFun 2); ("toString", VFun 3)]) [("c", VFun 4)] one_task_queue
           [("a", VFun 2)] "toString" (VFun 3) [("c", VFun 4)] OP_toString).
  - by repeat constructor.
  - reflexivity.
  - reflexivity.
  - by repeat constructor.
  - intros pre k a post E. destruct pre as [|e1 [|e2 pre]]; simplify_eq/=; by vm_compute.
  - reflexivity.
  - discriminate.
  - reflexivity.
Defined.

(** ** One attempt *)

Lemma executes_app tr1 tr2 : executes (tr1 ++ tr2) = executes tr1 ++ executes tr2.
Proof. unfold executes. apply omap_app. Qed.

Lemma execute_calls_app tr1 tr2 :
  execute_calls (tr1 ++ tr2) = execute_calls tr1 ++ execute_calls tr2.
Proof. unfold execute_calls. apply omap_app. Qed.

Lemma task_calls_app tr1 tr2 : task_calls (tr1 ++ tr2) = task_calls tr1 ++ task_calls tr2.
Proof. unfold task_calls. apply omap_app. Qed.

Lemma script_returns_call_user sc s :
  script_returns sc →
  script_returns (call_user sc s).1.2 ∧ ∃ f, (call_user sc s).1.1 = Returns f.
Proof.
  destruct sc as [|inv sc]; simpl.
  - intros _. split; [constructor|by eexists].
  - by intros [H1 H2]%Forall_cons.
Qed.

Lemma adds_execute_bridge ctx k sc s : adds action_side s (execute_bridge ctx k sc s).2.
Proof.
  destruct (execute_bridge_cases ctx k sc s) as [(f & _ & ->)|(o & ->)]; [|apply adds_refl].
  eapply adds_trans; [by apply (adds_log _ (EvTaskCall f k ctx))|].
  eapply adds_weaken; [|apply adds_call_user]. by intros [].
Qed.

Lemma script_returns_execute_bridge ctx k sc s :
  script_returns sc → script_returns (execute_bridge ctx k sc s).1.2.
Proof.
  intros H. destruct (execute_bridge_cases ctx k sc s) as [(f & _ & ->)|(o & ->)]; [|done].
  by apply script_returns_call_user.
Qed.

Lemma call_executionHandler_calls h t ctx k sc s :
  (∃ new, trace (call_executionHandler h t ctx k sc s).2 =
            new ++ EvExecuteCall h t ctx :: trace s ∧ Forall action_side new) ∧
  (script_returns sc →
     script_returns (call_executionHandler h t ctx k sc s).1.2 ∧
     ((∃ f, (call_executionHandler h t ctx k sc s).1.1 = Returns f) ∨ h = ExecuteBridge)).
Proof.
  unfold call_executionHandler. destruct h; split.
  - destruct (adds_call_user sc (log (EvExecuteCall (UserExecutionHandler f) t ctx) s))
      as (n & E & F).
    exists n. split; [done|]. eapply Forall_impl; [exact F|]. by intros [].
  - intros H. destruct (script_returns_call_user sc
                          (log (EvExecuteCall (UserExecutionHandler f) t ctx) s) H). auto.
  - apply adds_execute_bridge.
  - intros H. split; [by apply script_returns_execute_bridge|by right].
Qed.

Lemma map_executionHandlers_calls hs t ctx k sc s :
  ∃ new called,
    trace (map_executionHandlers hs t ctx k sc s).2 = new ++ trace s ∧
    Forall execute_side new ∧
    execute_calls new = rev ((λ h, (h, t, ctx)) <$> called) ∧
    called `prefix_of` hs ∧
    (∀ fs, (map_executionHandlers hs t ctx k sc s).1.1 = Normal fs →
           called = hs ∧ length fs = length hs) ∧
    (script_returns sc →
       script_returns (map_executionHandlers hs t ctx k sc s).1.2 ∧
       ((∃ fs, (map_executionHandlers hs t ctx k sc s).1.1 = Normal fs) ∨
        last called = Some ExecuteBridge)).
Proof.
  revert sc s. induction hs as [|h hs IH]; intros sc s; simpl.
  - exists [], []. split_and!; try done. intros fs [= <-]. done.
    intros H. split; [done|left; by eexists].
  - destruct (call_executionHandler_calls h t ctx k sc s) as [(n & En & Fn) Hret].
    destruct (call_executionHandler h t ctx k sc s) as [[o sc1] s1]. simpl in En, Hret.
    assert (Forall execute_side n) as Fn'.
    { eapply Forall_impl; [exact Fn|]. by intros []. }
    assert (execute_calls n = []) as Cn.
    { eapply omap_none; [|exact Fn]. by intros []. }
    destruct o as [e|f].
    + exists (n ++ [EvExecuteCall h t ctx]), [h]. simpl. split_and!.
      * by rewrite En, <- (assoc_L (++)).
      * apply Forall_app. split; [done|by repeat constructor].
      * by rewrite execute_calls_app, Cn.
      * by apply prefix_cons, prefix_nil.
      * done.
      * intros H. destruct (Hret H) as [H1 [[f Hf]| ->]]; [done|]. split; [done|by right].
    + destruct (IH sc1 s1) as (new & called & E & F & C & Pre & HN & HR).
      destruct (map_executionHandlers hs t ctx k sc1 s1) as [[r sc2] s2].
      simpl in E, HN, HR.
      exists (new ++ n ++ [EvExecuteCall h t ctx]), (h :: called). simpl. split_and!.
      * rewrite E, En. by rewrite <- !(assoc_L (++)).
      * rewrite !Forall_app. split_and!; [done..|by repeat constructor].
      * rewrite !execute_calls_app, C, Cn. done.
      * by apply prefix_cons.
      * destruct r as [fs'|]; [|done]. intros fs [= <-].
        destruct (HN fs' eq_refl) as [-> Hl]. simpl. by rewrite Hl.
      * intros H. destruct (Hret H) as [H1 _]. destruct (HR H1) as [H2 [[fs Hfs]|HL]].
        -- split; [done|]. left. rewrite Hfs. by eexists.
        -- split; [done|]. right. rewrite last_cons. by rewrite HL.
Qed.

Lemma adds_call_errorHandler h error sc s :
  adds error_side s (call_errorHandler h error sc s).2.
Proof.
  unfold call_errorHandler.
  eapply adds_trans; [by apply (adds_log _ (EvErrorCall h error))|].
  destruct h.
  - pose proof (adds_call_user sc (log (EvErrorCall (UserErrorHandler f) error) s)) as H.
    eapply (adds_weaken _ error_side) in H; [|by intros []].
    destruct (call_user sc (log (EvErrorCall (UserErrorHandler f) error) s)) as [[o sc1] s1].
    simpl in H. destruct o; simpl; [|done].
    eapply adds_trans; [exact H|]. by apply adds_log.
  - destruct (adds_error_bridge (QueueObject._errorHandlers
                                   (queue (log (EvErrorCall ErrorBridge error) s)))
                (VErrorContext error) sc (log (EvErrorCall ErrorBridge error) s))
      as (n & E & F & _).
    by exists n.
Qed.

Lemma adds_forEach_errorHandlers hs error sc s :
  adds error_side s (forEach_errorHandlers hs error sc s).2.
Proof.
  revert sc s. induction hs as [|h hs IH]; intros sc s; simpl; [apply adds_refl|].
  pose proof (adds_call_errorHandler h error sc s) as H.
  destruct (call_errorHandler h error sc s) as [sc1 s1].
  eapply adds_trans; [exact H|apply IH].
Qed.

Lemma adds_handleError t error sc s : adds error_side s (handleError t error sc s).2.
Proof.
  unfold handleError.
  pose proof (adds_forEach_errorHandlers (getErrorHandlers (set_status t Failed s)) error sc
                (set_status t Failed s)) as H.
  destruct (forEach_errorHandlers _ error sc (set_status t Failed s)) as [sc1 s2].
  simpl in H. destruct H as (n & E & F). exists n.
  destruct (negb (isStopped t s)); simpl; by rewrite ?trace_executeTask.
Qed.

Lemma setImmediate_callback_log imm sc s :
  isStopped (i_task imm) s = false →
  ∃ new_h new_m called,
    trace (setImmediate_callback imm sc s).2 =
      new_h ++ new_m ++ EvExecute (i_task imm) (length (objs s)) (i_key imm) :: trace s ∧
    Forall error_side new_h ∧ Forall execute_side new_m ∧
    execute_calls new_m = rev ((λ h, (h, i_task imm, length (objs s))) <$> called) ∧
    called `prefix_of` i_handlers imm ∧
    (script_returns sc →
       (called = i_handlers imm ∧ new_h = []) ∨ last called = Some ExecuteBridge).
Proof.
  intros Hs. unfold setImmediate_callback. rewrite Hs. lazy zeta.
  match goal with
  | |- context [map_executionHandlers ?hs ?t ?ctx ?k ?sc0 ?s0] =>
      destruct (map_executionHandlers_calls hs t ctx k sc0 s0)
        as (new & called & E & F & C & Pre & HN & HR);
      destruct (map_executionHandlers hs t ctx k sc0 s0) as [[r sc1] s5]
  end.
  simpl in E, C, HN, HR. destruct r as [fates|error].
  - exists [], new, called. simpl. split_and!; try done.
    intros _. left. by destruct (HN fates eq_refl) as [-> _].
  - destruct (adds_handleError (i_task imm) error sc1 s5) as (n & En & Fn).
    exists n, new, called. split_and!; try done.
    + by rewrite En, E.
    + intros H. destruct (HR H) as [_ [[fs Hfs]|HL]]; [done|by right].
Qed.

Lemma executes_error_side new : Forall error_side new → executes new = [].
Proof. intros F. unfold executes. eapply omap_none; [|exact F]. by intros []. Qed.

Lemma executes_execute_side new : Forall execute_side new → executes new = [].
Proof. intros F. unfold executes. eapply omap_none; [|exact F]. by intros []. Qed.


Lemma task_calls_error_side new : Forall error_side new → task_calls new = [].
Proof. intros F. unfold task_calls. eapply omap_none; [|exact F]. by intros []. Qed.

Lemma task_calls_is_stop new : Forall is_stop new → task_calls new = [].
Proof. intros F. unfold task_calls. eapply omap_none; [|exact F]. by intros []. Qed.

Lemma error_calls_is_stop new : Forall is_stop new → error_calls new = [].
Proof. intros F. unfold error_calls. eapply omap_none; [|exact F]. by intros []. Qed.

Lemma attempt_log imm sc s :
  isStopped (i_task imm) s = false →
  ∃ new, trace (setImmediate_callback imm sc s).2 = new ++ trace s ∧
         executes new = [(i_task imm, length (objs s), i_key imm)].
Proof.
  intros Hs.
  destruct (setImmediate_callback_log imm sc s Hs)
    as (new_h & new_m & called & E & Fh & Fm & _).
  exists (new_h ++ new_m ++ [EvExecute (i_task imm) (length (objs s)) (i_key imm)]).
  split.
  - rewrite E. by rewrite <- !(assoc_L (++)).
  - by rewrite !executes_app, (executes_error_side new_h), (executes_execute_side new_m).
Qed.



(** ** Context objects *)

Lemma executes_is_stop new : Forall is_stop new → executes new = [].
Proof. intros F. unfold executes. eapply omap_none; [|exact F]. by intros []. Qed.

Lemma script_writes_within_True sc : script_writes_within (λ _, True) sc.
Proof.
  unfold script_writes_within. apply Forall_forall. intros inv _.
  apply Forall_forall. intros e _. by destruct e.
Qed.

Lemma step_executes l s s' :
  step l s = Some s' →
  ∃ new, trace s' = new ++ trace s ∧
    (executes new = [] ∨
     ∃ t k, executes new = [(t, length (objs s), k)] ∧ length (objs s) < length (objs s')).
Proof.
  destruct l as [es|sc|i how sc]; simpl.
  - intros [= <-]. destruct (adds_apply_effects es s) as (new & E & F).
    exists new. split; [done|]. left. by apply executes_is_stop.
  - destruct (immediates s) as [|imm rest]; [done|]. intros [= <-].
    destruct (isStopped (i_task imm) (with_immediates rest s)) eqn:Hs.
    + exists []. split; [|by left]. unfold setImmediate_callback. by rewrite Hs.
    + destruct (attempt_log imm sc (with_immediates rest s) Hs) as (new & E & X).
      exists new. split; [done|]. right. exists (i_task imm), (i_key imm). split; [done|].
      apply isStopped_false in Hs.
      destruct (objs_kept_setImmediate_callback (λ _, True) imm sc (with_immediates rest s)
                  Hs (script_writes_within_True sc)) as [Hl _].
      simpl in Hl. rewrite length_app in Hl. simpl in Hl. lia.
  - unfold settle. destruct (inflight s !! i) as [a|]; [|done].
    destruct how as [|j]; simpl.
    + destruct (decide (Forall (λ f, f = Fulfils) (a_results a))); [|done].
      simpl. intros [= <-]. exists []. split; [done|by left].
    + destruct (a_results a !! j) as [[|error|]|]; try done. simpl. intros [= <-].
      destruct (adds_handleError (a_task a) error sc (with_inflight (delete i (inflight s)) s))
        as (new & E & F).
      exists new. split; [done|]. left. by apply executes_error_side.
Qed.

(** X14. No context object is handed out twice: in every reachable state the
    context objects of the "execute" events emitted so far (first attempts
    and retries, of all records) are pairwise different objects of the heap. *)
Theorem contexts_are_never_shared s :
  reachable s →
  NoDup (contexts (trace s)) ∧ ∀ c, c ∈ contexts (trace s) → c < length (objs s).
Proof.
  induction 1 as [| |l s s' Hr [IH1 IH2] Hstep].
  - split; [constructor|]. by intros c ?%elem_of_nil.
  - split; [constructor|]. by intros c ?%elem_of_nil.
  - pose proof (ext_objs _ _ _ (Ext_step _ _ _ Hstep)) as Hl.
    destruct (step_executes l s s' Hstep) as (new & E & [X|(t & k & X & Hlt)]);
      unfold contexts; rewrite E, executes_app, X; simpl.
    + split; [done|]. intros c Hc. apply IH2 in Hc. lia.
    + split.
      * constructor; [|done]. intros Hc. apply IH2 in Hc. lia.
      * intros c [->|Hc]%elem_of_cons; [done|]. apply IH2 in Hc. lia.
Qed.

Lemma contexts_are_never_shared_witness :
  NoDup (contexts (trace sample_state)) ∧ contexts (trace sample_state) = [1].
Proof.
  split; [|by vm_compute].
  apply (contexts_are_never_shared sample_state sample_state_reachable).
Defined.

(** ** Objects of the user *)

Lemma objs_kept_alloc P x s : objs_kept P s (with_objs (objs s ++ [x]) s).
Proof.
  split; simpl; [rewrite length_app; lia|].
  intros l Hl _. by rewrite lookup_app_l.
Qed.

Lemma objs_kept_step P l s s' :
  step l s = Some s' → label_writes_within P l → objs_kept P s s'.
Proof.
  destruct l as [es|sc|i how sc]; simpl.
  - intros [= <-]. apply objs_kept_apply_effects.
  - destruct (immediates s) as [|imm rest]; [done|]. intros [= <-] Hsc.
    destruct (isStopped (i_task imm) (with_immediates rest s)) eqn:Hs.
    + unfold setImmediate_callback. rewrite Hs. by apply objs_kept_same.
    + apply isStopped_false in Hs.
      eapply objs_kept_trans;
        [|apply (objs_kept_setImmediate_callback P imm sc (with_immediates rest s) Hs Hsc)].
      apply (objs_kept_alloc P _ s).
  - unfold settle. destruct (inflight s !! i) as [a|]; [|done].
    destruct how as [|j]; simpl.
    + destruct (decide (Forall (λ f, f = Fulfils) (a_results a))); [|done].
      simpl. intros [= <-] _. by apply objs_kept_same.
    + destruct (a_results a !! j) as [[|error|]|]; try done. simpl. intros [= <-] Hsc.
      apply (objs_kept_handleError P (a_task a) error sc
               (with_inflight (delete i (inflight s)) s) Hsc).
Qed.

(** X15. The engine never writes to an object of the user: along every run,
    an object that the user code of the run does not write to has the
    properties it had, and no object disappears. The engine only allocates
    (the copies it hands to the observers). *)
Theorem untouched_objects_stay_as_they_are P ls s s' :
  run ls s = Some s' → Forall (label_writes_within P) ls → objs_kept P s s'.
Proof.
  revert s. induction ls as [|l ls IH]; intros s; simpl.
  - intros [= <-] _. apply objs_kept_refl.
  - destruct (step l s) as [s1|] eqn:E; [|done]. intros Hr [Hl Hls]%Forall_cons.
    eapply objs_kept_trans; [by apply (objs_kept_step P l s)|by apply IH].
Qed.

Lemma untouched_objects_stay_as_they_are_witness :
  objs_kept (λ l, l = 1)
    (default new_MemoryQueueStorage (run (take 1 sample_run) new_MemoryQueueStorage))
    (default new_MemoryQueueStorage
       (run (take 1 sample_run ++ [LImmediate (mutating_script 1)]) new_MemoryQueueStorage)).
Proof.
  apply (untouched_objects_stay_as_they_are (λ l, l = 1) [LImmediate (mutating_script 1)]).
  - by vm_compute.
  - vm_compute. repeat constructor.
Defined.

(** ** The dispatcher at work *)

Lemma inflight_apply_effects es s : inflight (apply_effects es s) = inflight s.
Proof. by apply (fields_apply_effects (λ s', inflight s' = inflight s)). Qed.

Lemma inflight_handleError t error sc s : inflight (handleError t error sc s).2 = inflight s.
Proof. by apply (fields_handleError (λ s', inflight s' = inflight s)). Qed.

Lemma handleError_log t error sc s :
  ∃ new, trace (handleError t error sc s).2 = new ++ trace s ∧
         Forall error_side new ∧
         error_calls new = rev ((λ h, (h, error)) <$> _errorHandlers s).
Proof.
  destruct (adds_handleError t error sc s) as (n & E & F). exists n.
  split_and!; [done..|].
  assert (error_calls (trace (handleError t error sc s).2) =
            rev ((λ h, (h, error)) <$> _errorHandlers s) ++ error_calls (trace s)) as H.
  { unfold handleError.
    pose proof (error_calls_forEach_errorHandlers
                  (getErrorHandlers (set_status t Failed s)) error sc
                  (set_status t Failed s)) as Hcalls.
    destruct (forEach_errorHandlers _ error sc (set_status t Failed s)) as [sc1 s2].
    simpl in Hcalls. destruct (negb (isStopped t s)); simpl; by rewrite ?trace_executeTask. }
  rewrite E, error_calls_app in H. by apply app_inv_tail in H.
Qed.

Lemma execute_bridge_registered ctx k sc s f :
  Queue.get_task (QueueObject._tasks (queue s)) k = VFun f →
  execute_bridge ctx k sc s = call_user sc (log (EvTaskCall f k ctx) s).
Proof. intros H. unfold execute_bridge. by rewrite (read_task_own _ _ _ H). Qed.

(** X16. The execute bridge of the dispatcher: when the callback of a record
    runs whose key is registered, the registered action is called once, with
    the key and the context object of this attempt. What the action returns
    becomes the attempt: the promise is awaited and nothing else is pending.
    When the action throws, no attempt is pending and every error observer of
    the storage is given what was thrown. *)
Theorem dispatcher_runs_the_registered_action imm inv sc f s :
  isStopped (i_task imm) s = false →
  i_handlers imm = [ExecuteBridge] →
  Queue.get_task (QueueObject._tasks (queue s)) (i_key imm) = VFun f →
  ∃ new,
    trace (setImmediate_callback imm (inv :: sc) s).2 = new ++ trace s ∧
    task_calls new = [(f, i_key imm, length (objs s))] ∧
    (∀ fate, outcome inv = Returns fate →
       inflight (setImmediate_callback imm (inv :: sc) s).2 =
         inflight s ++ [{| a_task := i_task imm; a_results := [fate] |}]) ∧
    (∀ e, outcome inv = Throws e →
       inflight (setImmediate_callback imm (inv :: sc) s).2 = inflight s ∧
       ∀ h, h ∈ _errorHandlers s → (h, e) ∈ error_calls new).
Proof.
  intros Hs Hh Hreg. unfold setImmediate_callback. rewrite Hs, Hh. lazy zeta.
  cbn [map_executionHandlers call_executionHandler].
  rewrite (execute_bridge_registered _ _ _ _ f) by exact Hreg.
  cbn [call_user].
  match goal with
  | |- context [apply_effects (effects inv) ?X] =>
      destruct (adds_apply_effects (effects inv) X) as (n & En & Fn);
      pose proof (inflight_apply_effects (effects inv) X) as Hin;
      pose proof (ext_errorHandlers _ _ _ (Ext_apply_effects None (effects inv) X)) as Hpre;
      generalize dependent (apply_effects (effects inv) X)
  end.
  intros s5 En Hin Hpre. simpl in En, Hin, Hpre.
  destruct (outcome inv) as [e|fate]; simpl.
  - destruct (handleError_log (i_task imm) e sc s5) as (nh & Eh & Fh & Ch).
    exists (nh ++ n ++ [EvTaskCall f (i_key imm) (length (objs s));
                        EvExecuteCall ExecuteBridge (i_task imm) (length (objs s));
                        EvExecute (i_task imm) (length (objs s)) (i_key imm)]).
    split_and!.
    + rewrite Eh, En. by rewrite <- !(assoc_L (++)).
    + rewrite !task_calls_app, (task_calls_error_side nh), (task_calls_is_stop n); done.
    + done.
    + intros e' [= <-]. split; [by rewrite inflight_handleError|].
      intros h Hin'. rewrite !error_calls_app, Ch, (error_calls_is_stop n) by done.
      apply elem_of_app. left. apply list_elem_of_In, in_rev. rewrite rev_involutive.
      apply list_elem_of_In, list_elem_of_fmap. exists h. split; [done|].
      destruct Hpre as [k' ->]. apply elem_of_app. by left.
  - exists (n ++ [EvTaskCall f (i_key imm) (length (objs s));
                  EvExecuteCall ExecuteBridge (i_task imm) (length (objs s));
                  EvExecute (i_task imm) (length (objs s)) (i_key imm)]).
    split_and!.
    + rewrite En. by rewrite <- !(assoc_L (++)).
    + by rewrite !task_calls_app, (task_calls_is_stop n).
    + intros fate' [= <-]. by rewrite Hin.
    + done.
Qed.

Lemma dispatcher_runs_the_registered_action_witness :
  ∃ new,
    trace (setImmediate_callback dispatcher_callback
             [{| effects := []; outcome := Returns Fulfils |}]
             (with_immediates [] dispatcher_state)).2 =
      new ++ trace (with_immediates [] dispatcher_state) ∧
    task_calls new = [(3, "t", 1)] ∧
    inflight (setImmediate_callback dispatcher_callback
                [{| effects := []; outcome := Returns Fulfils |}]
                (with_immediates [] dispatcher_state)).2 =
      [{| a_task := 0; a_results := [Fulfils] |}].
Proof.
  destruct (dispatcher_runs_the_registered_action dispatcher_callback
              {| effects := []; outcome := Returns Fulfils |} [] 3
              (with_immediates [] dispatcher_state))
    as (new & E & T & I & _); [by vm_compute..|].
  exists new. split_and!; [exact E|exact T|]. by rewrite (I Fulfils eq_refl).
Defined.

(** ** A task that always fails *)

Lemma only_logs_refl P s : only_logs P s s.
Proof. split; [apply adds_refl|by destruct s]. Qed.

Lemma only_logs_trans P s1 s2 s3 : only_logs P s1 s2 → only_logs P s2 s3 → only_logs P s1 s3.
Proof.
  intros [A1 E1] [A2 E2]. split; [by eapply adds_trans|].
  rewrite E2 at 1. by rewrite E1.
Qed.

Lemma only_logs_log (P : Event → Prop) e s : P e → only_logs P s (log e s).
Proof. intros. split; [by apply adds_log|done]. Qed.

Lemma only_logs_weaken (P Q : Event → Prop) s s' :
  (∀ e, P e → Q e) → only_logs P s s' → only_logs Q s s'.
Proof. intros H [A E]. split; [by eapply adds_weaken|done]. Qed.

Lemma only_logs_queue P s s' : only_logs P s s' → queue s' = queue s.
Proof. intros [_ ->]. done. Qed.

Lemma call_executionHandler_quiet h t ctx k s :
  (h = ExecuteBridge → bridge_throws (QueueObject._tasks (queue s)) k = false) →
  ∃ s', call_executionHandler h t ctx k [] s = (Returns Fulfils, [], s') ∧
        only_logs execute_side s s'.
Proof.
  intros Hb. unfold call_executionHandler. destruct h as [f|]; simpl.
  - eexists. split; [done|]. by apply only_logs_log.
  - specialize (Hb eq_refl). unfold bridge_throws in Hb. unfold execute_bridge. simpl.
    destruct (Queue.read_task (QueueObject._tasks (queue s)) k) as [v|m|] eqn:E; simpl.
    + destruct v; simpl; try (eexists; split; [done|]; by apply only_logs_log).
      eexists. split; [done|].
      eapply only_logs_trans;
        [by apply (only_logs_log _ (EvExecuteCall ExecuteBridge t ctx))|].
      by apply only_logs_log.
    + destruct m; simpl in *; try done; (eexists; split; [done|]; by apply only_logs_log).
    + eexists. split; [done|]. by apply only_logs_log.
Qed.

Lemma map_executionHandlers_quiet hs t ctx k s :
  (ExecuteBridge ∈ hs → bridge_throws (QueueObject._tasks (queue s)) k = false) →
  ∃ s', map_executionHandlers hs t ctx k [] s =
          (Normal (replicate (length hs) Fulfils), [], s') ∧
        only_logs execute_side s s'.
Proof.
  revert s. induction hs as [|h hs IH]; intros s Hb; simpl.
  - eexists. split; [done|]. apply only_logs_refl.
  - destruct (call_executionHandler_quiet h t ctx k s) as (s1 & -> & H1).
    { intros ->. apply Hb. by left. }
    destruct (IH s1) as (s2 & -> & H2).
    { intros Hin. rewrite (only_logs_queue _ _ _ H1). apply Hb. by right. }
    eexists. split; [done|]. by eapply only_logs_trans.
Qed.

Lemma bridge_returns_not_throws tasks k :
  bridge_returns tasks k → bridge_throws tasks k = false.
Proof.
  intros [[v Hv]|[_ H]]; [|done].
  unfold bridge_throws, Queue.read_task. by rewrite Hv.
Qed.

Lemma reachable_bridge_first s : reachable s → ExecuteBridge ∉ tail (_executionHandlers s).
Proof.
  apply (fields_reachable (λ s', ExecuteBridge ∉ tail (_executionHandlers s'))); try done.
  - intros f s0 H. simpl. destruct (_executionHandlers s0) as [|h hs]; simpl in *.
    + apply not_elem_of_nil.
    + intros [?|Hx]%elem_of_app; [done|]. by apply list_elem_of_singleton in Hx.
  - apply not_elem_of_nil.
  - apply not_elem_of_nil.
Qed.









(** In a state that a program reaches, a first observer that is a function of
    the user means that the bridge of the dispatcher is not subscribed. *)
Lemma retry_pending_without_bridge imm s :
  reachable s → retry_pending imm s → ExecuteBridge ∉ i_handlers imm.
Proof.
  intros Hr (_ & _ & Hh & (f & hs & Hhs) & _) Hin.
  apply (reachable_bridge_first s Hr). rewrite <- Hh, Hhs. simpl.
  rewrite Hhs in Hin. by apply elem_of_cons in Hin as [?|?].
Qed.

(** ** The running flag *)

Lemma flag_executeTask b t s :
  executeTask t (with_isRunning b s) = with_isRunning b (executeTask t s).
Proof.
  unfold executeTask, getExecutionHandlers. simpl.
  destruct (_executionHandlers s); [done|]. by destruct (recs s !! t).
Qed.

Lemma flag_fold_stop b l s :
  foldl (λ s' t, set_status t Stopped s') (with_isRunning b s) l =
    with_isRunning b (foldl (λ s' t, set_status t Stopped s') s l).
Proof.
  revert s. induction l as [|t l IH]; intros s; simpl; [done|].
  exact (IH (set_status t Stopped s)).
Qed.

Lemma flag_stopAllEnqueuedTasks b s :
  stopAllEnqueuedTasks (with_isRunning b s) = with_isRunning b (stopAllEnqueuedTasks s).
Proof.
  unfold stopAllEnqueuedTasks.
  exact (flag_fold_stop b _ (log (EvStop (_tasksInQueue s)) s)).
Qed.

Lemma flag_enqueueRemainingTasks b s :
  enqueueRemainingTasks (with_isRunning b s) = lift_flag b (enqueueRemainingTasks s).
Proof.
  unfold enqueueRemainingTasks, lift_flag. simpl. f_equal.
  change (filter (λ t, status_of (with_isRunning b s) t = Some Queued) (_tasksInQueue s))
    with (filter (λ t, status_of s t = Some Queued) (_tasksInQueue s)).
  generalize (filter (λ t, status_of s t = Some Queued) (_tasksInQueue s)).
  intros l. revert s. induction l as [|t l IH]; intros s; simpl; [done|].
  destruct (recs s !! t) as [r|]; [|apply IH].
  match goal with
  | |- context [executeTask ?n (with_recs ?x (with_isRunning b s))] =>
      change (executeTask n (with_recs x (with_isRunning b s)))
        with (executeTask n (with_isRunning b (with_recs x s)))
  end.
  rewrite flag_executeTask. apply IH.
Qed.

Lemma flag_enqueueTask b o s :
  enqueueTask o (with_isRunning b s) = lift_flag b (enqueueTask o s).
Proof.
  unfold enqueueTask, lift_flag. lazy zeta. cbn [fst snd]. f_equal.
  by rewrite <- flag_executeTask.
Qed.

Lemma flag_register b arg1 moreTasks q :
  (Queue.register arg1 moreTasks
     (QueueObject.mk (QueueObject._errorHandlers q) b (QueueObject._tasks q))).2 =
  QueueObject.mk (QueueObject._errorHandlers (Queue.register arg1 moreTasks q).2) b
    (QueueObject._tasks (Queue.register arg1 moreTasks q).2).
Proof.
  unfold Queue.register. destruct arg1 as [task|entries| |]; [| |done..];
    cbn [QueueObject._tasks].
  - by destruct (Queue.add_tasks (task :: moreTasks) (QueueObject._tasks q)).
  - destruct (Queue.check_entries 0 entries); [|done].
    by destruct (Queue.add_tasks (entries ++ moreTasks) (QueueObject._tasks q)).
Qed.

Lemma flag_apply_effect b e s :
  ∃ b', apply_effect e (with_isRunning b s) = with_isRunning b' (apply_effect e s).
Proof.
  destruct e; cbn [apply_effect].
  - by exists b.
  - by exists b.
  - by exists b.
  - exists b. unfold QueueStorageBase.on. destruct handler; try done.
    by repeat case_decide.
  - exists b. exact (f_equal snd (flag_enqueueTask b options0 s)).
  - exists b. exact (f_equal snd (flag_enqueueRemainingTasks b s)).
  - exists b. apply flag_stopAllEnqueuedTasks.
  - exists b. unfold Queue.on. by case_decide.
  - exists b. unfold Queue.enqueue. simpl. case_match; [done|]. by destruct options0.
  - exists b. unfold with_isRunning, with_queue. simpl. by rewrite flag_register.
  - exists true. unfold Queue.start. simpl. destruct b; by destruct (queue s) as [? [] ?].
  - exists false. unfold Queue.stop. simpl. destruct b; by destruct (queue s) as [? [] ?].
Qed.

Lemma flag_apply_effects b es s :
  ∃ b', apply_effects es (with_isRunning b s) = with_isRunning b' (apply_effects es s).
Proof.
  unfold apply_effects. revert b s. induction es as [|e es IH]; intros b s; simpl.
  - by exists b.
  - destruct (flag_apply_effect b e s) as [b1 ->]. apply IH.
Qed.

Lemma flag_call_user b sc s :
  ∃ b', call_user sc (with_isRunning b s) = lift_flag b' (call_user sc s).
Proof.
  destruct sc as [|inv sc]; simpl; [by exists b|].
  destruct (flag_apply_effects b (effects inv) s) as [b' ->]. by exists b'.
Qed.

Lemma flag_execute_bridge b ctx k sc s :
  ∃ b', execute_bridge ctx k sc (with_isRunning b s) = lift_flag b' (execute_bridge ctx k sc s).
Proof.
  unfold execute_bridge. simpl.
  destruct (Queue.read_task (QueueObject._tasks (queue s)) k) as [v|m|]; simpl;
    [|destruct m; by exists b|by exists b].
  destruct v as [| | | | | |f| |]; simpl; try (by exists b).
  apply (flag_call_user b sc (log (EvTaskCall f k ctx) s)).
Qed.

Lemma flag_error_bridge b handlers error sc s :
  ∃ b', error_bridge handlers error sc (with_isRunning b s) =
          lift_flag b' (error_bridge handlers error sc s).
Proof.
  revert b sc s. induction handlers as [|h hs IH]; intros b sc s; simpl; [by exists b|].
  destruct h; try apply (IH b sc (log _ (log _ s))).
  destruct (flag_call_user b sc (log (EvQueueErrorCall (VFun f) error) s)) as [b1 E].
  change (log (EvQueueErrorCall (VFun f) error) (with_isRunning b s))
    with (with_isRunning b (log (EvQueueErrorCall (VFun f) error) s)).
  rewrite E. unfold lift_flag.
  destruct (call_user sc (log (EvQueueErrorCall (VFun f) error) s)) as [[o sc1] s1].
  simpl. destruct o as [e2|[|e2|]]; try apply IH; apply (IH b1 sc1 (log _ s1)).
Qed.

Lemma flag_call_executionHandler b h t ctx k sc s :
  ∃ b', call_executionHandler h t ctx k sc (with_isRunning b s) =
          lift_flag b' (call_executionHandler h t ctx k sc s).
Proof.
  unfold call_executionHandler. destruct h.
  - apply (flag_call_user b sc (log _ s)).
  - apply (flag_execute_bridge b ctx k sc (log _ s)).
Qed.

Lemma flag_map_executionHandlers b hs t ctx k sc s :
  ∃ b', map_executionHandlers hs t ctx k sc (with_isRunning b s) =
          lift_flag b' (map_executionHandlers hs t ctx k sc s).
Proof.
  revert b sc s. induction hs as [|h hs IH]; intros b sc s; simpl; [by exists b|].
  destruct (flag_call_executionHandler b h t ctx k sc s) as [b1 ->]. unfold lift_flag.
  destruct (call_executionHandler h t ctx k sc s) as [[o sc1] s1]. simpl.
  destruct o as [e|f]; [by exists b1|].
  destruct (IH b1 sc1 s1) as [b2 ->]. unfold lift_flag.
  destruct (map_executionHandlers hs t ctx k sc1 s1) as [[r sc2] s2]. by exists b2.
Qed.

Lemma flag_call_errorHandler b h error sc s :
  ∃ b', call_errorHandler h error sc (with_isRunning b s) =
          lift_flag b' (call_errorHandler h error sc s).
Proof.
  unfold call_errorHandler. destruct h.
  - destruct (flag_call_user b sc (log (EvErrorCall (UserErrorHandler f) error) s)) as [b1 E].
    change (log (EvErrorCall (UserErrorHandler f) error) (with_isRunning b s))
      with (with_isRunning b (log (EvErrorCall (UserErrorHandler f) error) s)).
    rewrite E. unfold lift_flag.
    destruct (call_user sc (log (EvErrorCall (UserErrorHandler f) error) s)) as [[o sc1] s1].
    simpl. destruct o; by exists b1.
  - apply (flag_error_bridge b _ (VErrorContext error) sc (log _ s)).
Qed.

Lemma flag_forEach_errorHandlers b hs error sc s :
  ∃ b', forEach_errorHandlers hs error sc (with_isRunning b s) =
          lift_flag b' (forEach_errorHandlers hs error sc s).
Proof.
  revert b sc s. induction hs as [|h hs IH]; intros b sc s; simpl; [by exists b|].
  destruct (flag_call_errorHandler b h error sc s) as [b1 ->]. unfold lift_flag.
  destruct (call_errorHandler h error sc s) as [sc1 s1]. simpl. apply IH.
Qed.

Lemma flag_handleError b t error sc s :
  ∃ b', handleError t error sc (with_isRunning b s) = lift_flag b' (handleError t error sc s).
Proof.
  unfold handleError.
  change (isStopped t (with_isRunning b s)) with (isStopped t s).
  destruct (flag_forEach_errorHandlers b (getErrorHandlers (set_status t Failed s)) error sc
              (set_status t Failed s)) as [b1 E].
  change (forEach_errorHandlers (getErrorHandlers (set_status t Failed (with_isRunning b s)))
            error sc (set_status t Failed (with_isRunning b s)))
    with (forEach_errorHandlers (getErrorHandlers (set_status t Failed s))
            error sc (with_isRunning b (set_status t Failed s))).
  rewrite E. unfold lift_flag.
  destruct (forEach_errorHandlers _ error sc (set_status t Failed s)) as [sc1 s2]. simpl.
  exists b1. destruct (negb (isStopped t s)); simpl; [|done]. by rewrite flag_executeTask.
Qed.

Lemma flag_setImmediate_callback b imm sc s :
  ∃ b', setImmediate_callback imm sc (with_isRunning b s) =
          lift_flag b' (setImmediate_callback imm sc s).
Proof.
  unfold setImmediate_callback.
  change (isStopped (i_task imm) (with_isRunning b s)) with (isStopped (i_task imm) s).
  destruct (isStopped (i_task imm) s); [by exists b|]. lazy zeta.
  match goal with
  | |- context [lift_flag _ (match map_executionHandlers ?hs ?t ?ctx ?k ?sc0 ?s0 with _ => _ end)] =>
      destruct (flag_map_executionHandlers b hs t ctx k sc0 s0) as [b1 E];
      destruct (map_executionHandlers hs t ctx k sc0 s0) as [[r sc1] s5] eqn:E0
  end.
  unfold lift_flag in E. simpl in E.
  match goal with
  | |- context [match ?X with _ => _ end = _] =>
      change X with (map_executionHandlers (i_handlers imm) (i_task imm) (length (objs s))
                       (i_key imm) sc
                       (with_isRunning b
                          (log (EvExecute (i_task imm) (length (objs s)) (i_key imm))
                             (set_status (i_task imm) Running
                                (with_objs (objs s ++ [default ∅ (objs s !! i_data imm)])
                                   (set_status (i_task imm) Queued s))))))
  end.
  simpl in E0. rewrite E.
  destruct r as [fates|error]; [by exists b1|].
  apply flag_handleError.
Qed.

Lemma flag_step b l s :
  ∃ b', step l (with_isRunning b s) = with_isRunning b' <$> step l s.
Proof.
  destruct l as [es|sc|i how sc]; simpl.
  - destruct (flag_apply_effects b es s) as [b' ->]. by exists b'.
  - destruct (immediates s) as [|imm rest]; [by exists b|].
    destruct (flag_setImmediate_callback b imm sc (with_immediates rest s)) as [b' E].
    exists b'. simpl. f_equal. exact (f_equal snd E).
  - unfold settle. simpl. destruct (inflight s !! i) as [a|]; [|by exists b].
    destruct how as [|j].
    + exists b. by destruct (decide (Forall (λ f, f = Fulfils) (a_results a))).
    + destruct (a_results a !! j) as [[|error|]|]; try (by exists b).
      destruct (flag_handleError b (a_task a) error sc
                  (with_inflight (delete i (inflight s)) s)) as [b' E].
      exists b'. simpl. f_equal. exact (f_equal snd E).
Qed.

(** X18. Nothing but [start] and [stop] themselves reads the running flag of
    the dispatcher; they do not touch the storage, and the engine does not look
    at the flag. The same run from a state that differs in the flag alone goes
    the same way (it gets stuck at the same place or not at all) and ends in a
    state that differs in the flag alone: the same observers are called, the
    same records are attempted, retried and stopped, whether the dispatcher
    is "running" or not. *)
Theorem running_flag_is_never_read ls b s :
  ∃ b', run ls (with_isRunning b s) = with_isRunning b' <$> run ls s.
Proof.
  revert b s. induction ls as [|l ls IH]; intros b s; simpl.
  - by exists b.
  - destruct (flag_step b l s) as [b1 ->].
    destruct (step l s) as [s1|]; simpl; [apply IH|by exists b].
Qed.

(** ** From submission to success *)

Lemma enqueueTask_schedules o s :
  _executionHandlers s ≠ [] →
  immediates (enqueueTask o s).2 =
    immediates s ++ [{| i_task := length (recs s); i_handlers := _executionHandlers s;
                        i_data := data o; i_key := key o |}] ∧
  inflight (enqueueTask o s).2 = inflight s ∧ objs (enqueueTask o s).2 = objs s ∧
  trace (enqueueTask o s).2 = trace s ∧
  _executionHandlers (enqueueTask o s).2 = _executionHandlers s.
Proof.
  intros Hh. unfold enqueueTask. lazy zeta. cbn [snd].
  match goal with
  | |- context [executeTask ?t ?X] =>
      destruct (executeTask_fields t X) as (_ & -> & -> & _ & -> & -> & _);
      rewrite (executeTask_immediates t X
                 {| id := String (_nextId s); options := o; status := Queued |})
  end.
  - simpl. by rewrite decide_False by done.
  - simpl. by rewrite lookup_app_r, Nat.sub_diag by lia.
Qed.

Lemma queue_enqueueTask o s : queue (enqueueTask o s).2 = queue s.
Proof.
  unfold enqueueTask. lazy zeta. cbn [snd].
  match goal with
  | |- context [executeTask ?t ?X] =>
      by destruct (executeTask_fields t X) as (_ & _ & _ & _ & _ & _ & _ & ->)
  end.
Qed.

Lemma quiet_attempt imm rest s :
  immediates s = imm :: rest → status_of s (i_task imm) ≠ Some Stopped →
  (ExecuteBridge ∈ i_handlers imm →
   bridge_throws (QueueObject._tasks (queue s)) (i_key imm) = false) →
  ∃ s2 n,
    step (LImmediate []) s = Some s2 ∧
    immediates s2 = rest ∧
    inflight s2 = inflight s ++
      [{| a_task := i_task imm; a_results := replicate (length (i_handlers imm)) Fulfils |}] ∧
    recs s2 = alter (set_record_status Running) (i_task imm)
                (alter (set_record_status Queued) (i_task imm) (recs s)) ∧
    objs s2 = objs s ++ [default ∅ (objs s !! i_data imm)] ∧
    _tasksInQueue s2 = _tasksInQueue s ∧
    trace s2 = n ++ EvExecute (i_task imm) (length (objs s)) (i_key imm) :: trace s ∧
    Forall execute_side n ∧
    execute_calls n = rev ((λ h, (h, i_task imm, length (objs s))) <$> i_handlers imm).
Proof.
  intros Himm Hst Hb. unfold step. rewrite Himm. unfold setImmediate_callback.
  assert (isStopped (i_task imm) (with_immediates rest s) = false) as ->.
  { by apply isStopped_false. }
  lazy zeta.
  match goal with
  | |- context [map_executionHandlers ?hs ?t0 ?ctx ?k0 [] ?X] =>
      destruct (map_executionHandlers_calls hs t0 ctx k0 [] X)
        as (new & called & E & _ & C & _ & HN & _);
      destruct (map_executionHandlers_quiet hs t0 ctx k0 X)
        as (s5 & Hq & [(n1 & E1 & F1) W1]); [exact Hb|]
  end.
  rewrite Hq in E, HN. rewrite Hq. cbn [fst snd] in *.
  destruct (HN _ eq_refl) as [-> _].
  rewrite E1 in E. apply app_inv_tail in E. subst new. simpl in E1, C.
  eexists _, n1. split; [done|]. simpl.
  split_and!; try done; by rewrite W1.
Qed.

(** X19. From submission to success. On a storage that has an execute
    observer and nothing scheduled, a submitted task whose observers return
    promises that are fulfilled (and do not call back into the storage) is
    done after two turns of the event loop: "execute" was emitted once for
    it, every observer was called once, in the order of subscription, with a
    new object that has the properties of the submitted data; the record is
    [Succeded] and gone from the backing list; nothing is left scheduled or
    pending for it. Where the bridge of the dispatcher is one of the
    observers, it must return for the key of the task: the key is registered,
    or names nothing, or names a function of [Object.prototype] that does not
    throw. *)
Theorem submitted_task_runs_to_success o s :
  _executionHandlers s ≠ [] → immediates s = [] →
  (ExecuteBridge ∈ _executionHandlers s →
   bridge_returns (QueueObject._tasks (queue s)) (key o)) →
  ∃ s' new,
    run [LUser [EEnqueueTask o]; LImmediate []; LSettle (length (inflight s)) AllFulfilled []] s
      = Some s' ∧
    status_of s' (length (recs s)) = Some Succeded ∧
    (length (recs s) ∉ _tasksInQueue s') ∧
    trace s' = new ++ trace s ∧
    executes new = [(length (recs s), length (objs s), key o)] ∧
    execute_calls new =
      rev ((λ h, (h, length (recs s), length (objs s))) <$> _executionHandlers s) ∧
    objs s' = objs s ++ [default ∅ (objs s !! data o)] ∧
    immediates s' = [] ∧ inflight s' = inflight s.
Proof.
  intros Hh Him Hb.
  destruct (enqueueTask_schedules o s Hh) as (Hi1 & Hin1 & Ho1 & Ht1 & Hh1).
  pose proof (recs_enqueueTask o s) as Hr1.
  rewrite Him in Hi1. simpl in Hi1.
  destruct (quiet_attempt _ [] (enqueueTask o s).2 Hi1)
    as (s2 & n & Hstep2 & Hi2 & Hin2 & Hr2 & Ho2 & Hq2 & Ht2 & F2 & C2).
  { unfold status_of. rewrite Hr1. simpl.
    by rewrite lookup_app_r, Nat.sub_diag by lia. }
  { cbn [i_handlers i_key]. rewrite queue_enqueueTask. intros Hin.
    by apply bridge_returns_not_throws, Hb. }
  cbn [i_task i_handlers i_data i_key] in *.
  rewrite Hin1 in Hin2. rewrite Ho1 in Ho2, Ht2, C2. rewrite Ht1 in Ht2.
  set (t := length (recs s)) in *.
  assert (t < length (recs s2)) as Hlt.
  { rewrite Hr2, !length_alter, Hr1, length_app. simpl. unfold t. lia. }
  exists (then_callback t (with_inflight (delete (length (inflight s)) (inflight s2)) s2)),
    (n ++ [EvExecute t (length (objs s)) (key o)]).
  split_and!.
  - cbn [run]. unfold step at 1. cbn [apply_effects foldl apply_effect].
    rewrite Hstep2. unfold step, settle.
    rewrite Hin2, lookup_app_r, Nat.sub_diag by lia. simpl.
    rewrite decide_True; [done|]. apply Forall_replicate. done.
  - unfold then_callback, cleanupTasksInQueue.
    change (status_of (set_status t Succeded
                         (with_inflight (delete (length (inflight s)) (inflight s2)) s2)) t
            = Some Succeded).
    by apply (status_of_set_status_eq (with_inflight _ s2)).
  - unfold then_callback, cleanupTasksInQueue. simpl.
    intros [Hn _]%list_elem_of_filter. apply Hn.
    by apply (status_of_set_status_eq (with_inflight _ s2)).
  - unfold then_callback, cleanupTasksInQueue. simpl. rewrite Ht2.
    by rewrite <- (assoc_L (++)).
  - by rewrite executes_app, (executes_execute_side n).
  - rewrite execute_calls_app, C2. simpl. by rewrite app_nil_r.
  - done.
  - done.
  - unfold then_callback, cleanupTasksInQueue. simpl. rewrite Hin2.
    by rewrite delete_middle, app_nil_r.
Qed.

Lemma submitted_task_runs_to_success_witness :
  ∃ s',
    run [LUser [EEnqueueTask {| data := 0; key := "t" |}]; LImmediate [];
         LSettle 0 AllFulfilled []] registered_ready_state = Some s' ∧
    status_of s' 0 = Some Succeded ∧
    objs s' = [ {[ "x" := VNum 1 ]}; {[ "x" := VNum 1 ]} ].
Proof.
  destruct (submitted_task_runs_to_success {| data := 0; key := "t" |}
              registered_ready_state)
    as (s' & new & Hrun & Hst & _ & _ & _ & _ & Ho & _).
  - by vm_compute.
  - by vm_compute.
  - intros _. left. exists (VFun 3). by vm_compute.
  - exists s'. split_and!; [exact Hrun|exact Hst|exact Ho].
Defined.

(** ** Failures reach the observers of the dispatcher *)





